(** * AVLMap: a shallow embedding of [src/AVLTree/main.cpp]

    The C++ program is a map over a node graph held together by
    [std::shared_ptr] child links and [std::weak_ptr] parent links.  Its
    mutators take [shared_ptr] variables by reference, rotate nodes in
    place and, in [Delete], form a transient cycle, so the embedding keeps
    the node graph in an arena: a node is identified by its index, a
    pointer is an [option ptr] ([None] is [nullptr]) and every function of
    the class is a computation in a state-and-error monad over the arena.
    The template is instantiated at [int] keys and values, as [main] does.

    Two readings are fixed once and for all.  A [weak_ptr] is the
    pointer it was set from, and [lock()] returns it: nodes are never
    reclaimed in the arena, a node the program drops merely becomes
    unreachable.  Going through a null pointer is the error
    [NullDeref].

    Only members that are well-formed C++ are embedded.
    [Iterator::operator--], [NextLeft] and [NextTopMinus] compare a
    [weak_ptr] with [nullptr], apply [->] to it and pass it where a
    [shared_ptr] is required; [AVLMap::operator=] hands the map itself
    to [MakeCopy], which takes a pointer to a node; [rbegin] and [rend]
    need [std::reverse_iterator] over a cursor that declares no
    [reference] type.  None of these can be instantiated, and [main]
    instantiates none: they have no behaviour and no definition here.

    Recursive functions take a fuel argument; the theorems that say a
    function returns are stated for every fuel above the depth of the
    tree. *)

From Stdlib Require Import ZArith Lia.
From stdpp Require Import base list sorting.

Local Open Scope Z_scope.

(** ** Data model *)

Definition ptr := nat.
Definition KeyT := Z.
Definition ValT := Z.

Module Node.
Record t := mk {
  key : KeyT;
  value : ValT;
  left : option ptr;
  right : option ptr;
  parent : option ptr;
  height : Z
}.
Definition set_value (v : ValT) (n : t) : t :=
  mk (key n) v (left n) (right n) (parent n) (height n).
Definition set_left (o : option ptr) (n : t) : t :=
  mk (key n) (value n) o (right n) (parent n) (height n).
Definition set_right (o : option ptr) (n : t) : t :=
  mk (key n) (value n) (left n) o (parent n) (height n).
Definition set_parent (o : option ptr) (n : t) : t :=
  mk (key n) (value n) (left n) (right n) o (height n).
Definition set_height (h : Z) (n : t) : t :=
  mk (key n) (value n) (left n) (right n) (parent n) h.
End Node.
Abbreviation Node := Node.t.

(** The arena of nodes, and the pointer variables that live outside it:
    the [root_] member of every map object and the [shared_ptr] locals
    that [Delete] passes by reference. *)
Record state := mkState {
  nodes : list Node;
  vars : list (option ptr)
}.

(** [NullDeref] is the undefined behaviour of going through [nullptr];
    [NotFound] and [OutOfRange] are the two exceptions the program
    throws; [OutOfFuel] is the recursion bound of the embedding. *)
Inductive error := NullDeref | NotFound | OutOfRange | OutOfFuel.

Inductive result (A : Type) := Ok (a : A) | Err (e : error).
Arguments Ok {A} a.
Arguments Err {A} e.

Definition M (A : Type) : Type := state -> result (A * state).

Definition ret {A} (a : A) : M A := fun st => Ok (a, st).
Definition fail {A} (e : error) : M A := fun _ => Err e.
Definition bind {A B} (m : M A) (k : A -> M B) : M B :=
  fun st => match m st with
            | Ok (a, st') => k a st'
            | Err e => Err e
            end.

Notation "'do' x <- m ; k" := (bind m (fun x => k))
  (at level 10, x name, m at level 100, k at level 200,
   format "'[v' 'do'  x  <-  m ; '/' k ']'").
Notation "'do_' m ; k" := (bind m (fun _ => k))
  (at level 10, m at level 100, k at level 200,
   format "'[v' 'do_'  m ; '/' k ']'").

(** ** Memory accesses *)

Definition load (p : ptr) : M Node :=
  fun st => match nodes st !! p with
            | Some n => Ok (n, st)
            | None => Err NullDeref
            end.

Definition store (p : ptr) (n : Node) : M unit :=
  fun st => match nodes st !! p with
            | Some _ => Ok (tt, mkState (<[p:=n]> (nodes st)) (vars st))
            | None => Err NullDeref
            end.

(** [std::allocate_shared<Node>(allocator_, key, val)]: the constructor
    leaves both children null, the parent empty and the height 1. *)
Definition allocate_shared (k : KeyT) (v : ValT) : M ptr :=
  fun st => Ok (length (nodes st),
                mkState (nodes st ++ [Node.mk k v None None None 1]) (vars st)).

(** A default-constructed [shared_ptr] variable. *)
Definition new_var : M nat :=
  fun st => Ok (length (vars st), mkState (nodes st) (vars st ++ [None])).

Definition deref (o : option ptr) : M ptr :=
  match o with
  | Some p => ret p
  | None => fail NullDeref
  end.

(** The places that hold a pointer and can be bound to a C++ reference. *)
Inductive lval :=
| Var (i : nat)
| Left (p : ptr)
| Right (p : ptr)
| Parent (p : ptr).

Definition get (l : lval) : M (option ptr) :=
  match l with
  | Var i => fun st => match vars st !! i with
                       | Some o => Ok (o, st)
                       | None => Err NullDeref
                       end
  | Left p => do n <- load p; ret (Node.left n)
  | Right p => do n <- load p; ret (Node.right n)
  | Parent p => do n <- load p; ret (Node.parent n)
  end.

Definition set (l : lval) (v : option ptr) : M unit :=
  match l with
  | Var i => fun st => match vars st !! i with
                       | Some _ => Ok (tt, mkState (nodes st) (<[i:=v]> (vars st)))
                       | None => Err NullDeref
                       end
  | Left p => do n <- load p; store p (Node.set_left v n)
  | Right p => do n <- load p; store p (Node.set_right v n)
  | Parent p => do n <- load p; store p (Node.set_parent v n)
  end.

(** [s->]: the node the pointer held in [s] points to. *)
Definition arrow (s : lval) : M ptr := do o <- get s; deref o.

(** [dst = std::move(src)], which the standard defines as
    [shared_ptr(std::move(src)).swap(dst)]: a move onto itself changes
    nothing. *)
Definition move_assign (dst src : lval) : M unit :=
  do v <- get src;
  do_ set src None;
  set dst v.

Definition key_of (p : ptr) : M KeyT := do n <- load p; ret (Node.key n).
Definition set_value (p : ptr) (v : ValT) : M unit :=
  do n <- load p; store p (Node.set_value v n).

(** ** Machine integers: [uint32_t height], [int] results *)

Definition to_uint32 (z : Z) : Z := z mod 2 ^ 32.
Definition to_int (z : Z) : Z := (z + 2 ^ 31) mod 2 ^ 32 - 2 ^ 31.
Definition to_size_t (z : Z) : Z := z mod 2 ^ 64.

(** ** Height, balance factor and rotations *)

Definition height (node : option ptr) : M Z :=
  match node with
  | None => ret 0
  | Some p => do n <- load p; ret (to_int (Node.height n))
  end.

Definition BFactor (node : option ptr) : M Z :=
  match node with
  | None => ret 0
  | Some p =>
      do r <- get (Right p);
      do hr <- height r;
      do l <- get (Left p);
      do hl <- height l;
      ret (to_int (hr - hl))
  end.

Definition FixHeight (node : option ptr) : M unit :=
  match node with
  | None => ret tt
  | Some p =>
      do l <- get (Left p);
      do hl <- height l;
      do r <- get (Right p);
      do hr <- height r;
      do n <- load p;
      store p (Node.set_height (to_uint32 (1 + Z.max hl hr)) n)
  end.

Definition is_null (o : option ptr) : bool :=
  match o with None => true | Some _ => false end.

Definition when (b : bool) (m : M unit) : M unit := if b then m else ret tt.

Definition RotateLeft (p : lval) : M unit :=
  (* q = p->right *)
  do P <- arrow p;
  do q <- get (Right P);
  (* p->right = q->left *)
  do Q <- deref q;
  do ql <- get (Left Q);
  do P <- arrow p;
  do_ set (Right P) ql;
  (* if (q->left != nullptr) q->left->parent = p *)
  do Q <- deref q;
  do ql <- get (Left Q);
  do_ when (negb (is_null ql))
        (do pv <- get p;
         do Q <- deref q;
         do ql <- get (Left Q);
         do QL <- deref ql;
         set (Parent QL) pv);
  (* q->left = p *)
  do pv <- get p;
  do Q <- deref q;
  do_ set (Left Q) pv;
  (* FixHeight(p) *)
  do pv <- get p;
  do_ FixHeight pv;
  (* q->parent = p->parent *)
  do P <- arrow p;
  do pp <- get (Parent P);
  do Q <- deref q;
  do_ set (Parent Q) pp;
  (* p->parent = q *)
  do P <- arrow p;
  do_ set (Parent P) q;
  (* p = q *)
  do_ set p q;
  FixHeight q.

Definition RotateRight (q : lval) : M unit :=
  (* p = q->left *)
  do Q <- arrow q;
  do p <- get (Left Q);
  (* q->left = p->right *)
  do P <- deref p;
  do pr <- get (Right P);
  do Q <- arrow q;
  do_ set (Left Q) pr;
  (* if (p->right != nullptr) p->right->parent = q *)
  do P <- deref p;
  do pr <- get (Right P);
  do_ when (negb (is_null pr))
        (do qv <- get q;
         do P <- deref p;
         do pr <- get (Right P);
         do PR <- deref pr;
         set (Parent PR) qv);
  (* p->right = q *)
  do qv <- get q;
  do P <- deref p;
  do_ set (Right P) qv;
  (* FixHeight(p) *)
  do_ FixHeight p;
  (* p->parent = q->parent *)
  do Q <- arrow q;
  do qp <- get (Parent Q);
  do P <- deref p;
  do_ set (Parent P) qp;
  (* q->parent = p *)
  do Q <- arrow q;
  do_ set (Parent Q) p;
  (* q = p *)
  do_ set q p;
  (* FixHeight(q): q is the reference, which now holds p *)
  do qv <- get q;
  FixHeight qv.

Definition BalanceNode (node : lval) : M unit :=
  do n <- get node;
  do bf <- BFactor n;
  if bf =? 2 then
    do N <- arrow node;
    do r <- get (Right N);
    do bfr <- BFactor r;
    do_ when (bfr =? -1)
          (do N <- arrow node; RotateRight (Right N));
    RotateLeft node
  else
    do n <- get node;
    do bf <- BFactor n;
    if bf =? -2 then
      do N <- arrow node;
      do l <- get (Left N);
      do bfl <- BFactor l;
      do_ when (bfl =? 1)
            (do N <- arrow node; RotateLeft (Left N));
      RotateRight node
    else ret tt.

(** ** Insertion *)

(** The private [Insert(parent, node, key, val)]; [node] is a reference. *)
Fixpoint Insert_rec (fuel : nat) (parent : option ptr) (node : lval)
    (key : KeyT) (val : ValT) : M unit :=
  match fuel with
  | O => fail OutOfFuel
  | S fuel =>
      do n <- get node;
      if is_null n then
        (* node = allocate_shared(...); node->parent = parent; return *)
        do fresh <- allocate_shared key val;
        do_ set node (Some fresh);
        do N <- arrow node;
        set (Parent N) parent
      else
        (* if (node->key == key) node->value = val;   -- no return here *)
        do N <- arrow node;
        do k <- key_of N;
        do_ when (k =? key)
              (do N <- arrow node; set_value N val);
        (* if (node->key > key) Insert(node, node->left, ...)
           else Insert(node, node->right, ...) *)
        do N <- arrow node;
        do k <- key_of N;
        do_ (if k >? key then
               do n <- get node;
               do N <- arrow node;
               Insert_rec fuel n (Left N) key val
             else
               do n <- get node;
               do N <- arrow node;
               Insert_rec fuel n (Right N) key val);
        do n <- get node;
        do_ FixHeight n;
        BalanceNode node
  end.

(** ** Lookup *)

(** The private static [Get(node, key)].  It returns [node->value] by
    reference: the result is the node whose value field the reference
    designates. *)
Fixpoint Get_rec (fuel : nat) (node : option ptr) (key : KeyT) : M ptr :=
  match fuel with
  | O => fail OutOfFuel
  | S fuel =>
      match node with
      | None => fail NotFound
      | Some p =>
          do k <- key_of p;
          if k =? key then ret p
          else
            do k <- key_of p;
            if k >? key then
              do l <- get (Left p); Get_rec fuel l key
            else
              do r <- get (Right p); Get_rec fuel r key
      end
  end.

(** The private static [Contains(node, key)] *)
Fixpoint Contains_rec (fuel : nat) (node : option ptr) (key : KeyT) : M bool :=
  match fuel with
  | O => fail OutOfFuel
  | S fuel =>
      match node with
      | None => ret false
      | Some p =>
          do k <- key_of p;
          if k =? key then ret true
          else
            do k <- key_of p;
            if k >? key then
              do l <- get (Left p); Contains_rec fuel l key
            else
              do r <- get (Right p); Contains_rec fuel r key
      end
  end.

(** ** Deletion *)

(** [node] is passed by value, [result] by reference. *)
Fixpoint GetMaxLeft (fuel : nat) (node : option ptr) (result : lval)
    : M (option ptr) :=
  match fuel with
  | O => fail OutOfFuel
  | S fuel =>
      do N <- deref node;
      do r <- get (Right N);
      if negb (is_null r) then
        (* node->right = GetMaxLeft(node->right, result) *)
        do N <- deref node;
        do r <- get (Right N);
        do g <- GetMaxLeft fuel r result;
        do N <- deref node;
        do_ set (Right N) g;
        (* FixHeight(node->right) *)
        do N <- deref node;
        do r <- get (Right N);
        do_ FixHeight r;
        ret node
      else
        (* auto to_return = node->left *)
        do N <- deref node;
        do to_return <- get (Left N);
        (* to_return->parent = std::move(node->parent) *)
        do N <- deref node;
        do T <- deref to_return;
        do_ move_assign (Parent T) (Parent N);
        (* result = std::move(node) *)
        do_ set result node;
        do rv <- get result;
        do_ FixHeight rv;
        ret to_return
  end.

(** The private [Delete(root, key)]; [root] is a reference, [result] and
    [replace] are locals that are passed on by reference. *)
Fixpoint Delete_rec (fuel : nat) (root : lval) (key : KeyT)
    : M (option ptr) :=
  match fuel with
  | O => fail OutOfFuel
  | S fuel =>
      do r <- get root;
      if is_null r then ret None
      else
        do R <- arrow root;
        do k <- key_of R;
        if k =? key then
          do result <- new_var;
          do R <- arrow root;
          do l <- get (Left R);
          do_ (if negb (is_null l) then
                 do replace <- new_var;
                 (* root->left = GetMaxLeft(root, replace) *)
                 do rv <- get root;
                 do g <- GetMaxLeft fuel rv (Var replace);
                 do R <- arrow root;
                 do_ set (Left R) g;
                 (* replace->parent = std::move(root->parent) *)
                 do R <- arrow root;
                 do Rp <- arrow (Var replace);
                 do_ move_assign (Parent Rp) (Parent R);
                 (* replace->left = std::move(root->left) *)
                 do R <- arrow root;
                 do Rp <- arrow (Var replace);
                 do_ move_assign (Left Rp) (Left R);
                 (* replace->right = std::move(root->right) *)
                 do R <- arrow root;
                 do Rp <- arrow (Var replace);
                 do_ move_assign (Right Rp) (Right R);
                 (* if (replace->left != nullptr) replace->left->parent = replace *)
                 do Rp <- arrow (Var replace);
                 do rl <- get (Left Rp);
                 do_ when (negb (is_null rl))
                       (do rp <- get (Var replace);
                        do Rp <- arrow (Var replace);
                        do rl <- get (Left Rp);
                        do RL <- deref rl;
                        set (Parent RL) rp);
                 (* if (replace->right != nullptr) replace->right->parent = replace *)
                 do Rp <- arrow (Var replace);
                 do rr <- get (Right Rp);
                 do_ when (negb (is_null rr))
                       (do rp <- get (Var replace);
                        do Rp <- arrow (Var replace);
                        do rr <- get (Right Rp);
                        do RR <- deref rr;
                        set (Parent RR) rp);
                 do rp <- get (Var replace);
                 do_ FixHeight rp;
                 (* result = replace *)
                 do rp <- get (Var replace);
                 set (Var result) rp
               else
                 (* result = std::move(root->right) *)
                 do R <- arrow root;
                 do_ move_assign (Var result) (Right R);
                 (* result->parent = root->parent *)
                 do R <- arrow root;
                 do pp <- get (Parent R);
                 do Res <- arrow (Var result);
                 set (Parent Res) pp);
          do rv <- get (Var result);
          do_ FixHeight rv;
          do_ BalanceNode (Var result);
          get (Var result)
        else
          do R <- arrow root;
          do k <- key_of R;
          do_ (if key <? k then
                 (* root->right = Delete(root->right, key) *)
                 do R <- arrow root;
                 do d <- Delete_rec fuel (Right R) key;
                 do R <- arrow root;
                 set (Right R) d
               else
                 (* root->left = Delete(root->left, key) *)
                 do R <- arrow root;
                 do d <- Delete_rec fuel (Left R) key;
                 do R <- arrow root;
                 set (Left R) d);
          do rv <- get root;
          do_ FixHeight rv;
          do_ BalanceNode root;
          get root
  end.

(** ** Structural copy *)

Fixpoint MakeCopy (fuel : nat) (root : option ptr) : M (option ptr) :=
  match fuel with
  | O => fail OutOfFuel
  | S fuel =>
      match root with
      | None => ret None
      | Some root_ptr =>
          do src <- load root_ptr;
          do new_node <- allocate_shared (Node.key src) (Node.value src);
          (* new_node->left = MakeCopy(root_ptr->left) *)
          do l <- get (Left root_ptr);
          do cl <- MakeCopy fuel l;
          do_ set (Left new_node) cl;
          (* new_node->right = MakeCopy(root_ptr->right) *)
          do r <- get (Right root_ptr);
          do cr <- MakeCopy fuel r;
          do_ set (Right new_node) cr;
          do nr <- get (Right new_node);
          do_ when (negb (is_null nr))
                (do nr <- get (Right new_node);
                 do NR <- deref nr;
                 set (Parent NR) (Some new_node));
          do nl <- get (Left new_node);
          do_ when (negb (is_null nl))
                (do nl <- get (Left new_node);
                 do NL <- deref nl;
                 set (Parent NL) (Some new_node));
          (* new_node->height = root_ptr->height *)
          do src <- load root_ptr;
          do n <- load new_node;
          do_ store new_node (Node.set_height (Node.height src) n);
          ret (Some new_node)
      end
  end.

(** ** Extreme nodes *)

Fixpoint GetLeft (fuel : nat) (root : option ptr) : M (option ptr) :=
  match fuel with
  | O => fail OutOfFuel
  | S fuel =>
      match root with
      | None => ret None
      | Some p =>
          do l <- get (Left p);
          if is_null l then ret root
          else do l <- get (Left p); GetLeft fuel l
      end
  end.

Fixpoint GetRight (fuel : nat) (root : option ptr) : M (option ptr) :=
  match fuel with
  | O => fail OutOfFuel
  | S fuel =>
      match root with
      | None => ret None
      | Some p =>
          do r <- get (Right p);
          if is_null r then ret root
          else do r <- get (Right p); GetRight fuel r
      end
  end.

(** ** The public interface of [AVLMap]

    A map object is the variable that holds its [root_] member. *)

Definition AVLMap := nat.

(** [AVLMap()] *)
Definition AVLMap_new : M AVLMap := new_var.

(** [AVLMap(const AVLMap& other)] *)
Definition AVLMap_copy (fuel : nat) (other : AVLMap) : M AVLMap :=
  do this <- new_var;
  do r <- get (Var other);
  do c <- MakeCopy fuel r;
  do_ set (Var this) c;
  ret this.

Definition Insert (fuel : nat) (this : AVLMap) (key : KeyT) (val : ValT)
    : M unit :=
  Insert_rec fuel None (Var this) key val.

Definition Delete (fuel : nat) (this : AVLMap) (key : KeyT) : M unit :=
  do d <- Delete_rec fuel (Var this) key;
  set (Var this) d.

Definition Get (fuel : nat) (this : AVLMap) (key : KeyT) : M ptr :=
  do r <- get (Var this);
  Get_rec fuel r key.

Definition Contains (fuel : nat) (this : AVLMap) (key : KeyT) : M bool :=
  do r <- get (Var this);
  Contains_rec fuel r key.

Definition TreeHeight (this : AVLMap) : M Z :=
  do r <- get (Var this);
  do h <- height r;
  ret (to_size_t h).

(** [operator[]]; [ValT()] is 0 for [int]. *)
Definition operator_index (fuel : nat) (this : AVLMap) (key : KeyT) : M ptr :=
  do c <- Contains fuel this key;
  do_ when (negb c) (Insert fuel this key 0);
  Get fuel this key.

(** ** The cursor *)

Record Iterator := mkIterator {
  node_ : option ptr;
  tree_root_ : option ptr
}.

Definition begin (fuel : nat) (this : AVLMap) : M Iterator :=
  do r <- get (Var this);
  do l <- GetLeft fuel r;
  ret (mkIterator l r).

Definition end_ (this : AVLMap) : M Iterator :=
  do r <- get (Var this);
  ret (mkIterator None r).

Definition ptr_eqb (a b : option ptr) : bool :=
  match a, b with
  | None, None => true
  | Some x, Some y => Nat.eqb x y
  | _, _ => false
  end.

(** [operator==] *)
Definition operator_eq (a b : Iterator) : bool := ptr_eqb (node_ a) (node_ b).

(** [operator*], reduced to the key of the pair it returns *)
Definition operator_star (it : Iterator) : M KeyT :=
  do N <- deref (node_ it);
  key_of N.

Fixpoint NextRight (fuel : nat) (node : option ptr) : M (option ptr) :=
  match fuel with
  | O => fail OutOfFuel
  | S fuel =>
      do N <- deref node;
      do l <- get (Left N);
      if is_null l then ret node
      else do l <- get (Left N); NextRight fuel l
  end.

Fixpoint NextTopPlus (fuel : nat) (this : Iterator) (node : option ptr)
    : M (option ptr) :=
  match fuel with
  | O => fail OutOfFuel
  | S fuel =>
      match node with
      | None => ret None
      | Some p =>
          do k <- key_of p;
          do C <- deref (node_ this);
          do kc <- key_of C;
          if k >? kc then ret node
          else do pp <- get (Parent p); NextTopPlus fuel this pp
      end
  end.

(** [operator++] *)
Definition operator_incr (fuel : nat) (it : Iterator) : M Iterator :=
  match node_ it with
  | None => fail OutOfRange
  | Some p =>
      do r <- get (Right p);
      if negb (is_null r) then
        do r <- get (Right p);
        do n <- NextRight fuel r;
        ret (mkIterator n (tree_root_ it))
      else
        do pp <- get (Parent p);
        do n <- NextTopPlus fuel it pp;
        ret (mkIterator n (tree_root_ it))
  end.

(** ** Traversals

    The forward loop [for (it = begin(); it != end(); ++it)] collecting
    the keys it dereferences. *)
Fixpoint walk (fuel steps : nat) (it last : Iterator) : M (list KeyT) :=
  match steps with
  | O => fail OutOfFuel
  | S steps =>
      if operator_eq it last then ret []
      else
        do k <- operator_star it;
        do it' <- operator_incr fuel it;
        do ks <- walk fuel steps it' last;
        ret (k :: ks)
  end.

Definition forward_keys (fuel : nat) (this : AVLMap) : M (list KeyT) :=
  do b <- begin fuel this;
  do e <- end_ this;
  walk fuel fuel b e.

(** ** Running a program *)

Definition empty_state : state := mkState [] [].

Inductive op := OpInsert (k : KeyT) (v : ValT) | OpDelete (k : KeyT).

Definition run_op (fuel : nat) (this : AVLMap) (o : op) : M unit :=
  match o with
  | OpInsert k v => Insert fuel this k v
  | OpDelete k => Delete fuel this k
  end.

Fixpoint run_ops (fuel : nat) (this : AVLMap) (os : list op) : M unit :=
  match os with
  | [] => ret tt
  | o :: os => do_ run_op fuel this o; run_ops fuel this os
  end.

(** A fresh map on which [os] has been run. *)
Definition build (fuel : nat) (os : list op) : M AVLMap :=
  do m <- AVLMap_new;
  do_ run_ops fuel m os;
  ret m.

Definition inserts (kvs : list (KeyT * ValT)) : list op :=
  map (fun kv => OpInsert (fst kv) (snd kv)) kvs.

(** [eval m] runs [m] from the empty state and keeps its result. *)
Definition eval {A} (m : M A) : result A :=
  match m empty_state with
  | Ok (a, _) => Ok a
  | Err e => Err e
  end.

(** ** Trees, as the specification sees them

    A [tree] is the shape the arena holds under a pointer: every node
    with its identity, key, value and stored height. *)

Inductive tree :=
| Leaf
| T (l : tree) (p : ptr) (k : KeyT) (v : ValT) (h : Z) (r : tree).

Definition root_of (t : tree) : option ptr :=
  match t with
  | Leaf => None
  | T _ p _ _ _ _ => Some p
  end.

(** [tree_at h par t]: the arena [h] holds [t], whose root has parent
    link [par]; the child links of a node are the roots of its subtrees
    and the parent link of each child leads back to the node
    (invariant 4). *)
Fixpoint tree_at (h : list Node) (par : option ptr) (t : tree) : Prop :=
  match t with
  | Leaf => True
  | T l p k v ht r =>
      h !! p = Some (Node.mk k v (root_of l) (root_of r) par ht)
      /\ tree_at h (Some p) l
      /\ tree_at h (Some p) r
  end.

(** The map object [this] holds [t] in state [st]. *)
Definition holds (st : state) (this : AVLMap) (t : tree) : Prop :=
  vars st !! this = Some (root_of t) /\ tree_at (nodes st) None t.

Fixpoint keys (t : tree) : list KeyT :=
  match t with
  | Leaf => []
  | T l _ k _ _ r => keys l ++ k :: keys r
  end.

Fixpoint ptrs (t : tree) : list ptr :=
  match t with
  | Leaf => []
  | T l p _ _ _ r => ptrs l ++ p :: ptrs r
  end.

Fixpoint depth (t : tree) : nat :=
  match t with
  | Leaf => O
  | T l _ _ _ _ r => S (Nat.max (depth l) (depth r))
  end.

Definition stored_height (t : tree) : Z :=
  match t with
  | Leaf => 0
  | T _ _ _ _ h _ => h
  end.

(** Invariant 1: search-tree order. *)
Fixpoint bst (t : tree) : Prop :=
  match t with
  | Leaf => True
  | T l _ k _ _ r =>
      Forall (fun x => x < k) (keys l)
      /\ Forall (fun x => k < x) (keys r)
      /\ bst l /\ bst r
  end.

(** Search order with equal keys allowed on either side: what descent
    by comparison needs, and all that [Insert] keeps when it is given a
    key twice. *)
Fixpoint ordered (t : tree) : Prop :=
  match t with
  | Leaf => True
  | T l _ k _ _ r =>
      Forall (fun x => x <= k) (keys l)
      /\ Forall (fun x => k <= x) (keys r)
      /\ ordered l /\ ordered r
  end.

(** Invariant 2, on the heights the nodes store, which is what
    [BFactor] reads. *)
Fixpoint balanced (t : tree) : Prop :=
  match t with
  | Leaf => True
  | T l _ _ _ _ r =>
      -1 <= stored_height r - stored_height l <= 1
      /\ balanced l /\ balanced r
  end.

(** Invariant 2, on the heights the shape really has. *)
Fixpoint shape_balanced (t : tree) : Prop :=
  match t with
  | Leaf => True
  | T l _ _ _ _ r =>
      -1 <= Z.of_nat (depth r) - Z.of_nat (depth l) <= 1
      /\ shape_balanced l /\ shape_balanced r
  end.

(** Invariant 3: stored heights are the real ones. *)
Fixpoint heights_ok (t : tree) : Prop :=
  match t with
  | Leaf => True
  | T l _ _ _ h r =>
      h = 1 + Z.max (stored_height l) (stored_height r)
      /\ heights_ok l /\ heights_ok r
  end.

(** The five invariants of the data model; back-links are part of
    [tree_at]. *)
Definition invariants (t : tree) : Prop :=
  bst t /\ balanced t /\ heights_ok t /\ NoDup (keys t).

(** Two trees with the same keys, values and stored heights at the same
    places, whatever the identities of their nodes. *)
Fixpoint same_content (t t' : tree) : Prop :=
  match t, t' with
  | Leaf, Leaf => True
  | T l _ k v h r, T l' _ k' v' h' r' =>
      k = k' /\ v = v' /\ h = h' /\ same_content l l' /\ same_content r r'
  | _, _ => False
  end.

(** ** Footprints

    What a mutator may touch.  [own] is the set of nodes of the map
    being mutated together with every node allocated from now on,
    [mine] the variables of the call; [Inv_for] says that everything
    else is as in [st0] and that the owned part is closed under the
    child links.  Parent links are copied around by the mutators but
    never followed, so they are left unconstrained. *)

Definition okp_for (own : ptr -> Prop) (o : option ptr) : Prop :=
  match o with
  | Some p => own p
  | None => True
  end.

Record Inv_for (own : ptr -> Prop) (mine : nat -> Prop) (st0 st : state) : Prop := mkInv {
  inv_frame_nodes : forall p, ~ own p -> nodes st !! p = nodes st0 !! p;
  inv_frame_vars : forall i, ~ mine i -> vars st !! i = vars st0 !! i;
  inv_closed : forall p n, own p -> nodes st !! p = Some n ->
               okp_for own (Node.left n) /\ okp_for own (Node.right n);
  inv_vars : forall i o, mine i -> vars st !! i = Some o -> okp_for own o;
  inv_len_nodes : (length (nodes st0) <= length (nodes st))%nat;
  inv_len_vars : (length (vars st0) <= length (vars st))%nat
}.

Definition slot_ok_for (own : ptr -> Prop) (mine : nat -> Prop) (l : lval) : Prop :=
  match l with
  | Var i => mine i
  | Left p => own p
  | Right p => own p
  | Parent _ => False
  end.

Definition safe_for (own : ptr -> Prop) (mine : nat -> Prop) (st0 : state)
    {A} (m : M A) (Q : A -> Prop) : Prop :=
  forall st, Inv_for own mine st0 st ->
    match m st with
    | Ok (a, st') => Inv_for own mine st0 st' /\ Q a
    | Err _ => True
    end.

Definition any {A} : A -> Prop := fun _ => True.

(** ** What a copy is *)

(** The state after [MakeCopy] of [t]: nothing that existed is modified
    and [t'] is a tree of new nodes with the content of [t]. *)
Definition copy_post (st st' : state) (t t' : tree) : Prop :=
  vars st' = vars st
  /\ (forall q, (q < length (nodes st))%nat -> nodes st' !! q = nodes st !! q)
  /\ tree_at (nodes st') None t'
  /\ same_content t t'
  /\ (forall q, q ∈ ptrs t' -> (length (nodes st) <= q < length (nodes st'))%nat)
  /\ NoDup (ptrs t').

(** Whatever is run on the map [mutated], the map [kept] still holds [t]. *)
Definition unchanged_by_ops (st : state) (mutated kept : AVLMap) (t : tree)
    : Prop :=
  forall fuel os st',
    run_ops fuel mutated os st = Ok (tt, st') -> holds st' kept t.

(** [copy] is a deep copy of [orig], made between [st] and [st']. *)
Definition deep_copy (st st' : state) (orig copy : AVLMap) (t t' : tree)
    : Prop :=
  holds st' orig t
  /\ (forall q, (q < length (nodes st))%nat -> nodes st' !! q = nodes st !! q)
  /\ holds st' copy t'
  /\ same_content t t'
  /\ (forall q, q ∈ ptrs t' -> (length (nodes st) <= q)%nat /\ q ∉ ptrs t)
  /\ unchanged_by_ops st' copy orig t
  /\ unchanged_by_ops st' orig copy t'.

(** ** A small state for the instances

    Map 0 after [Insert(1, 10)], [Insert(0, 5)], [Insert(2, 7)], next to
    an empty map 1. *)
Definition three_nodes : state :=
  mkState
    [Node.mk 1 10 (Some 1%nat) (Some 2%nat) None 2;
     Node.mk 0 5 None None (Some 0%nat) 1;
     Node.mk 2 7 None None (Some 0%nat) 1]
    [Some 0%nat; None].

Definition three_tree : tree :=
  T (T Leaf 1%nat 0 5 1 Leaf) 0%nat 1 10 2 (T Leaf 2%nat 2 7 1 Leaf).

(** ** What the mutators compute

    The functions below are not taken from the specification: each is
    what one function of the source does to the tree under a reference,
    written on [tree]s, and each is tied to the code by a lemma that
    runs the code on an arbitrary arena ([FixHeight_spec],
    [RotateLeft_spec], [RotateRight_spec], [BalanceNode_spec],
    [Insert_rec_spec]). *)

(** [FixHeight]: [node->height = 1 + max(height(left), height(right))],
    with [height] read as [int] and the sum stored as [uint32_t]. *)
Definition fixh (l r : tree) : Z :=
  to_uint32 (1 + Z.max (to_int (stored_height l)) (to_int (stored_height r))).

Definition fix_tree (t : tree) : tree :=
  match t with
  | Leaf => Leaf
  | T l p k v _ r => T l p k v (fixh l r) r
  end.

(** [RotateLeft]: the right child [q] comes up, [FixHeight(p)] runs on
    the lowered node, then [FixHeight(q)] on the lifted one. *)
Definition rotl (t : tree) : option tree :=
  match t with
  | T a p kp vp _ (T b q kq vq _ c) =>
      let p' := T a p kp vp (fixh a b) b in
      Some (T p' q kq vq (fixh p' c) c)
  | _ => None
  end.

(** [RotateRight]: the left child [p] comes up; both calls of
    [FixHeight] reach [p], the first before and the second after [q = p],
    and the lowered node [q] keeps the height [hq] it had. *)
Definition rotr (t : tree) : option tree :=
  match t with
  | T (T a p kp vp _ b) q kq vq hq c =>
      let q' := T b q kq vq hq c in
      Some (T a p kp vp (fixh a q') q')
  | _ => None
  end.

(** [BFactor]: [height(node->right) - height(node->left)] as [int]. *)
Definition bfactor (t : tree) : Z :=
  match t with
  | Leaf => 0
  | T l _ _ _ _ r => to_int (to_int (stored_height r) - to_int (stored_height l))
  end.

(** [BalanceNode]; [None] where a rotation would go through a null
    child. *)
Definition balance (t : tree) : option tree :=
  match t with
  | Leaf => Some Leaf
  | T l p k v h r =>
      if bfactor t =? 2 then
        match (if bfactor r =? -1 then rotr r else Some r) with
        | Some r' => rotl (T l p k v h r')
        | None => None
        end
      else if bfactor t =? -2 then
        match (if bfactor l =? 1 then rotl l else Some l) with
        | Some l' => rotr (T l' p k v h r)
        | None => None
        end
      else Some t
  end.

(** The private [Insert] with [a] the node it allocates: an equal key
    has its value replaced and the descent goes on, to the right. *)
Fixpoint ins (a : ptr) (key : KeyT) (val : ValT) (t : tree) : option tree :=
  match t with
  | Leaf => Some (T Leaf a key val 1 Leaf)
  | T l p k v h r =>
      let v' := if k =? key then val else v in
      match (if k >? key
             then option_map (fun l' => T l' p k v' h r) (ins a key val l)
             else option_map (fun r' => T l p k v' h r') (ins a key val r))
      with
      | Some t1 => balance (fix_tree t1)
      | None => None
      end
  end.

(** The entries of a tree in order: node, key, value. *)
Fixpoint elems (t : tree) : list (ptr * (KeyT * ValT)) :=
  match t with
  | Leaf => []
  | T l p k v _ r => elems l ++ (p, (k, v)) :: elems r
  end.

Definition entry_key (e : ptr * (KeyT * ValT)) : KeyT := fst (snd e).

(** The key-value pairs of a tree, in order. *)
Definition entries (t : tree) : list (KeyT * ValT) := map snd (elems t).

(** The entries after [Insert(key, val)] with new node [a]: rotations
    keep the order of the entries, so this is where the descent puts
    the new one. *)
Fixpoint ins_elems (a : ptr) (key : KeyT) (val : ValT) (t : tree)
    : list (ptr * (KeyT * ValT)) :=
  match t with
  | Leaf => [(a, (key, val))]
  | T l p k v _ r =>
      let v' := if k =? key then val else v in
      if k >? key
      then ins_elems a key val l ++ (p, (k, v')) :: elems r
      else elems l ++ (p, (k, v')) :: ins_elems a key val r
  end.

(** Every stored height lies between [lo] and [hi]: what keeps the
    [uint32_t] and [int] arithmetic of the heights from wrapping. *)
Fixpoint heights_in (lo hi : Z) (t : tree) : Prop :=
  match t with
  | Leaf => True
  | T l _ _ _ h r => lo <= h <= hi /\ heights_in lo hi l /\ heights_in lo hi r
  end.

(** The descent of [Delete]: to the right where the key is smaller than
    the key of the node, to the left where it is greater; [delete_misses]
    says that it comes to a null pointer without having met the key. *)
Fixpoint delete_misses (key : KeyT) (t : tree) : Prop :=
  match t with
  | Leaf => True
  | T l _ k _ _ r =>
      k <> key /\ if key <? k then delete_misses key r else delete_misses key l
  end.

(** The left subtree of the last node in order, which is where
    [GetMaxLeft] stops. *)
Fixpoint max_left (t : tree) : tree :=
  match t with
  | Leaf => Leaf
  | T l _ _ _ _ r =>
      match r with
      | Leaf => l
      | T _ _ _ _ _ _ => max_left r
      end
  end.

(** [GetMaxLeft]: the tree it returns.  The last node in order is taken
    out and its left subtree put in its place; on the way back
    [FixHeight] runs on the right child of every node of the spine. *)
Fixpoint gml (t : tree) : tree :=
  match t with
  | Leaf => Leaf
  | T l q k v h r =>
      match r with
      | Leaf => l
      | T _ _ _ _ _ _ => T l q k v h (fix_tree (gml r))
      end
  end.

(** ** References and frames

    A mutator is handed a reference [s]: a variable, or the child field
    of a node [owner s].  [slot_holds] says what the reference holds,
    [separate] that the node of the field is not in the tree under it,
    and [frame] what a call through the reference leaves as it was:
    every node outside the tree, every field of the owner but the one
    referred to, and every other variable. *)

Definition owner (s : lval) : option ptr :=
  match s with
  | Var _ => None
  | Left p => Some p
  | Right p => Some p
  | Parent p => Some p
  end.

Definition slot_holds (st : state) (s : lval) (par : option ptr) (t : tree) : Prop :=
  get s st = Ok (root_of t, st) /\ tree_at (nodes st) par t.

Definition separate (s : lval) (t : tree) : Prop :=
  NoDup (ptrs t)
  /\ (forall O, owner s = Some O -> O ∉ ptrs t)
  /\ (forall p, s <> Parent p).

Definition slot_only (s : lval) (n n' : Node) : Prop :=
  match s with
  | Left _ => n' = Node.set_left (Node.left n') n
  | Right _ => n' = Node.set_right (Node.right n') n
  | _ => True
  end.

Definition frame (st st' : state) (s : lval) (t : tree) : Prop :=
  (forall q, (q < length (nodes st))%nat -> q ∉ ptrs t -> owner s <> Some q ->
             nodes st' !! q = nodes st !! q)
  /\ (forall O n, owner s = Some O -> nodes st !! O = Some n ->
                  exists n', nodes st' !! O = Some n' /\ slot_only s n n')
  /\ (forall j, s <> Var j -> vars st' !! j = vars st !! j)
  /\ length (vars st') = length (vars st)
  /\ (length (nodes st) <= length (nodes st'))%nat.

(** What a public call on the map [this] leaves as it was. *)
Definition outside (st st' : state) (this : AVLMap) (t : tree) : Prop :=
  (forall q, (q < length (nodes st))%nat -> q ∉ ptrs t ->
             nodes st' !! q = nodes st !! q)
  /\ (forall j, j <> this -> vars st' !! j = vars st !! j)
  /\ length (vars st') = length (vars st).

(** The height [height] reads under a pointer. *)
Definition hgt (h : list Node) (o : option ptr) : Z :=
  match o with
  | None => 0
  | Some p => match h !! p with
              | Some n => to_int (Node.height n)
              | None => 0
              end
  end.

(** A run that returns, in a state that satisfies [Q]. *)
Definition ends {A} (r : result (A * state)) (Q : A -> state -> Prop) : Prop :=
  match r with
  | Ok (a, st) => Q a st
  | Err _ => False
  end.

(** ** Neighbours in order

    The node after a node of a subtree is the next one of the subtree
    or, past its last node, where the climb out of the subtree ends. *)

Definition next_of (qs : list ptr) (nxt : option ptr) : option ptr :=
  match qs with
  | [] => nxt
  | q :: _ => Some q
  end.

(** [NextTopPlus] from [par], for a cursor on any node of [t], returns
    [nxt]; [d] is the number of steps of the climb. *)
Definition exits_up (st : state) (t : tree) (par nxt : option ptr) (d : nat)
    : Prop :=
  forall it c f, node_ it = Some c -> c ∈ ptrs t -> (d <= f)%nat ->
    NextTopPlus f it par st = Ok (nxt, st).

(** ** More small states for the instances

    Keys 1, 2, 3 hanging to the right, as three ascending insertions
    would leave them without the rotation; a root with its left child;
    a single node; the tree of 1, 0, 3, 2, where the last node in order
    has a left child. *)
Definition right_chain : state :=
  mkState
    [Node.mk 1 10 None (Some 1%nat) None 3;
     Node.mk 2 20 None (Some 2%nat) (Some 0%nat) 2;
     Node.mk 3 30 None None (Some 1%nat) 1]
    [Some 0%nat].

Definition right_chain_tree : tree :=
  T Leaf 0%nat 1 10 3 (T Leaf 1%nat 2 20 2 (T Leaf 2%nat 3 30 1 Leaf)).

Definition left_pair : state :=
  mkState
    [Node.mk 1 10 (Some 1%nat) None None 2;
     Node.mk 0 5 None None (Some 0%nat) 1]
    [Some 0%nat].

Definition left_pair_tree : tree :=
  T (T Leaf 1%nat 0 5 1 Leaf) 0%nat 1 10 2 Leaf.

Definition one_node : state :=
  mkState [Node.mk 1 10 None None None 1] [Some 0%nat].

Definition four_nodes : state :=
  mkState
    [Node.mk 1 1 (Some 1%nat) (Some 2%nat) None 3;
     Node.mk 0 0 None None (Some 0%nat) 1;
     Node.mk 3 3 (Some 3%nat) None (Some 0%nat) 2;
     Node.mk 2 2 None None (Some 2%nat) 1]
    [Some 0%nat].

(** * What the code does on concrete maps *)

Ltac run := vm_compute; reflexivity.
Ltac concrete := cbn; repeat split; try reflexivity; try compute_done.

(** The scenario of the specification: six ascending keys need left
    rotations only and give the tree the specification expects. *)
Example ascending_inserts :
  eval (do m <- build 50 (inserts [(0, 0); (1, -1); (2, -101); (3, 10); (4, 10); (5, 30)]);
        do c <- Contains 50 m 3;
        do g <- Get 50 m 3;
        do n <- load g;
        do h <- TreeHeight m;
        do ks <- forward_keys 50 m;
        ret (c, Node.value n, h, ks))
  = Ok (true, 10, 3, [0; 1; 2; 3; 4; 5]).
Proof. run. Qed.

(** C1.  [Delete] on a key smaller than the root's goes into the right
    subtree: on the map built from 0, 1, 2, a tree that satisfies the
    five invariants, [Delete(0)] returns and key 0 is still present. *)
Theorem Delete_descends_to_the_wrong_side :
  exists m st t st',
    build 50 (inserts [(0, 0); (1, 1); (2, 2)]) empty_state = Ok (m, st)
    /\ holds st m t
    /\ invariants t
    /\ keys t = [0; 1; 2]
    /\ Delete 50 m 0 st = Ok (tt, st')
    /\ Contains 50 m 0 st' = Ok (true, st')
    /\ holds st' m t.
Proof.
  exists 0%nat. eexists.
  exists (T (T Leaf 0%nat 0 0 1 Leaf) 1%nat 1 1 2 (T Leaf 2%nat 2 2 1 Leaf)).
  eexists.
  split; [run|]. split; [concrete|]. split; [concrete|].
  split; [reflexivity|]. split; [run|]. split; [run|concrete].
Qed.

(** C2.  [Insert] with a key the map already has overwrites the value
    it finds and then still descends to the right, where it allocates a
    second node for the key. *)
Theorem Insert_equal_key_allocates_again :
  exists m st t,
    build 50 (inserts [(1, 0); (1, 7)]) empty_state = Ok (m, st)
    /\ holds st m t
    /\ t = T Leaf 0%nat 1 7 2 (T Leaf 1%nat 1 7 1 Leaf)
    /\ keys t = [1; 1].
Proof.
  exists 0%nat. eexists. eexists.
  split; [run|]. split; [|split; reflexivity]. concrete.
Qed.

(** C3.  [Delete] hands the node itself, not its left child, to
    [GetMaxLeft].  On the map built from 1, 0 the node of key 1 has the
    left child of key 0, its in-order predecessor; [Delete(1)] splices
    the node of key 1 back into its own place and the map is unchanged. *)
Theorem Delete_splices_the_node_itself :
  exists m st t st',
    build 50 (inserts [(1, 1); (0, 0)]) empty_state = Ok (m, st)
    /\ holds st m t
    /\ invariants t
    /\ t = T (T Leaf 1%nat 0 0 1 Leaf) 0%nat 1 1 2 Leaf
    /\ Delete 50 m 1 st = Ok (tt, st')
    /\ holds st' m t
    /\ Contains 50 m 1 st' = Ok (true, st').
Proof.
  exists 0%nat. eexists. eexists. eexists.
  split; [run|]. split; [|split; [|split; [reflexivity|]]].
  - concrete.
  - concrete.
  - split; [run|]. split; [concrete|run].
Qed.

(** With a right subtree under the deleted node, the node spliced in is
    the maximum of that right subtree, the left subtree (with the
    predecessor) is dropped and the deleted key stays. *)
Lemma Delete_splices_the_maximum :
  exists m st t st' t',
    build 50 (inserts [(1, 1); (0, 0); (3, 3); (2, 2)]) empty_state = Ok (m, st)
    /\ holds st m t
    /\ invariants t
    /\ keys t = [0; 1; 2; 3]
    /\ Delete 50 m 1 st = Ok (tt, st')
    /\ holds st' m t'
    /\ keys t' = [1; 3; 2].
Proof.
  exists 0%nat. eexists.
  exists (T (T Leaf 1%nat 0 0 1 Leaf) 0%nat 1 1 3
            (T (T Leaf 3%nat 2 2 1 Leaf) 2%nat 3 3 2 Leaf)).
  eexists.
  exists (T Leaf 0%nat 1 1 5 (T Leaf 2%nat 3 3 4 (T Leaf 3%nat 2 2 1 Leaf))).
  split; [run|]. split; [concrete|]. split; [concrete|].
  split; [reflexivity|]. split; [run|]. split; [concrete|reflexivity].
Qed.

(** C4.  [RotateRight] recomputes the height of the node that moves up
    twice and never that of the node that moves down.  After inserting
    2, 1, 0 the root stores height 4 over children that store 1 and 3,
    so [BFactor] of the root is 2; after three more descending keys the
    shape itself is out of balance at the root. *)
Theorem RotateRight_breaks_the_balance :
  (exists m st t,
      build 50 (inserts [(2, 2); (1, 1); (0, 0)]) empty_state = Ok (m, st)
      /\ holds st m t
      /\ BFactor (root_of t) st = Ok (2, st)
      /\ ~ balanced t
      /\ ~ heights_ok t)
  /\ (exists m st t,
      build 50 (inserts [(2, 2); (1, 1); (0, 0); (-1, -1); (-2, -2); (-3, -3)])
        empty_state = Ok (m, st)
      /\ holds st m t
      /\ ~ shape_balanced t).
Proof.
  split.
  - exists 0%nat. eexists.
    exists (T (T Leaf 2%nat 0 0 1 Leaf) 1%nat 1 1 4 (T Leaf 0%nat 2 2 3 Leaf)).
    split; [run|]. split; [concrete|]. split; [run|].
    split; cbn; lia.
  - exists 0%nat. eexists.
    exists (T (T (T (T Leaf 5%nat (-3) (-3) 1 Leaf) 4%nat (-2) (-2) 2 Leaf)
                 3%nat (-1) (-1) 4 (T Leaf 2%nat 0 0 3 Leaf))
              1%nat 1 1 5 (T Leaf 0%nat 2 2 3 Leaf)).
    split; [run|]. split; [concrete|].
    cbn; lia.
Qed.

(** C5.  Without a left child [Delete] moves the right child into
    [result] and goes through it at once; on a leaf [result] is null. *)
Theorem Delete_leaf_goes_through_null :
  exists m st t,
    build 50 (inserts [(1, 1)]) empty_state = Ok (m, st)
    /\ holds st m t
    /\ t = T Leaf 0%nat 1 1 1 Leaf
    /\ Delete 50 m 1 st = Err NullDeref.
Proof.
  exists 0%nat. eexists. eexists.
  split; [run|]. split; [|split; [reflexivity|run]]. concrete.
Qed.

(** With a right child and no left child the node is replaced by that
    child, whose parent link becomes the former parent of the node. *)
Lemma Delete_without_left_child :
  exists m st st',
    build 50 (inserts [(1, 1); (2, 2)]) empty_state = Ok (m, st)
    /\ holds st m (T Leaf 0%nat 1 1 2 (T Leaf 1%nat 2 2 1 Leaf))
    /\ Delete 50 m 1 st = Ok (tt, st')
    /\ holds st' m (T Leaf 1%nat 2 2 1 Leaf).
Proof.
  exists 0%nat. eexists. eexists.
  split; [run|]. split; [concrete|]. split; [run|concrete].
Qed.

(** C6.  The second node that [Insert] allocates for an equal key is
    visited by the forward traversal like any other. *)
Theorem forward_traversal_repeats_a_key :
  eval (do m <- build 50 (inserts [(1, 0); (1, 7)]); forward_keys 50 m)
  = Ok [1; 1].
Proof. run. Qed.

(** * Running the primitives symbolically *)

Lemma bind_ok {A B} (m : M A) (k : A -> M B) st a st' :
  m st = Ok (a, st') -> bind m k st = k a st'.
Proof. unfold bind. intros ->. reflexivity. Qed.

Lemma bind_err {A B} (m : M A) (k : A -> M B) st e :
  m st = Err e -> bind m k st = Err e.
Proof. unfold bind. intros ->. reflexivity. Qed.

Lemma load_ok st p n : nodes st !! p = Some n -> load p st = Ok (n, st).
Proof. unfold load. intros ->. reflexivity. Qed.

Lemma key_of_ok st p n :
  nodes st !! p = Some n -> key_of p st = Ok (Node.key n, st).
Proof. intros H. unfold key_of. rewrite (bind_ok _ _ _ _ _ (load_ok _ _ _ H)). reflexivity. Qed.

Lemma get_var_ok st i o : vars st !! i = Some o -> get (Var i) st = Ok (o, st).
Proof. cbn. intros ->. reflexivity. Qed.

Lemma get_left_ok st p n :
  nodes st !! p = Some n -> get (Left p) st = Ok (Node.left n, st).
Proof. intros H. cbn. rewrite (bind_ok _ _ _ _ _ (load_ok _ _ _ H)). reflexivity. Qed.

Lemma get_right_ok st p n :
  nodes st !! p = Some n -> get (Right p) st = Ok (Node.right n, st).
Proof. intros H. cbn. rewrite (bind_ok _ _ _ _ _ (load_ok _ _ _ H)). reflexivity. Qed.

Lemma get_parent_ok st p n :
  nodes st !! p = Some n -> get (Parent p) st = Ok (Node.parent n, st).
Proof. intros H. cbn. rewrite (bind_ok _ _ _ _ _ (load_ok _ _ _ H)). reflexivity. Qed.

Lemma height_root_of st par t :
  tree_at (nodes st) par t ->
  height (root_of t) st = Ok (to_int (stored_height t), st).
Proof.
  destruct t as [|l p k v h r]; cbn [root_of height stored_height tree_at].
  - reflexivity.
  - intros (Hp & _ & _). rewrite (bind_ok _ _ _ _ _ (load_ok _ _ _ Hp)). reflexivity.
Qed.

(** * The empty map *)

(** C10.  A default-constructed map has a null root: [begin()] equals
    [end()], [TreeHeight()] is 0 and [Contains] is false for every key,
    in whatever state the map is constructed. *)
Theorem empty_map_observations (st : state) (fuel : nat) (key : KeyT) :
  exists m st',
    AVLMap_new st = Ok (m, st')
    /\ (do b <- begin (S fuel) m; do e <- end_ m; ret (operator_eq b e)) st'
       = Ok (true, st')
    /\ TreeHeight m st' = Ok (0, st')
    /\ Contains (S fuel) m key st' = Ok (false, st').
Proof.
  eexists. eexists. split; [reflexivity|].
  set (st' := mkState (nodes st) (vars st ++ [None])).
  assert (Hroot : get (Var (length (vars st))) st' = Ok (None, st')).
  { apply get_var_ok. cbn. apply list_lookup_middle. reflexivity. }
  unfold begin, end_, TreeHeight, Contains.
  repeat split.
  - rewrite (bind_ok _ _ _ _ _ (bind_ok _ _ _ _ _ Hroot)). cbn.
    unfold bind at 1. cbn. rewrite (bind_ok _ _ _ _ _ Hroot). reflexivity.
  - rewrite (bind_ok _ _ _ _ _ Hroot). reflexivity.
  - rewrite (bind_ok _ _ _ _ _ Hroot). reflexivity.
Qed.

(** * Lookup on a search tree *)

Lemma bst_ordered t : bst t -> ordered t.
Proof.
  induction t as [|l IHl p k v h r IHr]; [done|].
  cbn [bst ordered]. intros (Hl & Hr & Hbl & Hbr).
  split; [|split; [|auto]].
  - eapply Forall_impl; [exact Hl|]. intros x Hx. cbn in Hx. lia.
  - eapply Forall_impl; [exact Hr|]. intros x Hx. cbn in Hx. lia.
Qed.

Lemma elem_of_keys_node key l k r :
  key ∈ keys l ++ k :: keys r <-> key ∈ keys l \/ key = k \/ key ∈ keys r.
Proof. rewrite elem_of_app, elem_of_cons. tauto. Qed.

Lemma Contains_rec_ordered st par t key fuel :
  tree_at (nodes st) par t -> ordered t -> (depth t < fuel)%nat ->
  Contains_rec fuel (root_of t) key st = Ok (bool_decide (key ∈ keys t), st).
Proof.
  revert par fuel.
  induction t as [|l IHl p k v h r IHr]; intros par fuel Ht Hb Hf;
    (destruct fuel as [|fuel]; [lia|]).
  - cbn. rewrite bool_decide_eq_false_2; [reflexivity|]. apply not_elem_of_nil.
  - cbn [tree_at] in Ht. destruct Ht as (Hp & Hl & Hr).
    cbn [ordered] in Hb. destruct Hb as (Hlt & Hgt & Hbl & Hbr).
    cbn [depth] in Hf.
    rewrite Forall_forall in Hlt, Hgt.
    cbn [root_of Contains_rec keys].
    rewrite (bind_ok _ _ _ _ _ (key_of_ok _ _ _ Hp)). cbn [Node.key].
    destruct (Z.eqb_spec k key) as [->|Hne].
    { rewrite bool_decide_eq_true_2; [reflexivity|].
      apply elem_of_keys_node. auto. }
    rewrite (bind_ok _ _ _ _ _ (key_of_ok _ _ _ Hp)). cbn [Node.key].
    destruct (Z.gtb_spec k key) as [Hgtk|Hlek].
    + rewrite (bind_ok _ _ _ _ _ (get_left_ok _ _ _ Hp)). cbn [Node.left].
      rewrite (IHl (Some p) fuel Hl Hbl) by lia.
      f_equal. f_equal. apply bool_decide_ext.
      rewrite elem_of_keys_node. split; [auto|].
      intros [?|[?|Hin]]; [done|lia|]. apply Hgt in Hin. lia.
    + rewrite (bind_ok _ _ _ _ _ (get_right_ok _ _ _ Hp)). cbn [Node.right].
      rewrite (IHr (Some p) fuel Hr Hbr) by lia.
      f_equal. f_equal. apply bool_decide_ext.
      rewrite elem_of_keys_node. split; [auto|].
      intros [Hin|[?|?]]; [|lia|done]. apply Hlt in Hin. lia.
Qed.

Lemma Get_rec_absent st par t key fuel :
  tree_at (nodes st) par t -> ordered t -> (depth t < fuel)%nat ->
  key ∉ keys t ->
  Get_rec fuel (root_of t) key st = Err NotFound.
Proof.
  revert par fuel.
  induction t as [|l IHl p k v h r IHr]; intros par fuel Ht Hb Hf Hnot;
    (destruct fuel as [|fuel]; [lia|]).
  - reflexivity.
  - cbn [tree_at] in Ht. destruct Ht as (Hp & Hl & Hr).
    cbn [ordered] in Hb. destruct Hb as (Hlt & Hgt & Hbl & Hbr).
    cbn [depth] in Hf. cbn [keys] in Hnot.
    rewrite elem_of_keys_node in Hnot.
    cbn [root_of Get_rec].
    rewrite (bind_ok _ _ _ _ _ (key_of_ok _ _ _ Hp)). cbn [Node.key].
    destruct (Z.eqb_spec k key) as [->|Hne]; [tauto|].
    rewrite (bind_ok _ _ _ _ _ (key_of_ok _ _ _ Hp)). cbn [Node.key].
    destruct (k >? key).
    + rewrite (bind_ok _ _ _ _ _ (get_left_ok _ _ _ Hp)). cbn [Node.left].
      apply (IHl (Some p)); [done|done|lia|tauto].
    + rewrite (bind_ok _ _ _ _ _ (get_right_ok _ _ _ Hp)). cbn [Node.right].
      apply (IHr (Some p)); [done|done|lia|tauto].
Qed.

Lemma Get_rec_present st par t key fuel :
  tree_at (nodes st) par t -> ordered t -> (depth t < fuel)%nat ->
  key ∈ keys t ->
  exists p n,
    Get_rec fuel (root_of t) key st = Ok (p, st)
    /\ p ∈ ptrs t
    /\ nodes st !! p = Some n
    /\ Node.key n = key.
Proof.
  revert par fuel.
  induction t as [|l IHl p k v h r IHr]; intros par fuel Ht Hb Hf Hin;
    (destruct fuel as [|fuel]; [lia|]).
  - cbn in Hin. by apply not_elem_of_nil in Hin.
  - cbn [tree_at] in Ht. destruct Ht as (Hp & Hl & Hr).
    cbn [ordered] in Hb. destruct Hb as (Hlt & Hgt & Hbl & Hbr).
    cbn [depth] in Hf. cbn [keys] in Hin.
    rewrite elem_of_keys_node in Hin.
    rewrite Forall_forall in Hlt, Hgt.
    cbn [root_of Get_rec ptrs].
    rewrite (bind_ok _ _ _ _ _ (key_of_ok _ _ _ Hp)). cbn [Node.key].
    destruct (Z.eqb_spec k key) as [->|Hne].
    { eexists p, _. split; [reflexivity|]. split; [|split; [exact Hp|reflexivity]].
      apply elem_of_app. right. apply elem_of_cons. by left. }
    rewrite (bind_ok _ _ _ _ _ (key_of_ok _ _ _ Hp)). cbn [Node.key].
    destruct (Z.gtb_spec k key) as [Hgtk|Hlek].
    + rewrite (bind_ok _ _ _ _ _ (get_left_ok _ _ _ Hp)). cbn [Node.left].
      destruct (IHl (Some p) fuel Hl Hbl) as (q & n & Hq & Hql & Hqn & Hqk); [lia| |].
      { destruct Hin as [?|[?|Hin]]; [done|lia|]. apply Hgt in Hin. lia. }
      exists q, n. split; [done|]. split; [|done].
      apply elem_of_app. by left.
    + rewrite (bind_ok _ _ _ _ _ (get_right_ok _ _ _ Hp)). cbn [Node.right].
      destruct (IHr (Some p) fuel Hr Hbr) as (q & n & Hq & Hqr & Hqn & Hqk); [lia| |].
      { destruct Hin as [Hin|[?|?]]; [|lia|done]. apply Hlt in Hin. lia. }
      exists q, n. split; [done|]. split; [|done].
      apply elem_of_app. right. apply elem_of_cons. by right.
Qed.

(** [Contains] has no [throw] on any path: whatever the state, it never
    ends in one of the two exceptions of the program. *)
Lemma Contains_rec_never_throws fuel node key st :
  Contains_rec fuel node key st <> Err NotFound
  /\ Contains_rec fuel node key st <> Err OutOfRange.
Proof.
  revert node st. induction fuel as [|fuel IH]; intros node st; [done|].
  destruct node as [p|]; [|done].
  cbn [Contains_rec].
  destruct (nodes st !! p) as [n|] eqn:Hp.
  - rewrite (bind_ok _ _ _ _ _ (key_of_ok _ _ _ Hp)).
    destruct (Node.key n =? key); [done|].
    rewrite (bind_ok _ _ _ _ _ (key_of_ok _ _ _ Hp)).
    destruct (Node.key n >? key).
    + rewrite (bind_ok _ _ _ _ _ (get_left_ok _ _ _ Hp)). apply IH.
    + rewrite (bind_ok _ _ _ _ _ (get_right_ok _ _ _ Hp)). apply IH.
  - rewrite (bind_err _ _ _ NullDeref); [done|].
    unfold key_of, bind, load. by rewrite Hp.
Qed.

(** C8.  On a map that holds a tree in search order (the strict order
    of invariant 1, by [bst_ordered], or the order with repeated keys
    that [Insert] leaves), [Contains] returns whether the key is among
    the keys of the tree and raises nothing; [Get] raises [NotFound]
    exactly when the key is absent and otherwise returns the value
    field of a node of the tree with that key.  Neither changes the
    state. *)
Theorem Get_and_Contains_on_a_search_tree st this t key fuel :
  holds st this t -> ordered t -> (depth t < fuel)%nat ->
  Contains fuel this key st = Ok (bool_decide (key ∈ keys t), st)
  /\ (Get fuel this key st = Err NotFound <-> key ∉ keys t)
  /\ (key ∈ keys t ->
      exists p n,
        Get fuel this key st = Ok (p, st)
        /\ p ∈ ptrs t
        /\ nodes st !! p = Some n
        /\ Node.key n = key).
Proof.
  intros [Hv Ht] Hb Hf. unfold Contains, Get.
  rewrite !(bind_ok _ _ _ _ _ (get_var_ok _ _ _ Hv)).
  split; [|split].
  - eapply Contains_rec_ordered; eassumption.
  - split.
    + intros Hget Hin.
      destruct (Get_rec_present _ _ _ _ _ Ht Hb Hf Hin) as (p & n & Hp & _).
      congruence.
    + eapply Get_rec_absent; eassumption.
  - eapply Get_rec_present; eassumption.
Qed.

Example three_nodes_built :
  (do m <- build 50 (inserts [(1, 10); (0, 5); (2, 7)]);
   do m' <- AVLMap_new;
   ret (m, m')) empty_state
  = Ok ((0%nat, 1%nat), three_nodes).
Proof. run. Qed.

Lemma Get_and_Contains_on_three_nodes :
  Contains 3 0%nat 2 three_nodes
  = Ok (bool_decide (2 ∈ keys three_tree), three_nodes)
  /\ (Get 3 0%nat 2 three_nodes = Err NotFound <-> 2 ∉ keys three_tree)
  /\ (2 ∈ keys three_tree ->
      exists p n,
        Get 3 0%nat 2 three_nodes = Ok (p, three_nodes)
        /\ p ∈ ptrs three_tree
        /\ nodes three_nodes !! p = Some n
        /\ Node.key n = 2).
Proof.
  apply (Get_and_Contains_on_a_search_tree three_nodes 0%nat three_tree 2 3).
  - repeat split; reflexivity.
  - cbn. repeat split; repeat constructor; lia.
  - cbn. lia.
Defined.

(** * Footprint of the mutators *)

Section Footprint.
Variable own : ptr -> Prop.
Variable mine : nat -> Prop.
Variable st0 : state.
Hypothesis own_fresh : forall p, (length (nodes st0) <= p)%nat -> own p.
Hypothesis mine_fresh : forall i, (length (vars st0) <= i)%nat -> mine i.

Local Abbreviation safe := (safe_for own mine st0).
Local Abbreviation okp := (okp_for own).
Local Abbreviation slot_ok := (slot_ok_for own mine).
Local Abbreviation Inv := (Inv_for own mine st0).

Lemma safe_ret {A} (a : A) (Q : A -> Prop) : Q a -> safe (ret a) Q.
Proof. intros HQ st HI. cbn. auto. Qed.

Lemma safe_fail {A} e (Q : A -> Prop) : safe (fail e) Q.
Proof. intros st HI. exact I. Qed.

Lemma safe_bind {A B} (m : M A) (k : A -> M B) (Q : A -> Prop) (R : B -> Prop) :
  safe m Q -> (forall a, Q a -> safe (k a) R) -> safe (bind m k) R.
Proof.
  intros Hm Hk st HI. unfold bind. specialize (Hm st HI).
  destruct (m st) as [[a st']|]; [|exact I].
  destruct Hm as [HI' HQ]. apply Hk; assumption.
Qed.

Lemma safe_weaken {A} (m : M A) (Q Q' : A -> Prop) :
  safe m Q -> (forall a, Q a -> Q' a) -> safe m Q'.
Proof.
  intros Hm HQ st HI. specialize (Hm st HI).
  destruct (m st) as [[a st']|]; [|exact I]. destruct Hm. auto.
Qed.

Lemma safe_load p :
  own p -> safe (load p) (fun n => okp (Node.left n) /\ okp (Node.right n)).
Proof.
  intros Hp st HI. unfold load.
  destruct (nodes st !! p) as [n|] eqn:Hn; [|exact I].
  split; [assumption|]. eapply inv_closed; eassumption.
Qed.

Lemma safe_store p n :
  own p -> okp (Node.left n) -> okp (Node.right n) -> safe (store p n) any.
Proof.
  intros Hp Hl Hr st HI. unfold store.
  destruct (nodes st !! p) as [n0|] eqn:Hn; [|exact I].
  split; [|exact I]. destruct HI as [H1 H2 H3 H4 H5 H6].
  constructor; cbn.
  - intros q Hq. rewrite list_lookup_insert_ne; [auto|]. intros ->. auto.
  - assumption.
  - intros q n' Hq Hlook. destruct (decide (p = q)) as [->|Hne].
    + rewrite list_lookup_insert_eq in Hlook by (eapply lookup_lt_Some; eassumption).
      injection Hlook as <-. auto.
    + rewrite list_lookup_insert_ne in Hlook by assumption. eauto.
  - assumption.
  - rewrite length_insert. assumption.
  - assumption.
Qed.

Lemma safe_allocate_shared k v : safe (allocate_shared k v) own.
Proof.
  intros st HI. unfold allocate_shared. destruct HI as [H1 H2 H3 H4 H5 H6].
  split; [|auto]. constructor; cbn.
  - intros q Hq. rewrite lookup_app_l; [auto|].
    destruct (decide (q < length (nodes st))%nat); [assumption|].
    exfalso. apply Hq, own_fresh. lia.
  - assumption.
  - intros q n Hq Hlook. apply lookup_app_Some in Hlook as [Hlook|[_ Hlook]]; [eauto|].
    apply list_lookup_singleton_Some in Hlook as [_ <-]. cbn. auto.
  - assumption.
  - rewrite length_app. lia.
  - assumption.
Qed.

Lemma safe_new_var : safe new_var mine.
Proof.
  intros st HI. unfold new_var. destruct HI as [H1 H2 H3 H4 H5 H6].
  split; [|auto]. constructor; cbn.
  - assumption.
  - intros i Hi. rewrite lookup_app_l; [auto|].
    destruct (decide (i < length (vars st))%nat); [assumption|].
    exfalso. apply Hi, mine_fresh. lia.
  - assumption.
  - intros i o Hi Hlook. apply lookup_app_Some in Hlook as [Hlook|[_ Hlook]]; [eauto|].
    apply list_lookup_singleton_Some in Hlook as [_ <-]. exact I.
  - assumption.
  - rewrite length_app. lia.
Qed.

Lemma safe_get s : slot_ok s -> safe (get s) okp.
Proof.
  destruct s as [i|p|p|p]; cbn [slot_ok_for get]; intros Hs.
  - intros st HI. destruct (vars st !! i) as [o|] eqn:Hi; [|exact I].
    split; [assumption|]. eapply inv_vars; eassumption.
  - eapply safe_bind; [apply safe_load; assumption|].
    intros n [Hl Hr]. apply safe_ret. assumption.
  - eapply safe_bind; [apply safe_load; assumption|].
    intros n [Hl Hr]. apply safe_ret. assumption.
  - contradiction.
Qed.

Lemma safe_set s v : slot_ok s -> okp v -> safe (set s v) any.
Proof.
  destruct s as [i|p|p|p]; cbn [slot_ok_for set]; intros Hs Hv.
  - intros st HI. destruct (vars st !! i) as [o|] eqn:Hi; [|exact I].
    split; [|exact I]. destruct HI as [H1 H2 H3 H4 H5 H6].
    constructor; cbn; try assumption.
    + intros j Hj. rewrite list_lookup_insert_ne; [auto|]. intros ->. auto.
    + intros j o' Hj Hlook. destruct (decide (i = j)) as [->|Hne].
      * rewrite list_lookup_insert_eq in Hlook by (eapply lookup_lt_Some; eassumption).
        injection Hlook as <-. assumption.
      * rewrite list_lookup_insert_ne in Hlook by assumption. eauto.
    + rewrite length_insert. assumption.
  - eapply safe_bind; [apply safe_load; assumption|].
    intros n [Hl Hr]. apply safe_store; assumption.
  - eapply safe_bind; [apply safe_load; assumption|].
    intros n [Hl Hr]. apply safe_store; assumption.
  - contradiction.
Qed.

Lemma safe_get_parent p : own p -> safe (get (Parent p)) any.
Proof.
  intros Hp. cbn [get]. eapply safe_bind; [apply safe_load; assumption|].
  intros n _. apply safe_ret. exact I.
Qed.

Lemma safe_set_parent p v : own p -> safe (set (Parent p) v) any.
Proof.
  intros Hp. cbn [set]. eapply safe_bind; [apply safe_load; assumption|].
  intros n [Hl Hr]. apply safe_store; assumption.
Qed.

Lemma safe_deref o : okp o -> safe (deref o) own.
Proof.
  destruct o as [p|]; cbn; intros Ho; [apply safe_ret; assumption|apply safe_fail].
Qed.

Lemma safe_arrow s : slot_ok s -> safe (arrow s) own.
Proof.
  intros Hs. unfold arrow. eapply safe_bind; [apply safe_get; assumption|].
  intros o Ho. apply safe_deref. assumption.
Qed.

Lemma safe_move_assign dst src :
  slot_ok dst -> slot_ok src -> safe (move_assign dst src) any.
Proof.
  intros Hd Hs. unfold move_assign.
  eapply safe_bind; [apply safe_get; assumption|]. intros v Hv.
  eapply safe_bind; [apply safe_set; [assumption|exact I]|]. intros _ _.
  apply safe_set; assumption.
Qed.

Lemma safe_move_assign_parent p q :
  own p -> own q -> safe (move_assign (Parent p) (Parent q)) any.
Proof.
  intros Hp Hq. unfold move_assign.
  eapply safe_bind; [apply safe_get_parent; assumption|]. intros v _.
  eapply safe_bind; [apply safe_set_parent; assumption|]. intros _ _.
  apply safe_set_parent; assumption.
Qed.

Lemma safe_key_of p : own p -> safe (key_of p) any.
Proof.
  intros Hp. unfold key_of. eapply safe_bind; [apply safe_load; assumption|].
  intros n _. apply safe_ret. exact I.
Qed.

Lemma safe_set_value p v : own p -> safe (set_value p v) any.
Proof.
  intros Hp. unfold set_value. eapply safe_bind; [apply safe_load; assumption|].
  intros n [Hl Hr]. apply safe_store; assumption.
Qed.

Lemma safe_height o : okp o -> safe (height o) any.
Proof.
  destruct o as [p|]; cbn; intros Ho; [|apply safe_ret; exact I].
  eapply safe_bind; [apply safe_load; assumption|].
  intros n _. apply safe_ret. exact I.
Qed.

(** One step through a computation: the next primitive, with the facts
    about the pointers met so far taken from the context. *)
Ltac side :=
  cbn [slot_ok_for okp_for is_null negb Node.left Node.right
       Node.set_value Node.set_left Node.set_right Node.set_parent
       Node.set_height] in *;
  solve [assumption | exact I | tauto].

Ltac safe_prim :=
  first
    [ apply safe_ret; side
    | apply safe_fail
    | apply safe_get_parent; side
    | apply safe_set_parent; side
    | apply safe_get; side
    | apply safe_set; side
    | apply safe_deref; side
    | apply safe_arrow; side
    | apply safe_move_assign_parent; side
    | apply safe_move_assign; side
    | apply safe_key_of; side
    | apply safe_set_value; side
    | apply safe_height; side
    | apply safe_load; side
    | apply safe_store; side
    | apply safe_allocate_shared
    | apply safe_new_var ].

Ltac safe_step tac :=
  lazymatch goal with
  | |- safe_for _ _ _ (bind _ _) _ => eapply safe_bind; [|intros ? ?]
  | |- safe_for _ _ _ (when ?b _) _ => unfold when
  | |- safe_for _ _ _ (if ?b then _ else _) _ => destruct b eqn:?
  | |- safe_for _ _ _ _ _ => first [safe_prim | tac]
  end.

Ltac safe_run tac := repeat (safe_step tac).

Lemma safe_BFactor o : okp o -> safe (BFactor o) any.
Proof.
  destruct o as [p|]; cbn [BFactor okp_for]; intros Ho.
  - safe_run ltac:(fail).
  - safe_run ltac:(fail).
Qed.

Lemma safe_FixHeight o : okp o -> safe (FixHeight o) any.
Proof.
  destruct o as [p|]; cbn [FixHeight okp_for]; intros Ho.
  - safe_run ltac:(fail).
  - safe_run ltac:(fail).
Qed.

Ltac safe_fun :=
  first
    [ apply safe_BFactor; side
    | apply safe_FixHeight; side ].

Lemma safe_RotateLeft p : slot_ok p -> safe (RotateLeft p) any.
Proof. intros Hp. unfold RotateLeft. safe_run safe_fun. Qed.

Lemma safe_RotateRight q : slot_ok q -> safe (RotateRight q) any.
Proof. intros Hq. unfold RotateRight. safe_run safe_fun. Qed.

Lemma safe_BalanceNode node : slot_ok node -> safe (BalanceNode node) any.
Proof.
  intros Hn. unfold BalanceNode.
  safe_run ltac:(first [safe_fun
                       | apply safe_RotateLeft; side
                       | apply safe_RotateRight; side]).
Qed.

Ltac safe_known :=
  first
    [ safe_fun
    | apply safe_RotateLeft; side
    | apply safe_RotateRight; side
    | apply safe_BalanceNode; side ].

Lemma safe_Insert_rec fuel parent node key val :
  slot_ok node -> safe (Insert_rec fuel parent node key val) any.
Proof.
  revert parent node.
  induction fuel as [|fuel IH]; intros parent node Hn; cbn [Insert_rec].
  - apply safe_fail.
  - safe_run ltac:(first [safe_known | apply IH; side]).
Qed.

Lemma safe_GetMaxLeft fuel node result :
  okp node -> slot_ok result -> safe (GetMaxLeft fuel node result) okp.
Proof.
  revert node.
  induction fuel as [|fuel IH]; intros node Hn Hr; cbn [GetMaxLeft].
  - apply safe_fail.
  - safe_run ltac:(first [safe_known | apply IH; side]).
Qed.

Lemma safe_Delete_rec fuel root key :
  slot_ok root -> safe (Delete_rec fuel root key) okp.
Proof.
  revert root.
  induction fuel as [|fuel IH]; intros root Hr; cbn [Delete_rec].
  - apply safe_fail.
  - safe_run ltac:(first [safe_known
                         | apply safe_GetMaxLeft; side
                         | apply IH; side]).
Qed.

Lemma safe_run_op fuel this o : mine this -> safe (run_op fuel this o) any.
Proof.
  intros Hm. destruct o as [k v|k]; cbn [run_op]; unfold Insert, Delete.
  - apply safe_Insert_rec. assumption.
  - safe_run ltac:(apply safe_Delete_rec; side).
Qed.

Lemma safe_run_ops fuel this os : mine this -> safe (run_ops fuel this os) any.
Proof.
  intros Hm. induction os as [|o os IH]; cbn [run_ops].
  - apply safe_ret. exact I.
  - eapply safe_bind; [apply safe_run_op; assumption|]. intros _ _. exact IH.
Qed.

End Footprint.
(** * The structural copy *)

Lemma store_ok st p n0 n :
  nodes st !! p = Some n0 ->
  store p n st = Ok (tt, mkState (<[p:=n]> (nodes st)) (vars st)).
Proof. unfold store. intros ->. reflexivity. Qed.

Lemma set_left_ok st p n v :
  nodes st !! p = Some n ->
  set (Left p) v st
  = Ok (tt, mkState (<[p:=Node.set_left v n]> (nodes st)) (vars st)).
Proof.
  intros H. cbn [set]. rewrite (bind_ok _ _ _ _ _ (load_ok _ _ _ H)).
  apply (store_ok _ _ _ _ H).
Qed.

Lemma set_right_ok st p n v :
  nodes st !! p = Some n ->
  set (Right p) v st
  = Ok (tt, mkState (<[p:=Node.set_right v n]> (nodes st)) (vars st)).
Proof.
  intros H. cbn [set]. rewrite (bind_ok _ _ _ _ _ (load_ok _ _ _ H)).
  apply (store_ok _ _ _ _ H).
Qed.

Lemma set_parent_ok st p n v :
  nodes st !! p = Some n ->
  set (Parent p) v st
  = Ok (tt, mkState (<[p:=Node.set_parent v n]> (nodes st)) (vars st)).
Proof.
  intros H. cbn [set]. rewrite (bind_ok _ _ _ _ _ (load_ok _ _ _ H)).
  apply (store_ok _ _ _ _ H).
Qed.

Lemma root_of_ptrs t p : root_of t = Some p -> p ∈ ptrs t.
Proof.
  destruct t as [|l q k v h r]; cbn; [done|]. intros [= ->].
  apply elem_of_app. right. apply elem_of_cons. by left.
Qed.

Lemma elem_of_ptrs_node q l p r :
  q ∈ ptrs l ++ p :: ptrs r <-> q ∈ ptrs l \/ q = p \/ q ∈ ptrs r.
Proof. rewrite elem_of_app, elem_of_cons. tauto. Qed.

Lemma tree_at_ext h h' par t :
  (forall q, q ∈ ptrs t -> h' !! q = h !! q) ->
  tree_at h par t -> tree_at h' par t.
Proof.
  revert par. induction t as [|l IHl p k v ht r IHr]; intros par Hext; [done|].
  cbn [tree_at ptrs] in *. intros (Hp & Hl & Hr).
  split; [|split].
  - rewrite Hext; [done|]. apply elem_of_ptrs_node. auto.
  - apply IHl; [|done]. intros q Hq. apply Hext, elem_of_ptrs_node. auto.
  - apply IHr; [|done]. intros q Hq. apply Hext, elem_of_ptrs_node. auto.
Qed.

Lemma tree_at_lt h par t q :
  tree_at h par t -> q ∈ ptrs t -> (q < length h)%nat.
Proof.
  revert par. induction t as [|l IHl p k v ht r IHr]; intros par; cbn [tree_at ptrs].
  - intros _ Hq. by apply not_elem_of_nil in Hq.
  - intros (Hp & Hl & Hr) Hq. apply elem_of_ptrs_node in Hq as [Hq|[->|Hq]].
    + eapply IHl; eassumption.
    + eapply lookup_lt_Some; eassumption.
    + eapply IHr; eassumption.
Qed.

(** Pointing the root of [t] back at a new parent. *)
Lemma tree_at_reparent h par par' t c n :
  tree_at h par t -> NoDup (ptrs t) ->
  root_of t = Some c -> h !! c = Some n ->
  tree_at (<[c:=Node.set_parent par' n]> h) par' t.
Proof.
  destruct t as [|l p k v ht r]; [done|].
  cbn [tree_at ptrs root_of]. intros (Hp & Hl & Hr) Hnd [= ->] Hn.
  rewrite Hp in Hn. injection Hn as <-.
  apply NoDup_app in Hnd as (_ & Hlp & Hnd).
  apply NoDup_cons in Hnd as (Hpr & _).
  split; [|split].
  - rewrite list_lookup_insert_eq by (eapply lookup_lt_Some; eassumption). reflexivity.
  - eapply tree_at_ext; [|exact Hl].
    intros q Hq. apply list_lookup_insert_ne. intros ->.
    apply (Hlp q Hq). apply elem_of_cons. by left.
  - eapply tree_at_ext; [|exact Hr].
    intros q Hq. apply list_lookup_insert_ne. intros ->. done.
Qed.

(** The two [if (child != nullptr) child->parent = new_node] of
    [MakeCopy], run on a slot that holds the root of [t]. *)
Lemma reparent_step st (slot : lval) t a :
  get slot st = Ok (root_of t, st) ->
  tree_at (nodes st) None t -> NoDup (ptrs t) ->
  exists st',
    when (negb (is_null (root_of t)))
      (do c <- get slot; do C <- deref c; set (Parent C) (Some a)) st
    = Ok (tt, st')
    /\ vars st' = vars st
    /\ length (nodes st') = length (nodes st)
    /\ (forall q, q ∉ ptrs t -> nodes st' !! q = nodes st !! q)
    /\ tree_at (nodes st') (Some a) t.
Proof.
  intros Hget Ht Hnd. destruct (root_of t) as [c|] eqn:Hroot; cbn [is_null negb when].
  - assert (Hc : exists n, nodes st !! c = Some n).
    { destruct t as [|l p k v ht r]; [done|]. cbn in Hroot. injection Hroot as ->.
      cbn in Ht. destruct Ht as (Hp & _). eauto. }
    destruct Hc as [n Hn].
    eexists. split; [|split; [|split; [|split]]].
    + rewrite (bind_ok _ _ _ _ _ Hget). cbn [deref].
      rewrite (bind_ok _ _ _ _ _ (eq_refl : ret c st = Ok (c, st))).
      apply (set_parent_ok _ _ _ _ Hn).
    + reflexivity.
    + cbn. apply length_insert.
    + cbn. intros q Hq. apply list_lookup_insert_ne. intros ->.
      apply Hq, root_of_ptrs, Hroot.
    + cbn. eapply tree_at_reparent; eassumption.
  - exists st. split; [reflexivity|]. repeat split; try done.
    destruct t; [done|discriminate].
Qed.

Lemma MakeCopy_spec t :
  forall st par fuel,
    tree_at (nodes st) par t -> (depth t < fuel)%nat ->
    exists st' t',
      MakeCopy fuel (root_of t) st = Ok (root_of t', st')
      /\ copy_post st st' t t'.
Proof.
  induction t as [|l IHl p k v ht r IHr]; intros st par fuel Ht Hf;
    (destruct fuel as [|fuel]; [lia|]).
  - exists st, Leaf. split; [reflexivity|].
    split; [done|]. split; [done|]. split; [done|]. split; [done|].
    split; [|apply NoDup_nil_2].
    intros q Hq. by apply not_elem_of_nil in Hq.
  - pose proof Ht as Htree.
    cbn [tree_at] in Ht. destruct Ht as (Hp & Hl & Hr). cbn [depth] in Hf.
    set (h := nodes st) in *. set (a := length h).
    assert (Hpa : (p < a)%nat) by (eapply lookup_lt_Some; eassumption).
    assert (Hla : forall q, q ∈ ptrs l -> (q < a)%nat)
      by (intros q; eapply tree_at_lt; eassumption).
    assert (Hra : forall q, q ∈ ptrs r -> (q < a)%nat)
      by (intros q; eapply tree_at_lt; eassumption).
    cbn [root_of MakeCopy].
    (* the new node *)
    rewrite (bind_ok _ _ _ _ _ (load_ok _ _ _ Hp)). cbn [Node.key Node.value].
    set (N0 := Node.mk k v None None None 1).
    set (st1 := mkState (h ++ [N0]) (vars st)).
    rewrite (bind_ok _ _ _ _ _ (eq_refl : allocate_shared k v st = Ok (a, st1))).
    assert (H1 : forall q, (q < a)%nat -> nodes st1 !! q = h !! q).
    { intros q Hq. cbn. by apply lookup_app_l. }
    assert (H1a : nodes st1 !! a = Some N0).
    { cbn. by apply list_lookup_middle. }
    assert (Hlen1 : length (nodes st1) = S a).
    { cbn. rewrite length_app. cbn. fold a. lia. }
    (* the copy of the left subtree *)
    assert (Hp1 : nodes st1 !! p = Some (Node.mk k v (root_of l) (root_of r) par ht)).
    { rewrite H1; done. }
    rewrite (bind_ok _ _ _ _ _ (get_left_ok _ _ _ Hp1)). cbn [Node.left].
    destruct (IHl st1 (Some p) fuel) as (st2 & l' & Hrun2 & Hv2 & H2 & Hl' & Hcl & Hrg2 & Hnd2).
    { eapply tree_at_ext; [|exact Hl]. intros q Hq. apply H1. auto. }
    { lia. }
    rewrite (bind_ok _ _ _ _ _ Hrun2).
    rewrite Hlen1 in H2, Hrg2.
    assert (H2a : nodes st2 !! a = Some N0) by (rewrite H2; [done|lia]).
    assert (Hlen2 : (S a <= length (nodes st2))%nat).
    { apply lookup_lt_Some in H2a. lia. }
    rewrite (bind_ok _ _ _ _ _ (set_left_ok _ _ _ _ H2a)).
    cbn [Node.set_left N0 Node.key Node.value Node.left Node.right Node.parent Node.height].
    set (N1 := Node.mk k v (root_of l') None None 1).
    set (st3 := mkState (<[a:=N1]> (nodes st2)) (vars st2)).
    assert (H3 : forall q, q <> a -> nodes st3 !! q = nodes st2 !! q).
    { intros q Hq. cbn. by apply list_lookup_insert_ne. }
    assert (H3a : nodes st3 !! a = Some N1).
    { cbn. apply list_lookup_insert_eq. lia. }
    assert (Hlen3 : length (nodes st3) = length (nodes st2)).
    { cbn. apply length_insert. }
    (* the copy of the right subtree *)
    assert (Hp3 : nodes st3 !! p = Some (Node.mk k v (root_of l) (root_of r) par ht)).
    { rewrite H3, H2, H1 by lia. done. }
    rewrite (bind_ok _ _ _ _ _ (get_right_ok _ _ _ Hp3)). cbn [Node.right].
    destruct (IHr st3 (Some p) fuel) as (st4 & r' & Hrun4 & Hv4 & H4 & Hr' & Hcr & Hrg4 & Hnd4).
    { eapply tree_at_ext; [|exact Hr]. intros q Hq. specialize (Hra q Hq).
      rewrite H3, H2, H1 by lia. done. }
    { lia. }
    rewrite (bind_ok _ _ _ _ _ Hrun4).
    rewrite Hlen3 in H4, Hrg4.
    assert (H4a : nodes st4 !! a = Some N1) by (rewrite H4; [done|lia]).
    assert (Hlen4 : (length (nodes st2) <= length (nodes st4))%nat).
    { destruct (decide (length (nodes st2) <= length (nodes st4))%nat); [done|].
      exfalso. assert (Hlast : is_Some (nodes st3 !! (length (nodes st2) - 1)%nat)).
      { apply lookup_lt_is_Some. lia. }
      rewrite <- H4 in Hlast by lia. apply lookup_lt_is_Some in Hlast. lia. }
    rewrite (bind_ok _ _ _ _ _ (set_right_ok _ _ _ _ H4a)).
    cbn [Node.set_right N1 Node.key Node.value Node.left Node.right Node.parent Node.height].
    set (N2 := Node.mk k v (root_of l') (root_of r') None 1).
    set (st5 := mkState (<[a:=N2]> (nodes st4)) (vars st4)).
    assert (H5 : forall q, q <> a -> nodes st5 !! q = nodes st4 !! q).
    { intros q Hq. cbn. by apply list_lookup_insert_ne. }
    assert (H5a : nodes st5 !! a = Some N2).
    { cbn. apply list_lookup_insert_eq. lia. }
    assert (Hlen5 : length (nodes st5) = length (nodes st4)).
    { cbn. apply length_insert. }
    (* the back-link of the right copy *)
    rewrite (bind_ok _ _ _ _ _ (get_right_ok _ _ _ H5a)). cbn [Node.right N2].
    destruct (reparent_step st5 (Right a) r' a)
      as (st6 & Hrun6 & Hv6 & Hlen6 & H6 & Hr6).
    { rewrite (get_right_ok _ _ _ H5a). reflexivity. }
    { eapply tree_at_ext; [|exact Hr']. intros q Hq. apply H5.
      specialize (Hrg4 q Hq). lia. }
    { exact Hnd4. }
    rewrite (bind_ok _ _ _ _ _ Hrun6).
    assert (H6a : nodes st6 !! a = Some N2).
    { rewrite H6; [done|]. intros Hq. specialize (Hrg4 a Hq). lia. }
    (* the back-link of the left copy *)
    rewrite (bind_ok _ _ _ _ _ (get_left_ok _ _ _ H6a)). cbn [Node.left N2].
    destruct (reparent_step st6 (Left a) l' a)
      as (st7 & Hrun7 & Hv7 & Hlen7 & H7 & Hl7).
    { rewrite (get_left_ok _ _ _ H6a). reflexivity. }
    { eapply tree_at_ext; [|exact Hl']. intros q Hq. specialize (Hrg2 q Hq).
      rewrite H6, H5, H4, H3 by first [lia | intros Hq'; specialize (Hrg4 q Hq'); lia].
      done. }
    { exact Hnd2. }
    rewrite (bind_ok _ _ _ _ _ Hrun7).
    assert (H7a : nodes st7 !! a = Some N2).
    { rewrite H7; [done|]. intros Hq. specialize (Hrg2 a Hq). lia. }
    (* the height *)
    assert (Hp7 : nodes st7 !! p = Some (Node.mk k v (root_of l) (root_of r) par ht)).
    { rewrite H7, H6, H5, H4, H3, H2, H1
        by first [lia | intros Hq'; first [specialize (Hrg4 p Hq') | specialize (Hrg2 p Hq')]; lia].
      done. }
    rewrite (bind_ok _ _ _ _ _ (load_ok _ _ _ Hp7)).
    rewrite (bind_ok _ _ _ _ _ (load_ok _ _ _ H7a)).
    rewrite (bind_ok _ _ _ _ _ (store_ok _ _ _ _ H7a)).
    cbn [Node.set_height N2 Node.key Node.value Node.left Node.right Node.parent Node.height].
    set (N3 := Node.mk k v (root_of l') (root_of r') None ht).
    set (st8 := mkState (<[a:=N3]> (nodes st7)) (vars st7)).
    exists st8, (T l' a k v ht r'). split; [reflexivity|].
    assert (Hlen8 : length (nodes st8) = length (nodes st4)).
    { cbn. rewrite length_insert. congruence. }
    split; [|split; [|split; [|split; [|split]]]].
    + cbn [st8 vars]. rewrite Hv7, Hv6. cbn [st5 vars]. rewrite Hv4.
      cbn [st3 vars]. rewrite Hv2. reflexivity.
    + intros q Hq. fold h in Hq. fold a in Hq. cbn [st8 nodes].
      rewrite list_lookup_insert_ne by lia.
      rewrite H7, H6, H5, H4, H3, H2, H1
        by first [lia | intros Hq'; first [specialize (Hrg4 q Hq') | specialize (Hrg2 q Hq')]; lia].
      done.
    + cbn [tree_at st8 nodes]. split; [|split].
      * apply list_lookup_insert_eq. apply lookup_lt_Some in H7a. done.
      * eapply tree_at_ext; [|exact Hl7]. intros q Hq.
        apply list_lookup_insert_ne. intros <-. specialize (Hrg2 a Hq). lia.
      * eapply tree_at_ext; [|exact Hr6]. intros q Hq.
        rewrite list_lookup_insert_ne by (intros <-; specialize (Hrg4 a Hq); lia).
        apply H7. intros Hq'. specialize (Hrg2 q Hq'). specialize (Hrg4 q Hq). lia.
    + cbn. done.
    + intros q Hq. cbn [ptrs] in Hq. fold h. fold a. rewrite Hlen8.
      apply elem_of_ptrs_node in Hq as [Hq|[->|Hq]].
      * specialize (Hrg2 q Hq). lia.
      * lia.
      * specialize (Hrg4 q Hq). lia.
    + cbn [ptrs]. apply NoDup_app. split; [done|]. split.
      * intros q Hq Hq'. specialize (Hrg2 q Hq).
        apply elem_of_cons in Hq' as [->|Hq']; [lia|]. specialize (Hrg4 q Hq'). lia.
      * apply NoDup_cons. split; [|done]. intros Hq. specialize (Hrg4 a Hq). lia.
Qed.

Lemma okp_for_mono (P Q : ptr -> Prop) o :
  (forall p, P p -> Q p) -> okp_for P o -> okp_for Q o.
Proof. destruct o; cbn; auto. Qed.

Lemma tree_at_closed h par t q n :
  tree_at h par t -> q ∈ ptrs t -> h !! q = Some n ->
  okp_for (fun x => x ∈ ptrs t) (Node.left n)
  /\ okp_for (fun x => x ∈ ptrs t) (Node.right n).
Proof.
  revert par. induction t as [|l IHl p k v ht r IHr]; intros par; cbn [tree_at ptrs].
  - intros _ Hq. by apply not_elem_of_nil in Hq.
  - intros (Hp & Hl & Hr) Hq Hn.
    apply elem_of_ptrs_node in Hq as [Hq|[->|Hq]].
    + destruct (IHl _ Hl Hq Hn) as [H1 H2].
      split; (eapply okp_for_mono; [|eassumption]);
        intros x Hx; apply elem_of_ptrs_node; auto.
    + rewrite Hp in Hn. injection Hn as <-. cbn [Node.left Node.right].
      split.
      * destruct (root_of l) as [c|] eqn:Hc; [|exact I]. cbn.
        apply elem_of_ptrs_node. left. by apply root_of_ptrs.
      * destruct (root_of r) as [c|] eqn:Hc; [|exact I]. cbn.
        apply elem_of_ptrs_node. right. right. by apply root_of_ptrs.
    + destruct (IHr _ Hr Hq Hn) as [H1 H2].
      split; (eapply okp_for_mono; [|eassumption]);
        intros x Hx; apply elem_of_ptrs_node; auto.
Qed.

(** Operations on one map leave alone a map that shares no node with it. *)
Lemma ops_leave_other_map st a b ta tb :
  holds st a ta -> holds st b tb -> a <> b ->
  (forall q, q ∈ ptrs ta -> q ∉ ptrs tb) ->
  unchanged_by_ops st b a ta.
Proof.
  intros [Hva Hta] [Hvb Htb] Hab Hdisj fuel os st' Hrun.
  unfold AVLMap in *.
  set (own := fun q : ptr => q ∈ ptrs tb \/ (length (nodes st) <= q)%nat).
  set (mine := fun i : nat => i = b \/ (length (vars st) <= i)%nat).
  assert (Hinit : Inv_for own mine st st).
  { constructor; try done.
    - intros q n [Hq|Hq] Hn.
      + destruct (tree_at_closed _ _ _ _ _ Htb Hq Hn) as [H1 H2].
        split; (eapply okp_for_mono; [|eassumption]); intros x Hx; by left.
      + apply lookup_lt_Some in Hn. lia.
    - intros i o [Hi|Hi] Ho.
      + subst i. rewrite Hvb in Ho. injection Ho as <-.
        destruct (root_of tb) as [c|] eqn:Hc; [|exact I]. left. by apply root_of_ptrs.
      + apply lookup_lt_Some in Ho. lia. }
  assert (Hend : Inv_for own mine st st').
  { pose proof (safe_run_ops own mine st) as Hsafe.
    specialize (Hsafe (fun p Hp => or_intror Hp) (fun i Hi => or_intror Hi) fuel b os).
    specialize (Hsafe (or_introl eq_refl) st Hinit).
    rewrite Hrun in Hsafe. apply Hsafe. }
  destruct Hend as [Hfn Hfv _ _ _ _].
  split.
  - rewrite Hfv; [done|]. intros [Hi|Hi]; [done|].
    apply lookup_lt_Some in Hva. lia.
  - eapply tree_at_ext; [|exact Hta]. intros q Hq. apply Hfn.
    intros [Hq'|Hq']; [by apply (Hdisj q)|].
    pose proof (tree_at_lt _ _ _ _ Hta Hq). lia.
Qed.

Lemma set_var_ok st i o v :
  vars st !! i = Some o ->
  set (Var i) v st = Ok (tt, mkState (nodes st) (<[i:=v]> (vars st))).
Proof. cbn. intros ->. reflexivity. Qed.

(** The body of the copy constructor, for any variable as the target. *)
Lemma copy_into st this other t fuel :
  holds st other t -> this <> other -> (this < length (vars st))%nat ->
  (depth t < fuel)%nat ->
  exists st' t',
    (do r <- get (Var other); do c <- MakeCopy fuel r; set (Var this) c) st
    = Ok (tt, st')
    /\ deep_copy st st' other this t t'.
Proof.
  intros [Hv Ht] Hne Hlt Hf. unfold AVLMap in *.
  destruct (MakeCopy_spec t st None fuel Ht Hf)
    as (st2 & t' & Hrun & Hv2 & H2 & Ht' & Hc & Hrg & Hnd).
  destruct (lookup_lt_is_Some_2 (vars st2) this) as [o Ho]; [by rewrite Hv2|].
  eexists. exists t'. split.
  { rewrite (bind_ok _ _ _ _ _ (get_var_ok _ _ _ Hv)).
    rewrite (bind_ok _ _ _ _ _ Hrun). apply (set_var_ok _ _ _ _ Ho). }
  set (st3 := mkState (nodes st2) (<[this:=root_of t']> (vars st2))).
  assert (Horig : holds st3 other t).
  { split; cbn.
    - rewrite list_lookup_insert_ne by done. by rewrite Hv2.
    - eapply tree_at_ext; [|exact Ht]. intros q Hq. apply H2.
      eapply tree_at_lt; eassumption. }
  assert (Hcopy : holds st3 this t').
  { split; cbn; [|done]. apply list_lookup_insert_eq. by rewrite Hv2. }
  assert (Hdisj : forall q, q ∈ ptrs t' -> q ∉ ptrs t).
  { intros q Hq Hq'. specialize (Hrg q Hq).
    pose proof (tree_at_lt _ _ _ _ Ht Hq'). lia. }
  split; [done|]. split; [done|]. split; [done|]. split; [done|].
  split; [|split].
  - intros q Hq. split; [apply (Hrg q Hq)|by apply Hdisj].
  - apply ops_leave_other_map with t'; try done.
    intros q Hq Hq'. by apply (Hdisj q).
  - apply ops_leave_other_map with t; try done.
Qed.

(** X26.  Copy construction from a map that holds a tree [t] returns,
    leaves every node that existed as it was, and makes the new map
    hold a tree of new nodes with the keys, values and stored heights
    of [t] and with its own back-links; after that, whatever sequence
    of [Insert] and [Delete] runs on either map, the other still holds
    its tree. *)
Theorem copy_construction_is_deep_and_independent st other t fuel :
  holds st other t -> (depth t < fuel)%nat ->
  exists st' t',
    AVLMap_copy fuel other st = Ok (length (vars st), st')
    /\ deep_copy st st' other (length (vars st)) t t'.
Proof.
  intros Hholds Hf.
  set (st1 := mkState (nodes st) (vars st ++ [None])).
  destruct Hholds as [Hv Ht].
  destruct (copy_into st1 (length (vars st)) other t fuel)
    as (st' & t' & Hrun & Hdeep).
  - split; cbn; [|done]. rewrite lookup_app_l; [done|].
    eapply lookup_lt_Some; eassumption.
  - apply lookup_lt_Some in Hv. lia.
  - cbn. rewrite length_app. cbn. lia.
  - done.
  - exists st', t'. split; [|exact Hdeep].
    unfold AVLMap_copy.
    rewrite (bind_ok _ _ _ _ _ (eq_refl : new_var st = Ok (length (vars st), st1))).
    unfold bind in Hrun |- *.
    destruct (get (Var other) st1) as [[r s1]|]; [|done].
    destruct (MakeCopy fuel r s1) as [[c s2]|]; [|done].
    rewrite Hrun. reflexivity.
Qed.

Lemma copy_of_three_nodes :
  exists st' t',
    AVLMap_copy 3 0%nat three_nodes = Ok (length (vars three_nodes), st')
    /\ deep_copy three_nodes st' 0%nat (length (vars three_nodes)) three_tree t'.
Proof.
  apply (copy_construction_is_deep_and_independent three_nodes 0%nat three_tree 3).
  - repeat split; reflexivity.
  - cbn. lia.
Defined.

(** * Running the mutators on a symbolic arena *)

Lemma arrow_ok s st o p :
  get s st = Ok (o, st) -> o = Some p -> arrow s st = Ok (p, st).
Proof. intros H ->. unfold arrow. rewrite (bind_ok _ _ _ _ _ H). reflexivity. Qed.

Lemma set_value_ok st p n v :
  nodes st !! p = Some n ->
  set_value p v st
  = Ok (tt, mkState (<[p:=Node.set_value v n]> (nodes st)) (vars st)).
Proof.
  intros H. unfold set_value. rewrite (bind_ok _ _ _ _ _ (load_ok _ _ _ H)).
  apply (store_ok _ _ _ _ H).
Qed.

Lemma height_ok st o :
  (forall p, o = Some p -> is_Some (nodes st !! p)) ->
  height o st = Ok (hgt (nodes st) o, st).
Proof.
  destruct o as [p|]; cbn; [|reflexivity].
  intros H. destruct (H p eq_refl) as [n Hn].
  rewrite (bind_ok _ _ _ _ _ (load_ok _ _ _ Hn)). rewrite Hn. reflexivity.
Qed.

Lemma FixHeight_ok st p n :
  nodes st !! p = Some n ->
  (forall c, Node.left n = Some c -> is_Some (nodes st !! c)) ->
  (forall c, Node.right n = Some c -> is_Some (nodes st !! c)) ->
  FixHeight (Some p) st
  = Ok (tt, mkState
              (<[p:=Node.set_height
                      (to_uint32 (1 + Z.max (hgt (nodes st) (Node.left n))
                                            (hgt (nodes st) (Node.right n)))) n]>
                 (nodes st))
              (vars st)).
Proof.
  intros Hn Hl Hr. cbn [FixHeight].
  rewrite (bind_ok _ _ _ _ _ (get_left_ok _ _ _ Hn)).
  rewrite (bind_ok _ _ _ _ _ (height_ok _ _ Hl)).
  rewrite (bind_ok _ _ _ _ _ (get_right_ok _ _ _ Hn)).
  rewrite (bind_ok _ _ _ _ _ (height_ok _ _ Hr)).
  rewrite (bind_ok _ _ _ _ _ (load_ok _ _ _ Hn)).
  apply (store_ok _ _ _ _ Hn).
Qed.

Lemma BFactor_ok st p n :
  nodes st !! p = Some n ->
  (forall c, Node.left n = Some c -> is_Some (nodes st !! c)) ->
  (forall c, Node.right n = Some c -> is_Some (nodes st !! c)) ->
  BFactor (Some p) st
  = Ok (to_int (hgt (nodes st) (Node.right n) - hgt (nodes st) (Node.left n)), st).
Proof.
  intros Hn Hl Hr. cbn [BFactor].
  rewrite (bind_ok _ _ _ _ _ (get_right_ok _ _ _ Hn)).
  rewrite (bind_ok _ _ _ _ _ (height_ok _ _ Hr)).
  rewrite (bind_ok _ _ _ _ _ (get_left_ok _ _ _ Hn)).
  rewrite (bind_ok _ _ _ _ _ (height_ok _ _ Hl)).
  reflexivity.
Qed.

Lemma NoDup_ptrs_node l p k v h r :
  NoDup (ptrs (T l p k v h r)) <->
  NoDup (ptrs l) /\ NoDup (ptrs r) /\ (p ∉ ptrs l) /\ (p ∉ ptrs r)
  /\ (forall q, q ∈ ptrs l -> q ∉ ptrs r).
Proof.
  cbn [ptrs]. rewrite NoDup_app, NoDup_cons. split.
  - intros (Hl & Hd & Hp & Hr). repeat split; try done.
    + intros Hin. apply (Hd p Hin). apply elem_of_cons. by left.
    + intros q Hq Hq'. apply (Hd q Hq). apply elem_of_cons. by right.
  - intros (Hl & Hr & Hpl & Hpr & Hd). repeat split; try done.
    intros q Hq Hq'. apply elem_of_cons in Hq' as [->|Hq']; [done|]. by apply (Hd q).
Qed.

Lemma hgt_tree h par t :
  tree_at h par t -> hgt h (root_of t) = to_int (stored_height t).
Proof.
  destruct t as [|l p k v ht r]; cbn; [reflexivity|].
  intros (Hp & _). rewrite Hp. reflexivity.
Qed.

Lemma hgt_some h p n : h !! p = Some n -> hgt h (Some p) = to_int (Node.height n).
Proof. cbn. intros ->. reflexivity. Qed.

Lemma root_lt h par t c :
  tree_at h par t -> root_of t = Some c -> (c < length h)%nat.
Proof. intros Ht Hc. eapply tree_at_lt; [exact Ht|]. by apply root_of_ptrs. Qed.

Lemma get_var_inv st i o st' :
  get (Var i) st = Ok (o, st') -> vars st !! i = Some o.
Proof. cbn. destruct (vars st !! i); [|discriminate]. by intros [= -> _]. Qed.

Lemma get_left_inv st O o st' :
  get (Left O) st = Ok (o, st') ->
  exists n, nodes st !! O = Some n /\ Node.left n = o.
Proof.
  cbn. unfold bind, load. destruct (nodes st !! O) as [n|]; [|discriminate].
  cbn. intros [= <- _]. eauto.
Qed.

Lemma get_right_inv st O o st' :
  get (Right O) st = Ok (o, st') ->
  exists n, nodes st !! O = Some n /\ Node.right n = o.
Proof.
  cbn. unfold bind, load. destruct (nodes st !! O) as [n|]; [|discriminate].
  cbn. intros [= <- _]. eauto.
Qed.

Lemma get_left_eq st p n o :
  nodes st !! p = Some n -> Node.left n = o -> get (Left p) st = Ok (o, st).
Proof. intros H <-. by apply get_left_ok. Qed.

Lemma get_right_eq st p n o :
  nodes st !! p = Some n -> Node.right n = o -> get (Right p) st = Ok (o, st).
Proof. intros H <-. by apply get_right_ok. Qed.

Lemma bind_assoc_at {A B C} (m : M A) (f : A -> M B) (g : B -> M C) st :
  bind (bind m f) g st = bind m (fun x => bind (f x) g) st.
Proof. unfold bind. destruct (m st) as [[a st']|]; reflexivity. Qed.

Lemma lookup_snoc {A} (h : list A) n : (h ++ [n]) !! length h = Some n.
Proof. by apply list_lookup_middle. Qed.

(** ** Tactics that run the code on a symbolic arena *)

Ltac simp :=
  unfold Node.set_value, Node.set_left, Node.set_right, Node.set_parent,
    Node.set_height;
  cbn [nodes vars root_of is_null negb when deref stored_height
       Node.key Node.value Node.left Node.right Node.parent Node.height].

Ltac pick :=
  lazymatch goal with
  | |- _ \/ _ => first [left; pick | right; pick]
  | |- _ => solve [assumption | reflexivity]
  end.

Ltac in_ptrs :=
  cbn [ptrs app];
  repeat (rewrite elem_of_app || rewrite elem_of_cons);
  pick.

(** Two pointers differ because one of them is outside a tree. *)
Ltac away :=
  let E := fresh in
  intros E;
  first [ lia
        | subst;
          first [ contradiction | congruence
                | match goal with H : _ ∉ _ |- _ => apply H; in_ptrs end ] ].

Ltac len_tac := rewrite ?length_insert, ?length_app; cbn [length]; lia.
Ltac neq_tac :=
  solve [assumption | congruence | lia | away
        | rewrite ?length_app; cbn [length]; lia].

Ltac lk1 :=
  first
    [ rewrite list_lookup_insert_eq by len_tac
    | rewrite list_lookup_insert_ne by neq_tac
    | rewrite lookup_snoc
    | rewrite lookup_app_l by len_tac ].

Ltac lk := simp; repeat lk1; first [eassumption | reflexivity].

(** A subtree none of whose nodes was written is still there. *)
Ltac sub_tree :=
  eapply tree_at_ext; [|eassumption];
  let q := fresh "q" in let Hq := fresh "Hq" in
  intros q Hq; simp;
  repeat (rewrite list_lookup_insert_ne by away);
  try (rewrite lookup_app_l
         by (match goal with
             | Ht : tree_at _ _ _ |- _ => exact (tree_at_lt _ _ _ _ Ht Hq)
             end));
  reflexivity.

Ltac some_tac :=
  let c := fresh "c" in let Hc := fresh "Hc" in
  intros c Hc; apply lookup_lt_is_Some; rewrite ?length_insert;
  first [ injection Hc as <-; lia
        | match goal with
          | Ht : tree_at _ _ ?t |- _ => exact (root_lt _ _ _ _ Ht Hc)
          end
        | discriminate ].

Ltac solve_get :=
  first
    [ apply get_var_ok; lk
    | apply get_left_ok; lk
    | apply get_right_ok; lk
    | apply get_parent_ok; lk ].

Ltac prim :=
  first
    [ eapply FixHeight_ok; [lk | simp; some_tac | simp; some_tac]
    | eapply BFactor_ok; [lk | simp; some_tac | simp; some_tac]
    | solve_get
    | eapply arrow_ok; [solve_get | simp; reflexivity]
    | eapply set_var_ok; lk
    | apply set_left_ok; lk
    | apply set_right_ok; lk
    | apply set_parent_ok; lk
    | apply key_of_ok; lk
    | apply set_value_ok; lk
    | apply load_ok; lk
    | eapply store_ok; lk
    | reflexivity ].

Ltac hgt_simp :=
  repeat match goal with
         | |- context [hgt ?H None] => change (hgt H None) with 0
         | |- context [hgt ?H (root_of ?a)] =>
             erewrite (hgt_tree H _ a) by sub_tree
         | |- context [hgt ?H (Some ?p)] =>
             erewrite (hgt_some H p) by lk
         end.

Ltac step :=
  lazymatch goal with
  | |- bind (bind _ _) _ _ = _ => rewrite bind_assoc_at
  | |- bind _ _ _ = _ => erewrite bind_ok; [|prim]
  end;
  simp; hgt_simp; simp.
Ltac run_all := repeat step; prim.

(** Opening a slot: what the state holds where the reference points. *)
Ltac open_slot s Hget Hown :=
  let i := fresh "i" in let O := fresh "O" in
  let nO := fresh "nO" in let HO := fresh "HO" in let HOf := fresh "HOf" in
  let HOlt := fresh "HOlt" in let Hsep := fresh "Hsep" in
  destruct s as [i|O|O|O];
  [ apply get_var_inv in Hget; cbn [vars] in Hget;
    pose proof (lookup_lt_Some _ _ _ Hget) as HOlt
  | apply get_left_inv in Hget as (nO & HO & HOf); cbn [nodes] in HO;
    pose proof (lookup_lt_Some _ _ _ HO) as HOlt;
    pose proof (Hown O eq_refl) as Hsep;
    destruct nO; cbn [Node.left] in HOf; subst
  | apply get_right_inv in Hget as (nO & HO & HOf); cbn [nodes] in HO;
    pose proof (lookup_lt_Some _ _ _ HO) as HOlt;
    pose proof (Hown O eq_refl) as Hsep;
    destruct nO; cbn [Node.right] in HOf; subst
  | exfalso;
    match goal with H : forall p, _ <> Parent p |- _ => exact (H _ eq_refl) end ].

Ltac finish_holds :=
  split;
  [ first [ apply get_var_ok; lk
          | eapply get_left_eq; [lk | reflexivity]
          | eapply get_right_eq; [lk | reflexivity] ]
  | cbn [tree_at root_of fixh stored_height]; repeat split;
    first [ lk | sub_tree ] ].

Ltac finish_frame :=
  unfold frame; simp; cbn [owner slot_only];
  split; [|split; [|split; [|split]]];
  [ let q := fresh "q" in intros q ? ? ?;
    repeat (rewrite list_lookup_insert_ne by away);
    try (rewrite lookup_app_l by lia); reflexivity
  | let O' := fresh in let n' := fresh in let E := fresh in
    intros O' n' E ?;
    first [ discriminate E
          | injection E as <-;
            eexists; split; [lk|]; simp;
            repeat match goal with
                   | H : ?x = Some _, H' : ?x = Some _ |- _ =>
                       rewrite H in H'; injection H' as <-
                   end; reflexivity ]
  | let j := fresh "j" in intros j ?;
    first [ reflexivity
          | rewrite list_lookup_insert_ne by congruence; reflexivity ]
  | rewrite ?length_insert, ?length_app; reflexivity
  | rewrite ?length_insert, ?length_app; lia ].

Ltac rot_case :=
  eexists; split; [run_all|]; simp; hgt_simp; simp;
  split; [finish_holds|]; split; [finish_frame|];
  rewrite ?length_insert; reflexivity.

Lemma RotateLeft_spec st s par t t' :
  slot_holds st s par t -> separate s t -> rotl t = Some t' ->
  exists st',
    RotateLeft s st = Ok (tt, st')
    /\ slot_holds st' s par t'
    /\ frame st st' s t
    /\ length (nodes st') = length (nodes st).
Proof.
  intros [Hget Ht] (Hnd & Hown & Hnp) Hrot.
  destruct t as [|a P kp vp hp [|b Q kq vq hq c]]; try discriminate.
  cbn [rotl] in Hrot. injection Hrot as <-.
  destruct st as [h V]. cbn [nodes vars] in *.
  cbn [tree_at root_of] in Ht. destruct Ht as (HP & Ha & HQ & Hb & Hc).
  apply NoDup_ptrs_node in Hnd as (Hnda & Hndr & HPa & HPr & Hdar).
  apply NoDup_ptrs_node in Hndr as (Hndb & Hndc & HQb & HQc & Hdbc).
  assert (HPQ : P <> Q) by (intros ->; apply HPr; in_ptrs).
  assert (HPb : P ∉ ptrs b) by (intros Hx; apply HPr; in_ptrs).
  assert (HPc : P ∉ ptrs c) by (intros Hx; apply HPr; in_ptrs).
  assert (HQa : Q ∉ ptrs a) by (intros Hx; apply (Hdar Q Hx); in_ptrs).
  assert (HPlt : (P < length h)%nat) by (eapply lookup_lt_Some; eassumption).
  assert (HQlt : (Q < length h)%nat) by (eapply lookup_lt_Some; eassumption).
  unfold RotateLeft.
  destruct b as [|b1 B kb vb hb b2].
  - cbn [root_of tree_at] in *.
    open_slot s Hget Hown.
    + rot_case.
    + rot_case.
    + rot_case.
  - cbn [root_of tree_at] in Hb, HQ. destruct Hb as (HB & Hb1 & Hb2).
    assert (HBlt : (B < length h)%nat) by (eapply lookup_lt_Some; eassumption).
    assert (HBP : B <> P) by (intros ->; apply HPb; in_ptrs).
    assert (HBQ : B <> Q) by (intros ->; apply HQb; in_ptrs).
    assert (HBa : B ∉ ptrs a)
      by (intros Hx; apply (Hdar B Hx); in_ptrs).
    assert (HBc : B ∉ ptrs c)
      by (apply Hdbc; in_ptrs).
    apply NoDup_ptrs_node in Hndb as (Hndb1 & Hndb2 & HBb1 & HBb2 & Hdb12).
    open_slot s Hget Hown; rot_case.
Qed.

Lemma RotateRight_spec st s par t t' :
  slot_holds st s par t -> separate s t -> rotr t = Some t' ->
  exists st',
    RotateRight s st = Ok (tt, st')
    /\ slot_holds st' s par t'
    /\ frame st st' s t
    /\ length (nodes st') = length (nodes st).
Proof.
  intros [Hget Ht] (Hnd & Hown & Hnp) Hrot.
  destruct t as [|[|a P kp vp hp b] Q kq vq hq c]; try discriminate.
  cbn [rotr] in Hrot. injection Hrot as <-.
  destruct st as [h V]. cbn [nodes vars] in *.
  cbn [tree_at root_of] in Ht. destruct Ht as (HQ & (HP & Ha & Hb) & Hc).
  apply NoDup_ptrs_node in Hnd as (Hndl & Hndc & HQl & HQc & Hdlc).
  apply NoDup_ptrs_node in Hndl as (Hnda & Hndb & HPa & HPb & Hdab).
  assert (HPQ : P <> Q) by (intros ->; apply HQl; in_ptrs).
  assert (HQa : Q ∉ ptrs a) by (intros Hx; apply HQl; in_ptrs).
  assert (HQb : Q ∉ ptrs b) by (intros Hx; apply HQl; in_ptrs).
  assert (HPc : P ∉ ptrs c) by (apply Hdlc; in_ptrs).
  assert (HPlt : (P < length h)%nat) by (eapply lookup_lt_Some; eassumption).
  assert (HQlt : (Q < length h)%nat) by (eapply lookup_lt_Some; eassumption).
  unfold RotateRight.
  destruct b as [|b1 B kb vb hb b2].
  - cbn [root_of tree_at] in *.
    open_slot s Hget Hown; rot_case.
  - cbn [root_of tree_at] in Hb, HP. destruct Hb as (HB & Hb1 & Hb2).
    assert (HBlt : (B < length h)%nat) by (eapply lookup_lt_Some; eassumption).
    assert (HBP : B <> P) by (intros ->; apply HPb; in_ptrs).
    assert (HBQ : B <> Q) by (intros ->; apply HQb; in_ptrs).
    assert (HBa : B ∉ ptrs a)
      by (intros Hx; apply (Hdab B Hx); in_ptrs).
    assert (HBc : B ∉ ptrs c)
      by (apply Hdlc; in_ptrs).
    apply NoDup_ptrs_node in Hndb as (Hndb1 & Hndb2 & HBb1 & HBb2 & Hdb12).
    open_slot s Hget Hown; rot_case.
Qed.

(** * [FixHeight], [BalanceNode] and [Insert] on any arena *)

Lemma slot_only_refl s n : slot_only s n n.
Proof. destruct s, n; reflexivity. Qed.

Lemma slot_only_trans s n1 n2 n3 :
  slot_only s n1 n2 -> slot_only s n2 n3 -> slot_only s n1 n3.
Proof.
  destruct s; cbn; try done.
  - intros -> ->. destruct n1; reflexivity.
  - intros -> ->. destruct n1; reflexivity.
Qed.

Lemma frame_refl st s t : frame st st s t.
Proof.
  repeat split; try done.
  intros O n _ Hn. exists n. split; [done|apply slot_only_refl].
Qed.

Lemma frame_trans st st1 st2 s t t1 :
  frame st st1 s t -> frame st1 st2 s t1 ->
  (forall q, q ∈ ptrs t1 -> q ∈ ptrs t \/ (length (nodes st) <= q)%nat) ->
  frame st st2 s t.
Proof.
  intros (A1 & A2 & A3 & A4 & A5) (B1 & B2 & B3 & B4 & B5) Hsub.
  split; [|split; [|split; [|split]]].
  - intros q Hq Hnq Ho. rewrite B1; [by apply A1|lia| |done].
    intros Hq1. destruct (Hsub q Hq1); [done|lia].
  - intros O n HO Hn. destruct (A2 O n HO Hn) as (n1 & Hn1 & S1).
    destruct (B2 O n1 HO Hn1) as (n2 & Hn2 & S2).
    exists n2. split; [done|]. eapply slot_only_trans; eassumption.
  - intros j Hj. rewrite B3, A3; done.
  - congruence.
  - lia.
Qed.

Lemma separate_same s t t' : separate s t -> ptrs t' = ptrs t -> separate s t'.
Proof. intros (H1 & H2 & H3) E. unfold separate. rewrite E. done. Qed.

Lemma get_unique st s o o' st1 st2 :
  get s st = Ok (o, st1) -> get s st = Ok (o', st2) -> o = o'.
Proof. congruence. Qed.

(** After an operation on the left (right) child slot of a node, the
    tree under the node's own slot has the new child. *)
Lemma lift_left st st1 s par l N k v h r l' :
  slot_holds st s par (T l N k v h r) -> separate s (T l N k v h r) ->
  frame st st1 (Left N) l -> slot_holds st1 (Left N) (Some N) l' ->
  slot_holds st1 s par (T l' N k v h r) /\ frame st st1 s (T l N k v h r).
Proof.
  intros [Hget Ht] (Hnd & Hown & Hnp) (F1 & F2 & F3 & F4 & F5) [Hget1 Hl'].
  cbn [tree_at root_of] in Ht. destruct Ht as (HN & Hl & Hr).
  apply NoDup_ptrs_node in Hnd as (Hndl & Hndr & HNl & HNr & Hdlr).
  destruct (F2 N _ eq_refl HN) as (n' & Hn' & Hso). cbn in Hso.
  apply get_left_inv in Hget1 as (n1 & Hn1 & Hleft).
  rewrite Hn' in Hn1. injection Hn1 as <-. rewrite Hleft in Hso.
  unfold Node.set_left in Hso. cbn in Hso.
  assert (Hsame : forall q, (q < length (nodes st))%nat -> q ∉ ptrs l -> q <> N ->
                            nodes st1 !! q = nodes st !! q).
  { intros q ? ? ?. apply F1; [done|done|]. cbn. congruence. }
  split; [split|].
  - destruct s as [i|O|O|O].
    + apply get_var_inv in Hget. apply get_var_ok. rewrite F3; done.
    + apply get_left_inv in Hget as (n & Hn & Hf).
      eapply get_left_eq; [|exact Hf]. rewrite Hsame; [done| | |].
      * eapply lookup_lt_Some; eassumption.
      * intros Hx. apply (Hown O eq_refl). in_ptrs.
      * intros ->. apply (Hown N eq_refl). in_ptrs.
    + apply get_right_inv in Hget as (n & Hn & Hf).
      eapply get_right_eq; [|exact Hf]. rewrite Hsame; [done| | |].
      * eapply lookup_lt_Some; eassumption.
      * intros Hx. apply (Hown O eq_refl). in_ptrs.
      * intros ->. apply (Hown N eq_refl). in_ptrs.
    + exfalso. by apply (Hnp O).
  - cbn [tree_at root_of]. split; [|split].
    + rewrite Hn', Hso. reflexivity.
    + exact Hl'.
    + eapply tree_at_ext; [|exact Hr]. intros q Hq. apply Hsame.
      * eapply tree_at_lt; [exact Hr|exact Hq].
      * intros Hx. by apply (Hdlr q).
      * intros ->. done.
  - split; [|split; [|split; [|split]]]; try done.
    + intros q Hq Hnq Ho. apply Hsame; [done| |].
      * intros Hx. apply Hnq. in_ptrs.
      * intros ->. apply Hnq. in_ptrs.
    + intros O n HO Hn. exists n. split; [|apply slot_only_refl].
      rewrite Hsame; [done| | |].
      * eapply lookup_lt_Some; eassumption.
      * intros Hx. apply (Hown O HO). in_ptrs.
      * intros ->. apply (Hown N HO). in_ptrs.
    + intros j _. apply F3. done.
Qed.

Lemma lift_right st st1 s par l N k v h r r' :
  slot_holds st s par (T l N k v h r) -> separate s (T l N k v h r) ->
  frame st st1 (Right N) r -> slot_holds st1 (Right N) (Some N) r' ->
  slot_holds st1 s par (T l N k v h r') /\ frame st st1 s (T l N k v h r).
Proof.
  intros [Hget Ht] (Hnd & Hown & Hnp) (F1 & F2 & F3 & F4 & F5) [Hget1 Hr'].
  cbn [tree_at root_of] in Ht. destruct Ht as (HN & Hl & Hr).
  apply NoDup_ptrs_node in Hnd as (Hndl & Hndr & HNl & HNr & Hdlr).
  destruct (F2 N _ eq_refl HN) as (n' & Hn' & Hso). cbn in Hso.
  apply get_right_inv in Hget1 as (n1 & Hn1 & Hright).
  rewrite Hn' in Hn1. injection Hn1 as <-. rewrite Hright in Hso.
  unfold Node.set_right in Hso. cbn in Hso.
  assert (Hsame : forall q, (q < length (nodes st))%nat -> q ∉ ptrs r -> q <> N ->
                            nodes st1 !! q = nodes st !! q).
  { intros q ? ? ?. apply F1; [done|done|]. cbn. congruence. }
  split; [split|].
  - destruct s as [i|O|O|O].
    + apply get_var_inv in Hget. apply get_var_ok. rewrite F3; done.
    + apply get_left_inv in Hget as (n & Hn & Hf).
      eapply get_left_eq; [|exact Hf]. rewrite Hsame; [done| | |].
      * eapply lookup_lt_Some; eassumption.
      * intros Hx. apply (Hown O eq_refl). in_ptrs.
      * intros ->. apply (Hown N eq_refl). in_ptrs.
    + apply get_right_inv in Hget as (n & Hn & Hf).
      eapply get_right_eq; [|exact Hf]. rewrite Hsame; [done| | |].
      * eapply lookup_lt_Some; eassumption.
      * intros Hx. apply (Hown O eq_refl). in_ptrs.
      * intros ->. apply (Hown N eq_refl). in_ptrs.
    + exfalso. by apply (Hnp O).
  - cbn [tree_at root_of]. split; [|split].
    + rewrite Hn', Hso. reflexivity.
    + eapply tree_at_ext; [|exact Hl]. intros q Hq. apply Hsame.
      * eapply tree_at_lt; [exact Hl|exact Hq].
      * by apply Hdlr.
      * intros ->. done.
    + exact Hr'.
  - split; [|split; [|split; [|split]]]; try done.
    + intros q Hq Hnq Ho. apply Hsame; [done| |].
      * intros Hx. apply Hnq. in_ptrs.
      * intros ->. apply Hnq. in_ptrs.
    + intros O n HO Hn. exists n. split; [|apply slot_only_refl].
      rewrite Hsame; [done| | |].
      * eapply lookup_lt_Some; eassumption.
      * intros Hx. apply (Hown O HO). in_ptrs.
      * intros ->. apply (Hown N HO). in_ptrs.
    + intros j _. apply F3. done.
Qed.

Lemma FixHeight_spec st s par t :
  slot_holds st s par t -> separate s t ->
  exists st',
    FixHeight (root_of t) st = Ok (tt, st')
    /\ slot_holds st' s par (fix_tree t)
    /\ frame st st' s t
    /\ length (nodes st') = length (nodes st).
Proof.
  intros [Hget Ht] (Hnd & Hown & Hnp).
  destruct t as [|l N k v h r].
  { exists st. split; [reflexivity|]. split; [done|]. split; [apply frame_refl|done]. }
  destruct st as [hh V]. cbn [nodes vars] in *.
  cbn [tree_at root_of] in Ht. destruct Ht as (HN & Hl & Hr).
  apply NoDup_ptrs_node in Hnd as (Hndl & Hndr & HNl & HNr & Hdlr).
  assert (HNlt : (N < length hh)%nat) by (eapply lookup_lt_Some; eassumption).
  cbn [fix_tree root_of].
  open_slot s Hget Hown;
    (eexists; split; [prim|]; simp; hgt_simp; simp;
     split; [finish_holds|]; split; [finish_frame|];
     rewrite ?length_insert; reflexivity).
Qed.

Lemma BFactor_tree st par t :
  tree_at (nodes st) par t -> BFactor (root_of t) st = Ok (bfactor t, st).
Proof.
  destruct t as [|l N k v h r]; [reflexivity|].
  cbn [tree_at root_of bfactor]. intros (HN & Hl & Hr).
  erewrite BFactor_ok; [|exact HN| |].
  - cbn [Node.left Node.right].
    rewrite (hgt_tree _ _ _ Hl), (hgt_tree _ _ _ Hr). reflexivity.
  - cbn. intros c Hc. apply lookup_lt_is_Some. exact (root_lt _ _ _ _ Hl Hc).
  - cbn. intros c Hc. apply lookup_lt_is_Some. exact (root_lt _ _ _ _ Hr Hc).
Qed.

Lemma rotl_ptrs t t' : rotl t = Some t' -> ptrs t' = ptrs t.
Proof.
  destruct t as [|a p kp vp hp [|b q kq vq hq c]]; try discriminate.
  cbn. intros [= <-]. cbn. by rewrite <- app_assoc.
Qed.

Lemma rotr_ptrs t t' : rotr t = Some t' -> ptrs t' = ptrs t.
Proof.
  destruct t as [|[|a p kp vp hp b] q kq vq hq c]; try discriminate.
  cbn. intros [= <-]. cbn. by rewrite <- app_assoc.
Qed.

Lemma balance_ptrs t t' : balance t = Some t' -> ptrs t' = ptrs t.
Proof.
  destruct t as [|l p k v h r]; [by intros [= <-]|].
  unfold balance.
  destruct (bfactor (T l p k v h r) =? 2).
  - destruct (bfactor r =? -1).
    + destruct (rotr r) as [r'|] eqn:Hr; [|discriminate].
      intros H. apply rotl_ptrs in H. rewrite H. cbn.
      by rewrite (rotr_ptrs _ _ Hr).
    + apply rotl_ptrs.
  - destruct (bfactor (T l p k v h r) =? -2).
    + destruct (bfactor l =? 1).
      * destruct (rotl l) as [l'|] eqn:Hl; [|discriminate].
        intros H. apply rotr_ptrs in H. rewrite H. cbn.
        by rewrite (rotl_ptrs _ _ Hl).
      * apply rotr_ptrs.
    + by intros [= <-].
Qed.

Lemma separate_sub_right s l N k v h r :
  separate s (T l N k v h r) -> separate (Right N) r.
Proof.
  intros (Hnd & Hown & Hnp).
  apply NoDup_ptrs_node in Hnd as (Hndl & Hndr & HNl & HNr & Hdlr).
  split; [done|]. split; [|done]. intros O [= <-]. done.
Qed.

Lemma separate_sub_left s l N k v h r :
  separate s (T l N k v h r) -> separate (Left N) l.
Proof.
  intros (Hnd & Hown & Hnp).
  apply NoDup_ptrs_node in Hnd as (Hndl & Hndr & HNl & HNr & Hdlr).
  split; [done|]. split; [|done]. intros O [= <-]. done.
Qed.

Lemma slot_holds_sub_right st s par l N k v h r :
  slot_holds st s par (T l N k v h r) -> slot_holds st (Right N) (Some N) r.
Proof.
  intros [_ Ht]. cbn [tree_at] in Ht. destruct Ht as (HN & Hl & Hr).
  split; [|done]. by eapply get_right_eq.
Qed.

Lemma slot_holds_sub_left st s par l N k v h r :
  slot_holds st s par (T l N k v h r) -> slot_holds st (Left N) (Some N) l.
Proof.
  intros [_ Ht]. cbn [tree_at] in Ht. destruct Ht as (HN & Hl & Hr).
  split; [|done]. by eapply get_left_eq.
Qed.

Lemma frame_same_ptrs st st' s t t0 :
  frame st st' s t -> ptrs t = ptrs t0 -> frame st st' s t0.
Proof. unfold frame. intros H E. by rewrite <- E. Qed.

Lemma BalanceNode_spec st s par t t' :
  slot_holds st s par t -> separate s t -> balance t = Some t' ->
  exists st',
    BalanceNode s st = Ok (tt, st')
    /\ slot_holds st' s par t'
    /\ frame st st' s t
    /\ length (nodes st') = length (nodes st).
Proof.
  intros Hh Hsep Hbal. pose proof Hh as [Hget Ht].
  unfold BalanceNode.
  rewrite (bind_ok _ _ _ _ _ Hget).
  rewrite (bind_ok _ _ _ _ _ (BFactor_tree _ _ _ Ht)).
  destruct t as [|l N k v h r].
  { cbn in *. injection Hbal as <-. rewrite (bind_ok _ _ _ _ _ Hget).
    cbn. exists st. split; [reflexivity|]. split; [done|].
    split; [apply frame_refl|done]. }
  assert (Harrow : arrow s st = Ok (N, st)) by (eapply arrow_ok; [exact Hget|reflexivity]).
  pose proof Ht as Ht'. cbn [tree_at] in Ht'. destruct Ht' as (HN & Hl & Hr).
  unfold balance in Hbal.
  destruct (bfactor (T l N k v h r) =? 2) eqn:E2.
  - rewrite (bind_ok _ _ _ _ _ Harrow).
    rewrite (bind_ok _ _ _ _ _ (get_right_ok _ _ _ HN)). cbn [Node.right].
    rewrite (bind_ok _ _ _ _ _ (BFactor_tree _ _ _ Hr)).
    destruct (bfactor r =? -1) eqn:Er; cbn [when].
    + destruct (rotr r) as [r'|] eqn:Hrot; [|discriminate].
      rewrite bind_assoc_at. rewrite (bind_ok _ _ _ _ _ Harrow).
      destruct (RotateRight_spec st (Right N) (Some N) r r')
        as (st1 & Hrun1 & Hh1 & Hf1 & Hlen1);
        [eapply slot_holds_sub_right; eassumption
        |eapply separate_sub_right; eassumption|done|].
      rewrite (bind_ok _ _ _ _ _ Hrun1).
      destruct (lift_right _ _ _ _ _ _ _ _ _ _ _ Hh Hsep Hf1 Hh1) as [Hh1' Hf1'].
      destruct (RotateLeft_spec st1 s par (T l N k v h r') t')
        as (st2 & Hrun2 & Hh2 & Hf2 & Hlen2); [done| |done|].
      { eapply separate_same; [exact Hsep|]. cbn. by rewrite (rotr_ptrs _ _ Hrot). }
      exists st2. split; [exact Hrun2|]. split; [done|]. split; [|congruence].
      eapply frame_trans; [exact Hf1'|exact Hf2|].
      intros q Hq. left. cbn in Hq |- *. by rewrite (rotr_ptrs _ _ Hrot) in Hq.
    + rewrite (bind_ok _ _ _ _ _ (eq_refl : ret tt st = Ok (tt, st))).
      eapply RotateLeft_spec; eassumption.
  - rewrite (bind_ok _ _ _ _ _ Hget).
    rewrite (bind_ok _ _ _ _ _ (BFactor_tree _ _ _ Ht)).
    destruct (bfactor (T l N k v h r) =? -2) eqn:E3.
    + rewrite (bind_ok _ _ _ _ _ Harrow).
      rewrite (bind_ok _ _ _ _ _ (get_left_ok _ _ _ HN)). cbn [Node.left].
      rewrite (bind_ok _ _ _ _ _ (BFactor_tree _ _ _ Hl)).
      destruct (bfactor l =? 1) eqn:El; cbn [when].
      * destruct (rotl l) as [l'|] eqn:Hrot; [|discriminate].
        rewrite bind_assoc_at. rewrite (bind_ok _ _ _ _ _ Harrow).
        destruct (RotateLeft_spec st (Left N) (Some N) l l')
          as (st1 & Hrun1 & Hh1 & Hf1 & Hlen1);
          [eapply slot_holds_sub_left; eassumption
          |eapply separate_sub_left; eassumption|done|].
        rewrite (bind_ok _ _ _ _ _ Hrun1).
        destruct (lift_left _ _ _ _ _ _ _ _ _ _ _ Hh Hsep Hf1 Hh1) as [Hh1' Hf1'].
        destruct (RotateRight_spec st1 s par (T l' N k v h r) t')
          as (st2 & Hrun2 & Hh2 & Hf2 & Hlen2); [done| |done|].
        { eapply separate_same; [exact Hsep|]. cbn. by rewrite (rotl_ptrs _ _ Hrot). }
        exists st2. split; [exact Hrun2|]. split; [done|]. split; [|congruence].
        eapply frame_trans; [exact Hf1'|exact Hf2|].
        intros q Hq. left. cbn in Hq |- *. by rewrite (rotl_ptrs _ _ Hrot) in Hq.
      * rewrite (bind_ok _ _ _ _ _ (eq_refl : ret tt st = Ok (tt, st))).
        eapply RotateRight_spec; eassumption.
    + injection Hbal as <-. exists st. split; [reflexivity|]. split; [done|].
      split; [apply frame_refl|done].
Qed.

Lemma overwrite_spec st s par l N k v h r (b : bool) val :
  slot_holds st s par (T l N k v h r) -> separate s (T l N k v h r) ->
  exists st',
    when b (do N <- arrow s; set_value N val) st = Ok (tt, st')
    /\ slot_holds st' s par (T l N k (if b then val else v) h r)
    /\ frame st st' s (T l N k v h r)
    /\ length (nodes st') = length (nodes st).
Proof.
  intros [Hget Ht] (Hnd & Hown & Hnp).
  destruct b; cbn [when].
  2:{ exists st. split; [reflexivity|]. split; [done|]. split; [apply frame_refl|done]. }
  destruct st as [hh V]. cbn [nodes vars] in *.
  cbn [tree_at root_of] in Ht. destruct Ht as (HN & Hl & Hr).
  apply NoDup_ptrs_node in Hnd as (Hndl & Hndr & HNl & HNr & Hdlr).
  assert (HNlt : (N < length hh)%nat) by (eapply lookup_lt_Some; eassumption).
  open_slot s Hget Hown; rot_case.
Qed.

Lemma insert_leaf_spec st s par key val :
  slot_holds st s par Leaf -> separate s Leaf ->
  exists st',
    (do fresh <- allocate_shared key val;
     do_ set s (Some fresh);
     do N <- arrow s;
     set (Parent N) par) st = Ok (tt, st')
    /\ slot_holds st' s par (T Leaf (length (nodes st)) key val 1 Leaf)
    /\ frame st st' s Leaf
    /\ length (nodes st') = S (length (nodes st)).
Proof.
  intros [Hget Ht] (Hnd & Hown & Hnp).
  destruct st as [hh V]. cbn [nodes vars] in *.
  unfold allocate_shared. cbn [nodes vars].
  open_slot s Hget Hown;
    (eexists; split; [run_all|]; simp;
     split; [finish_holds|]; split; [finish_frame|];
     rewrite ?length_insert, ?length_app; cbn [length]; lia).
Qed.

Lemma perm_mid {A} (p a : A) l r : l ++ p :: a :: r ≡ₚ a :: l ++ p :: r.
Proof. rewrite (perm_swap a p r). symmetry. apply Permutation_middle. Qed.

Lemma fix_tree_ptrs t : ptrs (fix_tree t) = ptrs t.
Proof. by destruct t. Qed.

Lemma ins_ptrs a key val t t' :
  ins a key val t = Some t' -> ptrs t' ≡ₚ a :: ptrs t.
Proof.
  revert t'. induction t as [|l IHl p k v h r IHr]; intros t'; cbn [ins].
  - intros [= <-]. reflexivity.
  - destruct (k >? key).
    + destruct (ins a key val l) as [l'|]; [|discriminate]. cbn [option_map].
      intros H. apply balance_ptrs in H. rewrite H, fix_tree_ptrs. cbn [ptrs].
      rewrite (IHl l' eq_refl). reflexivity.
    + destruct (ins a key val r) as [r'|]; [|discriminate]. cbn [option_map].
      intros H. apply balance_ptrs in H. rewrite H, fix_tree_ptrs. cbn [ptrs].
      rewrite (IHr r' eq_refl). apply perm_mid.
Qed.

Lemma separate_fresh s t t1 a :
  separate s t -> ptrs t1 ≡ₚ a :: ptrs t -> a ∉ ptrs t -> owner s <> Some a ->
  separate s t1.
Proof.
  intros (Hnd & Hown & Hnp) Hp Ha Hs. split; [|split; [|done]].
  - rewrite Hp. apply NoDup_cons. done.
  - intros O HO. rewrite Hp. intros Hin. apply elem_of_cons in Hin as [->|Hin].
    + done.
    + by apply (Hown O).
Qed.

Lemma slot_owner_lt st s o O :
  get s st = Ok (o, st) -> owner s = Some O -> (forall p, s <> Parent p) ->
  (O < length (nodes st))%nat.
Proof.
  destruct s as [i|P|P|P]; cbn [owner]; intros Hget [= <-] Hnp.
  - apply get_left_inv in Hget as (n & Hn & _). eapply lookup_lt_Some; eassumption.
  - apply get_right_inv in Hget as (n & Hn & _). eapply lookup_lt_Some; eassumption.
  - exfalso. eapply Hnp. reflexivity.
Qed.

Lemma Insert_rec_spec key val t :
  forall st s par fuel t',
    slot_holds st s par t -> separate s t ->
    ins (length (nodes st)) key val t = Some t' ->
    (depth t < fuel)%nat ->
    exists st',
      Insert_rec fuel par s key val st = Ok (tt, st')
      /\ slot_holds st' s par t'
      /\ frame st st' s t
      /\ length (nodes st') = S (length (nodes st)).
Proof.
  induction t as [|l IHl N k v h r IHr]; intros st s par fuel t' Hh Hsep Hins Hf;
    (destruct fuel as [|fuel]; [lia|]); pose proof Hh as [Hget Ht];
    cbn [Insert_rec]; rewrite (bind_ok _ _ _ _ _ Hget); cbn [root_of is_null].
  - cbn in Hins. injection Hins as <-. by apply insert_leaf_spec.
  - cbn [depth] in Hf. cbn [ins] in Hins.
    set (a := length (nodes st)) in *.
    set (v' := if k =? key then val else v) in *.
    assert (Harrow : arrow s st = Ok (N, st))
      by (eapply arrow_ok; [exact Hget|reflexivity]).
    pose proof Ht as Ht0. cbn [tree_at] in Ht0. destruct Ht0 as (HN & Hl & Hr).
    rewrite (bind_ok _ _ _ _ _ Harrow).
    rewrite (bind_ok _ _ _ _ _ (key_of_ok _ _ _ HN)). cbn [Node.key].
    destruct (overwrite_spec st s par l N k v h r (k =? key) val Hh Hsep)
      as (sta & Hruna & Hha & Hfa & Hlena).
    rewrite (bind_ok _ _ _ _ _ Hruna). fold v' in Hha.
    pose proof Hha as [Hgeta Hta].
    assert (Harrowa : arrow s sta = Ok (N, sta))
      by (eapply arrow_ok; [exact Hgeta|reflexivity]).
    pose proof Hta as Hta0. cbn [tree_at] in Hta0. destruct Hta0 as (HNa & Hla & Hra).
    rewrite (bind_ok _ _ _ _ _ Harrowa).
    rewrite (bind_ok _ _ _ _ _ (key_of_ok _ _ _ HNa)). cbn [Node.key].
    assert (Hsepa : separate s (T l N k v' h r))
      by (eapply separate_same; [exact Hsep|reflexivity]).
    assert (Hafresh : a ∉ ptrs (T l N k v h r)).
    { intros Hin. pose proof (tree_at_lt _ _ _ _ Ht Hin). unfold a in *. lia. }
    assert (Haown : owner s <> Some a).
    { intros Ho. destruct Hsep as (_ & _ & Hnp).
      pose proof (slot_owner_lt _ _ _ _ Hget Ho Hnp). unfold a in *. lia. }
    destruct (k >? key).
    + destruct (ins a key val l) as [l'|] eqn:Hil; [|discriminate].
      cbn [option_map] in Hins.
      rewrite bind_assoc_at. rewrite (bind_ok _ _ _ _ _ Hgeta). cbn [root_of].
      rewrite bind_assoc_at. rewrite (bind_ok _ _ _ _ _ Harrowa).
      destruct (IHl sta (Left N) (Some N) fuel l')
        as (stb & Hrunb & Hhb & Hfb & Hlenb).
      { eapply slot_holds_sub_left; exact Hha. }
      { eapply separate_sub_left; exact Hsepa. }
      { rewrite Hlena. exact Hil. }
      { lia. }
      rewrite (bind_ok _ _ _ _ _ Hrunb).
      destruct (lift_left _ _ _ _ _ _ _ _ _ _ _ Hha Hsepa Hfb Hhb) as [Hhb' Hfb'].
      pose proof Hhb' as [Hgetb _].
      rewrite (bind_ok _ _ _ _ _ Hgetb).
      assert (Hsepb : separate s (T l' N k v' h r)).
      { eapply separate_fresh; [exact Hsep| |exact Hafresh|exact Haown].
        cbn [ptrs]. rewrite (ins_ptrs _ _ _ _ _ Hil). reflexivity. }
      destruct (FixHeight_spec stb s par _ Hhb' Hsepb)
        as (stc & Hrunc & Hhc & Hfc & Hlenc).
      rewrite (bind_ok _ _ _ _ _ Hrunc).
      destruct (BalanceNode_spec stc s par _ t' Hhc)
        as (std & Hrund & Hhd & Hfd & Hlend); [|exact Hins|].
      { eapply separate_same; [exact Hsepb|apply fix_tree_ptrs]. }
      exists std. split; [exact Hrund|]. split; [exact Hhd|]. split; [|lia].
      assert (Hsub : forall q, q ∈ ptrs (T l' N k v' h r) ->
                               q ∈ ptrs (T l N k v h r) \/ (a <= q)%nat).
      { intros q. cbn [ptrs]. rewrite (ins_ptrs _ _ _ _ _ Hil).
        repeat (rewrite elem_of_app || rewrite elem_of_cons).
        intros Hq. destruct_or!; subst; first [right; lia | left; pick]. }
      eapply frame_trans; [exact Hfa| |].
      2:{ intros q Hq. left. exact Hq. }
      eapply frame_trans; [exact Hfb'| |].
      2:{ intros q Hq. destruct (Hsub q Hq) as [?|?]; [by left|right; lia]. }
      eapply frame_trans; [exact Hfc|exact Hfd|].
      intros q Hq. left. rewrite fix_tree_ptrs in Hq. exact Hq.
    + destruct (ins a key val r) as [r'|] eqn:Hir; [|discriminate].
      cbn [option_map] in Hins.
      rewrite bind_assoc_at. rewrite (bind_ok _ _ _ _ _ Hgeta). cbn [root_of].
      rewrite bind_assoc_at. rewrite (bind_ok _ _ _ _ _ Harrowa).
      destruct (IHr sta (Right N) (Some N) fuel r')
        as (stb & Hrunb & Hhb & Hfb & Hlenb).
      { eapply slot_holds_sub_right; exact Hha. }
      { eapply separate_sub_right; exact Hsepa. }
      { rewrite Hlena. exact Hir. }
      { lia. }
      rewrite (bind_ok _ _ _ _ _ Hrunb).
      destruct (lift_right _ _ _ _ _ _ _ _ _ _ _ Hha Hsepa Hfb Hhb) as [Hhb' Hfb'].
      pose proof Hhb' as [Hgetb _].
      rewrite (bind_ok _ _ _ _ _ Hgetb).
      assert (Hsepb : separate s (T l N k v' h r')).
      { eapply separate_fresh; [exact Hsep| |exact Hafresh|exact Haown].
        cbn [ptrs]. rewrite (ins_ptrs _ _ _ _ _ Hir). apply perm_mid. }
      destruct (FixHeight_spec stb s par _ Hhb' Hsepb)
        as (stc & Hrunc & Hhc & Hfc & Hlenc).
      rewrite (bind_ok _ _ _ _ _ Hrunc).
      destruct (BalanceNode_spec stc s par _ t' Hhc)
        as (std & Hrund & Hhd & Hfd & Hlend); [|exact Hins|].
      { eapply separate_same; [exact Hsepb|apply fix_tree_ptrs]. }
      exists std. split; [exact Hrund|]. split; [exact Hhd|]. split; [|lia].
      assert (Hsub : forall q, q ∈ ptrs (T l N k v' h r') ->
                               q ∈ ptrs (T l N k v h r) \/ (a <= q)%nat).
      { intros q. cbn [ptrs]. rewrite (ins_ptrs _ _ _ _ _ Hir).
        repeat (rewrite elem_of_app || rewrite elem_of_cons).
        intros Hq. destruct_or!; subst; first [right; lia | left; pick]. }
      eapply frame_trans; [exact Hfa| |].
      2:{ intros q Hq. left. exact Hq. }
      eapply frame_trans; [exact Hfb'| |].
      2:{ intros q Hq. destruct (Hsub q Hq) as [?|?]; [by left|right; lia]. }
      eapply frame_trans; [exact Hfc|exact Hfd|].
      intros q Hq. left. rewrite fix_tree_ptrs in Hq. exact Hq.
Qed.

(** * Entries, heights that fit, and order *)

Lemma keys_elems t : keys t = map (fun e => fst (snd e)) (elems t).
Proof.
  induction t as [|l IHl p k v h r IHr]; [done|].
  cbn. rewrite map_app. cbn. by rewrite IHl, IHr.
Qed.

Lemma ptrs_elems t : ptrs t = map fst (elems t).
Proof.
  induction t as [|l IHl p k v h r IHr]; [done|].
  cbn. rewrite map_app. cbn. by rewrite IHl, IHr.
Qed.

Lemma rotl_elems t t' : rotl t = Some t' -> elems t' = elems t.
Proof.
  destruct t as [|a p kp vp hp [|b q kq vq hq c]]; try discriminate.
  cbn. intros [= <-]. cbn. by rewrite <- app_assoc.
Qed.

Lemma rotr_elems t t' : rotr t = Some t' -> elems t' = elems t.
Proof.
  destruct t as [|[|a p kp vp hp b] q kq vq hq c]; try discriminate.
  cbn. intros [= <-]. cbn. by rewrite <- app_assoc.
Qed.

Lemma fix_tree_elems t : elems (fix_tree t) = elems t.
Proof. by destruct t. Qed.

Lemma balance_elems t t' : balance t = Some t' -> elems t' = elems t.
Proof.
  destruct t as [|l p k v h r]; [by intros [= <-]|].
  unfold balance.
  destruct (bfactor (T l p k v h r) =? 2).
  - destruct (bfactor r =? -1).
    + destruct (rotr r) as [r'|] eqn:Hr; [|discriminate].
      intros H. apply rotl_elems in H. rewrite H. cbn.
      by rewrite (rotr_elems _ _ Hr).
    + apply rotl_elems.
  - destruct (bfactor (T l p k v h r) =? -2).
    + destruct (bfactor l =? 1).
      * destruct (rotl l) as [l'|] eqn:Hl; [|discriminate].
        intros H. apply rotr_elems in H. rewrite H. cbn.
        by rewrite (rotl_elems _ _ Hl).
      * apply rotr_elems.
    + by intros [= <-].
Qed.

Lemma ins_elems_ok a key val t t' :
  ins a key val t = Some t' -> elems t' = ins_elems a key val t.
Proof.
  revert t'. induction t as [|l IHl p k v h r IHr]; intros t'; cbn [ins ins_elems].
  - by intros [= <-].
  - destruct (k >? key).
    + destruct (ins a key val l) as [l'|]; [|discriminate]. cbn [option_map].
      intros H. apply balance_elems in H. rewrite H, fix_tree_elems. cbn [elems].
      by rewrite (IHl l' eq_refl).
    + destruct (ins a key val r) as [r'|]; [|discriminate]. cbn [option_map].
      intros H. apply balance_elems in H. rewrite H, fix_tree_elems. cbn [elems].
      by rewrite (IHr r' eq_refl).
Qed.

Ltac zlia :=
  change (2 ^ 31) with 2147483648 in *;
  change (2 ^ 32) with 4294967296 in *;
  lia.

Lemma heights_in_mono lo hi hi' t :
  heights_in lo hi t -> hi <= hi' -> heights_in lo hi' t.
Proof.
  induction t as [|l IHl p k v h r IHr]; [done|].
  cbn. intros (? & ? & ?) ?. split; [zlia|]. split; auto.
Qed.

Lemma heights_in_node lo hi l p k v h r :
  lo <= h <= hi -> heights_in lo hi l -> heights_in lo hi r ->
  heights_in lo hi (T l p k v h r).
Proof. cbn. auto. Qed.

Lemma stored_height_in hi t :
  heights_in 1 hi t -> 0 <= hi -> 0 <= stored_height t <= hi.
Proof. destruct t; cbn; [zlia|]. intros (? & _) ?. zlia. Qed.

Lemma stored_height_pos hi t :
  heights_in 1 hi t -> 1 <= stored_height t -> exists l p k v h r, t = T l p k v h r.
Proof. destruct t; cbn; [zlia|]. eauto 10. Qed.

Lemma to_int_small z : - 2 ^ 31 <= z < 2 ^ 31 -> to_int z = z.
Proof.
  intros H. unfold to_int.
  rewrite Z.mod_small; zlia.
Qed.

Lemma to_uint32_small z : 0 <= z < 2 ^ 32 -> to_uint32 z = z.
Proof. intros H. unfold to_uint32. by rewrite Z.mod_small. Qed.

Lemma fixh_in hi l r :
  heights_in 1 hi l -> heights_in 1 hi r -> 0 <= hi -> hi < 2 ^ 31 - 1 ->
  fixh l r = 1 + Z.max (stored_height l) (stored_height r)
  /\ 1 <= fixh l r <= hi + 1.
Proof.
  intros Hl Hr H0 Hhi.
  pose proof (stored_height_in _ _ Hl H0). pose proof (stored_height_in _ _ Hr H0).
  unfold fixh. rewrite !to_int_small by zlia. rewrite to_uint32_small by zlia. zlia.
Qed.

Lemma bfactor_in hi l p k v h r :
  heights_in 1 hi l -> heights_in 1 hi r -> 0 <= hi -> hi < 2 ^ 31 - 1 ->
  bfactor (T l p k v h r) = stored_height r - stored_height l.
Proof.
  intros Hl Hr H0 Hhi.
  pose proof (stored_height_in _ _ Hl H0). pose proof (stored_height_in _ _ Hr H0).
  cbn [bfactor].
  rewrite (to_int_small (stored_height r)), (to_int_small (stored_height l)) by zlia.
  rewrite to_int_small by zlia. reflexivity.
Qed.

Lemma rotl_in hi l p k v h r :
  heights_in 1 hi (T l p k v h r) -> 0 <= hi -> hi < 2 ^ 31 - 2 ->
  1 <= stored_height r ->
  exists t', rotl (T l p k v h r) = Some t' /\ heights_in 1 (hi + 2) t'.
Proof.
  intros (Hh & Hl & Hr) H0 Hhi Hpos.
  destruct (stored_height_pos _ _ Hr Hpos) as (b & q & kq & vq & hq & c & ->).
  destruct Hr as (Hq & Hb & Hc).
  eexists. split; [reflexivity|].
  destruct (fixh_in hi l b Hl Hb H0) as [_ H1]; [zlia|].
  assert (Hp' : heights_in 1 (hi + 1) (T l p k v (fixh l b) b)).
  { cbn. split; [zlia|]. split; eapply heights_in_mono; eauto; zlia. }
  destruct (fixh_in (hi + 1) (T l p k v (fixh l b) b) c Hp') as [_ H2];
    [eapply heights_in_mono; eauto; zlia|zlia|zlia|].
  apply heights_in_node; [zlia| |].
  - eapply heights_in_mono; [exact Hp'|zlia].
  - eapply heights_in_mono; [exact Hc|zlia].
Qed.

Lemma rotr_in hi l p k v h r :
  heights_in 1 hi (T l p k v h r) -> 0 <= hi -> hi < 2 ^ 31 - 1 ->
  1 <= stored_height l ->
  exists t', rotr (T l p k v h r) = Some t' /\ heights_in 1 (hi + 1) t'.
Proof.
  intros (Hh & Hl & Hr) H0 Hhi Hpos.
  destruct (stored_height_pos _ _ Hl Hpos) as (a & q & kq & vq & hq & b & ->).
  destruct Hl as (Hq & Ha & Hb).
  eexists. split; [reflexivity|].
  assert (Hq' : heights_in 1 hi (T b p k v h r)).
  { cbn. split; [zlia|]. split; done. }
  destruct (fixh_in hi a (T b p k v h r) Ha Hq' H0) as [_ H1]; [zlia|].
  apply heights_in_node; [zlia| |].
  - eapply heights_in_mono; [exact Ha|zlia].
  - eapply heights_in_mono; [exact Hq'|zlia].
Qed.

Lemma balance_in hi t :
  heights_in 1 hi t -> 0 <= hi -> hi < 2 ^ 31 - 3 ->
  exists t', balance t = Some t' /\ heights_in 1 (hi + 3) t'.
Proof.
  intros Ht H0 Hhi.
  destruct t as [|l p k v h r].
  { exists Leaf. done. }
  pose proof Ht as (Hh & Hl & Hr).
  unfold balance.
  rewrite (bfactor_in hi l p k v h r Hl Hr H0) by zlia.
  pose proof (stored_height_in _ _ Hl H0). pose proof (stored_height_in _ _ Hr H0).
  destruct (Z.eqb_spec (stored_height r - stored_height l) 2) as [E2|E2].
  - destruct (stored_height_pos _ _ Hr) as (b & q & kq & vq & hq & c & ->); [zlia|].
    pose proof Hr as (Hq & Hb & Hc).
    rewrite (bfactor_in hi b q kq vq hq c Hb Hc H0) by zlia.
    pose proof (stored_height_in _ _ Hb H0). pose proof (stored_height_in _ _ Hc H0).
    destruct (Z.eqb_spec (stored_height c - stored_height b) (-1)) as [E1|E1].
    + destruct (rotr_in hi b q kq vq hq c Hr H0) as (r' & Hrot & Hr'); [zlia|zlia|].
      rewrite Hrot.
      destruct (rotl_in (hi + 1) l p k v h r') as (t' & Hrot' & Ht'); [|zlia|zlia| |].
      * cbn. split; [zlia|]. split; [eapply heights_in_mono; eauto; zlia|done].
      * destruct b as [|b1 B kb vb hb b2]; [cbn in *; zlia|].
        cbn in Hrot. injection Hrot as <-. cbn.
        destruct Hb as (HB & Hb1 & Hb2).
        destruct (fixh_in hi b1 (T b2 q kq vq hq c) Hb1) as [_ ?]; [|zlia|zlia|zlia].
        cbn. split; [zlia|]. split; done.
      * exists t'. split; [done|]. eapply heights_in_mono; [exact Ht'|zlia].
    + destruct (rotl_in hi l p k v h (T b q kq vq hq c) Ht H0) as (t' & Hrot & Ht');
        [zlia|cbn; zlia|].
      exists t'. split; [done|]. eapply heights_in_mono; [exact Ht'|zlia].
  - destruct (Z.eqb_spec (stored_height r - stored_height l) (-2)) as [E3|E3].
    + destruct (stored_height_pos _ _ Hl) as (a & q & kq & vq & hq & b & ->); [zlia|].
      pose proof Hl as (Hq & Ha & Hb).
      rewrite (bfactor_in hi a q kq vq hq b Ha Hb H0) by zlia.
      pose proof (stored_height_in _ _ Ha H0). pose proof (stored_height_in _ _ Hb H0).
      destruct (Z.eqb_spec (stored_height b - stored_height a) 1) as [E1|E1].
      * destruct (rotl_in hi a q kq vq hq b Hl H0) as (l' & Hrot & Hl'); [zlia|zlia|].
        rewrite Hrot.
        destruct (rotr_in (hi + 2) l' p k v h r) as (t' & Hrot' & Ht'); [|zlia|zlia| |].
        -- cbn. split; [zlia|]. split; [done|eapply heights_in_mono; eauto; zlia].
        -- destruct b as [|b1 B kb vb hb b2]; [cbn in *; zlia|].
           cbn in Hrot. injection Hrot as <-. cbn.
           destruct Hb as (HB & Hb1 & Hb2).
           destruct (fixh_in hi a b1 Ha Hb1 H0) as [_ ?]; [zlia|].
           assert (Hp' : heights_in 1 (hi + 1) (T a q kq vq (fixh a b1) b1)).
           { cbn. split; [zlia|]. split; eapply heights_in_mono; eauto; zlia. }
           destruct (fixh_in (hi + 1) (T a q kq vq (fixh a b1) b1) b2 Hp') as [_ ?];
             [eapply heights_in_mono; eauto; zlia|zlia|zlia|].
           zlia.
        -- exists t'. split; [done|]. eapply heights_in_mono; [exact Ht'|zlia].
      * destruct (rotr_in hi (T a q kq vq hq b) p k v h r Ht H0) as (t' & Hrot & Ht');
          [zlia|cbn; zlia|].
        exists t'. split; [done|]. eapply heights_in_mono; [exact Ht'|zlia].
    + exists (T l p k v h r). split; [done|]. eapply heights_in_mono; [exact Ht|zlia].
Qed.

Lemma ins_in a key val B t :
  heights_in 1 B t -> 0 <= B -> B + 4 * (Z.of_nat (depth t) + 1) < 2 ^ 31 ->
  exists t',
    ins a key val t = Some t'
    /\ heights_in 1 (B + 4 * (Z.of_nat (depth t) + 1)) t'.
Proof.
  induction t as [|l IHl p k v h r IHr]; intros Ht H0 Hfit.
  - eexists. split; [reflexivity|]. cbn. repeat split; zlia.
  - pose proof Ht as (Hh & Hl & Hr). cbn [depth] in *. cbn [ins].
    set (C := B + 4 * Z.of_nat (S (Nat.max (depth l) (depth r)))).
    assert (HC : B + 4 * (Z.of_nat (S (Nat.max (depth l) (depth r))) + 1) = C + 4)
      by (unfold C; zlia).
    rewrite HC in *.
    destruct (k >? key).
    + destruct IHl as (l' & Hl' & Hin); [done|done|unfold C in *; zlia|].
      rewrite Hl'. cbn [option_map].
      assert (Hl'C : heights_in 1 C l')
        by (eapply heights_in_mono; [exact Hin|unfold C; zlia]).
      assert (HrC : heights_in 1 C r)
        by (eapply heights_in_mono; [exact Hr|unfold C; zlia]).
      destruct (fixh_in C l' r Hl'C HrC) as [_ Hfix]; [unfold C; zlia|zlia|].
      destruct (balance_in (C + 1) (fix_tree (T l' p k (if k =? key then val else v) h r)))
        as (t' & Hbal & Ht'); [|unfold C; zlia|zlia|].
      { cbn [fix_tree]. apply heights_in_node; [zlia| |];
          (eapply heights_in_mono; [eassumption|zlia]). }
      exists t'. split; [done|]. eapply heights_in_mono; [exact Ht'|zlia].
    + destruct IHr as (r' & Hr' & Hin); [done|done|unfold C in *; zlia|].
      rewrite Hr'. cbn [option_map].
      assert (Hr'C : heights_in 1 C r')
        by (eapply heights_in_mono; [exact Hin|unfold C; zlia]).
      assert (HlC : heights_in 1 C l)
        by (eapply heights_in_mono; [exact Hl|unfold C; zlia]).
      destruct (fixh_in C l r' HlC Hr'C) as [_ Hfix]; [unfold C; zlia|zlia|].
      destruct (balance_in (C + 1) (fix_tree (T l p k (if k =? key then val else v) h r')))
        as (t' & Hbal & Ht'); [|unfold C; zlia|zlia|].
      { cbn [fix_tree]. apply heights_in_node; [zlia| |];
          (eapply heights_in_mono; [eassumption|zlia]). }
      exists t'. split; [done|]. eapply heights_in_mono; [exact Ht'|zlia].
Qed.

Lemma ordered_sorted t : ordered t <-> StronglySorted Z.le (keys t).
Proof.
  induction t as [|l IHl p k v h r IHr]; cbn [ordered keys].
  - split; [constructor|done].
  - rewrite StronglySorted_app, StronglySorted_cons, IHl, IHr, !Forall_forall.
    split.
    + intros (Hl & Hr & Sl & Sr). repeat split; try done.
      intros x1 x2 H1 H2. apply elem_of_cons in H2 as [->|H2]; [by apply Hl|].
      specialize (Hl x1 H1). specialize (Hr x2 H2). lia.
    + intros (Hlr & Sl & Hr & Sr). repeat split; try done.
      intros x Hx. apply (Hlr x k Hx). apply elem_of_cons. by left.
Qed.

Lemma bst_sorted t : bst t <-> StronglySorted Z.lt (keys t).
Proof.
  induction t as [|l IHl p k v h r IHr]; cbn [bst keys].
  - split; [constructor|done].
  - rewrite StronglySorted_app, StronglySorted_cons, IHl, IHr, !Forall_forall.
    split.
    + intros (Hl & Hr & Sl & Sr). repeat split; try done.
      intros x1 x2 H1 H2. apply elem_of_cons in H2 as [->|H2]; [by apply Hl|].
      specialize (Hl x1 H1). specialize (Hr x2 H2). lia.
    + intros (Hlr & Sl & Hr & Sr). repeat split; try done.
      intros x Hx. apply (Hlr x k Hx). apply elem_of_cons. by left.
Qed.

Lemma ins_elems_keys a key val t :
  map entry_key (ins_elems a key val t) ≡ₚ key :: keys t.
Proof.
  induction t as [|l IHl p k v h r IHr]; cbn [ins_elems keys]; [done|].
  destruct (k >? key); rewrite map_app; cbn [map entry_key fst snd].
  - rewrite IHl. fold entry_key. rewrite <- keys_elems. reflexivity.
  - rewrite IHr. fold entry_key. rewrite <- keys_elems. apply perm_mid.
Qed.

Lemma elem_of_ins_keys a key val t x :
  x ∈ map entry_key (ins_elems a key val t) <-> x = key \/ x ∈ keys t.
Proof. rewrite ins_elems_keys, elem_of_cons. reflexivity. Qed.

Lemma ins_sorted_le a key val t :
  StronglySorted Z.le (keys t) ->
  StronglySorted Z.le (map entry_key (ins_elems a key val t)).
Proof.
  induction t as [|l IHl p k v h r IHr]; cbn [ins_elems keys].
  - intros _. repeat constructor.
  - rewrite StronglySorted_app, StronglySorted_cons, Forall_forall.
    intros (Hlr & Sl & Hr & Sr).
    destruct (Z.gtb_spec k key) as [Hgt|Hle]; rewrite map_app;
      cbn [map entry_key fst snd]; fold entry_key; rewrite <- keys_elems;
      rewrite StronglySorted_app, StronglySorted_cons, Forall_forall.
    + split; [|split; [auto|done]].
      intros x1 x2 H1 H2. apply elem_of_ins_keys in H1 as [->|H1]; [|by apply Hlr].
      apply elem_of_cons in H2 as [->|H2]; [lia|]. specialize (Hr x2 H2). lia.
    + split; [|split; [done|split; [|auto]]].
      * intros x1 x2 H1 H2. apply elem_of_cons in H2 as [->|H2].
        { apply Hlr; [done|]. apply elem_of_cons. by left. }
        apply elem_of_ins_keys in H2 as [->|H2].
        -- assert (x1 <= k) by (apply Hlr; [done|apply elem_of_cons; by left]). lia.
        -- apply Hlr; [done|]. apply elem_of_cons. by right.
      * intros x Hx. apply elem_of_ins_keys in Hx as [->|Hx]; [lia|by apply Hr].
Qed.

Lemma ins_sorted_lt a key val t :
  StronglySorted Z.lt (keys t) -> key ∉ keys t ->
  StronglySorted Z.lt (map entry_key (ins_elems a key val t)).
Proof.
  induction t as [|l IHl p k v h r IHr]; cbn [ins_elems keys].
  - intros _ _. repeat constructor.
  - rewrite StronglySorted_app, StronglySorted_cons, Forall_forall.
    intros (Hlr & Sl & Hr & Sr) Hnot.
    rewrite elem_of_keys_node in Hnot.
    destruct (Z.gtb_spec k key) as [Hgt|Hle]; rewrite map_app;
      cbn [map entry_key fst snd]; fold entry_key; rewrite <- keys_elems;
      rewrite StronglySorted_app, StronglySorted_cons, Forall_forall.
    + split; [|split; [apply IHl; [done|intros Hx; apply Hnot; auto]|done]].
      intros x1 x2 H1 H2. apply elem_of_ins_keys in H1 as [->|H1]; [|by apply Hlr].
      apply elem_of_cons in H2 as [->|H2]; [lia|]. specialize (Hr x2 H2). lia.
    + split; [|split; [done|split; [|apply IHr; [done|intros Hx; apply Hnot; auto]]]].
      * intros x1 x2 H1 H2. apply elem_of_cons in H2 as [->|H2].
        { apply Hlr; [done|]. apply elem_of_cons. by left. }
        apply elem_of_ins_keys in H2 as [->|H2].
        -- assert (x1 < k) by (apply Hlr; [done|apply elem_of_cons; by left]). lia.
        -- apply Hlr; [done|]. apply elem_of_cons. by right.
      * intros x Hx. apply elem_of_ins_keys in Hx as [->|Hx]; [|by apply Hr].
        assert (k <> key) by (intros Hx; apply Hnot; auto). lia.
Qed.

(** Under the strict order, every entry of the key after [Insert] has
    the inserted value: the one that was there is on the way down. *)
Lemma ins_elems_value a key val t :
  bst t ->
  forall p v, (p, (key, v)) ∈ ins_elems a key val t -> v = val.
Proof.
  induction t as [|l IHl q k w h r IHr]; cbn [bst ins_elems].
  - intros _ p v Hin. apply list_elem_of_singleton in Hin. congruence.
  - intros (Hl & Hr & Bl & Br) p v.
    rewrite Forall_forall in Hl, Hr.
    assert (Hkl : forall p v, (p, (key, v)) ∈ elems l -> key < k).
    { intros p' v' Hin. apply Hl. rewrite keys_elems.
      apply (list_elem_of_fmap_2 (fun e => fst (snd e)) _ _ Hin). }
    assert (Hkr : forall p v, (p, (key, v)) ∈ elems r -> k < key).
    { intros p' v' Hin. apply Hr. rewrite keys_elems.
      apply (list_elem_of_fmap_2 (fun e => fst (snd e)) _ _ Hin). }
    destruct (Z.gtb_spec k key) as [Hgt|Hle];
      rewrite elem_of_app, elem_of_cons; intros [Hin|[Heq|Hin]].
    + eauto.
    + injection Heq as -> -> ->. lia.
    + specialize (Hkr _ _ Hin). lia.
    + specialize (Hkl _ _ Hin). lia.
    + injection Heq as -> <- ->. by rewrite Z.eqb_refl.
    + eauto.
Qed.

(** * [Insert] *)

Lemma elems_lookup h par t p n :
  tree_at h par t -> p ∈ ptrs t -> h !! p = Some n ->
  (p, (Node.key n, Node.value n)) ∈ elems t.
Proof.
  revert par. induction t as [|l IHl q k v ht r IHr]; intros par; cbn [tree_at ptrs elems].
  - intros _ Hp. by apply not_elem_of_nil in Hp.
  - intros (Hq & Hl & Hr) Hp Hn. rewrite elem_of_app, elem_of_cons.
    apply elem_of_ptrs_node in Hp as [Hp|[->|Hp]].
    + left. eapply IHl; eassumption.
    + right. left. rewrite Hq in Hn. injection Hn as <-. reflexivity.
    + right. right. eapply IHr; eassumption.
Qed.

Lemma ptr_key_in h par t p n :
  tree_at h par t -> p ∈ ptrs t -> h !! p = Some n -> Node.key n ∈ keys t.
Proof.
  intros Ht Hp Hn. rewrite keys_elems.
  apply (list_elem_of_fmap_2 (fun e => fst (snd e)) _ _ (elems_lookup _ _ _ _ _ Ht Hp Hn)).
Qed.

Lemma ptr_has_node h par t p :
  tree_at h par t -> p ∈ ptrs t -> is_Some (h !! p).
Proof. intros Ht Hp. apply lookup_lt_is_Some. eapply tree_at_lt; eassumption. Qed.

Lemma NoDup_keys_ptrs h par t :
  tree_at h par t -> NoDup (keys t) -> NoDup (ptrs t).
Proof.
  revert par. induction t as [|l IHl q k v ht r IHr]; intros par; [constructor|].
  intros Ht Hnd. pose proof Ht as (Hq & Hl & Hr).
  cbn [keys] in Hnd. apply NoDup_app in Hnd as (Hndl & Hdis & Hnd).
  apply NoDup_cons in Hnd as (Hkr & Hndr).
  apply NoDup_ptrs_node. split; [eauto|]. split; [eauto|]. split; [|split].
  - intros Hin. apply (Hdis k); [|apply elem_of_cons; by left].
    apply (ptr_key_in _ _ _ _ _ Hl Hin Hq).
  - intros Hin. apply Hkr. apply (ptr_key_in _ _ _ _ _ Hr Hin Hq).
  - intros p Hp Hp'. destruct (ptr_has_node _ _ _ _ Hl Hp) as [n Hn].
    apply (Hdis (Node.key n)).
    + eapply ptr_key_in; eassumption.
    + apply elem_of_cons. right. eapply ptr_key_in; eassumption.
Qed.

Lemma sorted_lt_NoDup (l : list Z) : StronglySorted Z.lt l -> NoDup l.
Proof.
  induction l as [|x l IH]; [constructor|].
  rewrite StronglySorted_cons, Forall_forall. intros [Hx Hs].
  apply NoDup_cons. split; [|auto]. intros Hin. specialize (Hx x Hin). lia.
Qed.

Lemma bst_NoDup_ptrs h par t : tree_at h par t -> bst t -> NoDup (ptrs t).
Proof.
  intros Ht Hb. eapply NoDup_keys_ptrs; [exact Ht|].
  apply sorted_lt_NoDup. by apply bst_sorted.
Qed.

Lemma depth_le_size t : (depth t <= length (keys t))%nat.
Proof.
  induction t as [|l IHl q k v ht r IHr]; cbn; [lia|].
  rewrite length_app. cbn. lia.
Qed.

Lemma keys_length_elems t : length (keys t) = length (elems t).
Proof. by rewrite keys_elems, length_map. Qed.

Lemma ins_elems_length a key val t :
  length (ins_elems a key val t) = S (length (elems t)).
Proof.
  induction t as [|l IHl q k v ht r IHr]; cbn [ins_elems elems]; [done|].
  destruct (k >? key); rewrite !length_app; cbn [length]; lia.
Qed.

Lemma Insert_run st this t key val B fuel :
  holds st this t -> NoDup (ptrs t) ->
  heights_in 1 B t -> 0 <= B -> B + 4 * (Z.of_nat (depth t) + 1) < 2 ^ 31 ->
  (depth t < fuel)%nat ->
  exists st' t',
    Insert fuel this key val st = Ok (tt, st')
    /\ holds st' this t'
    /\ elems t' = ins_elems (length (nodes st)) key val t
    /\ heights_in 1 (B + 4 * (Z.of_nat (depth t) + 1)) t'
    /\ ptrs t' ≡ₚ length (nodes st) :: ptrs t
    /\ frame st st' (Var this) t
    /\ length (nodes st') = S (length (nodes st)).
Proof.
  intros [Hv Ht] Hnd Hin H0 Hfit Hf. unfold AVLMap in *.
  destruct (ins_in (length (nodes st)) key val B t Hin H0 Hfit) as (t' & Hins & Hin').
  assert (Hh : slot_holds st (Var this) None t).
  { split; [|done]. by apply get_var_ok. }
  assert (Hsep : separate (Var this) t).
  { split; [done|]. split; [intros O [=]|intros p [=]]. }
  destruct (Insert_rec_spec key val t st (Var this) None fuel t' Hh Hsep Hins Hf)
    as (st' & Hrun & [Hget' Ht'] & Hfr & Hlen).
  exists st', t'. split; [exact Hrun|]. split.
  { split; [|done]. by apply get_var_inv in Hget'. }
  split; [by apply ins_elems_ok|]. split; [done|].
  split; [by apply (ins_ptrs _ _ _ _ _ Hins)|]. done.
Qed.

(** X1.  [Insert] on a map that holds a tree of distinct nodes whose stored
    heights fit: it returns, it allocates one node, the map then holds
    a tree of distinct nodes whose entries in order are those of
    [ins_elems], and nothing outside the tree and the map variable is
    written. *)
Theorem Insert_entries st this t key val B fuel :
  holds st this t -> NoDup (ptrs t) ->
  heights_in 1 B t -> 0 <= B -> B + 4 * (Z.of_nat (depth t) + 1) < 2 ^ 31 ->
  (depth t < fuel)%nat ->
  exists st' t',
    Insert fuel this key val st = Ok (tt, st')
    /\ holds st' this t'
    /\ elems t' = ins_elems (length (nodes st)) key val t
    /\ NoDup (ptrs t')
    /\ heights_in 1 (B + 4 * (Z.of_nat (depth t) + 1)) t'
    /\ outside st st' this t
    /\ length (nodes st') = S (length (nodes st)).
Proof.
  intros Hh Hnd Hin H0 Hfit Hf. pose proof Hh as [_ Ht].
  destruct (Insert_run st this t key val B fuel Hh Hnd Hin H0 Hfit Hf)
    as (st' & t' & Hrun & Hh' & He & Hin' & Hp & (F1 & _ & F3 & F4 & _) & Hlen).
  exists st', t'. split; [done|]. split; [done|]. split; [done|]. split.
  { rewrite Hp. apply NoDup_cons. split; [|done].
    intros Hx. pose proof (tree_at_lt _ _ _ _ Ht Hx). lia. }
  split; [done|]. split; [|done]. split; [|split; [|done]].
  - intros q Hq Hnq. apply F1; [done|done|]. cbn. congruence.
  - intros j Hj. apply F3. congruence.
Qed.

(** X2.  The keys after [Insert]: one more occurrence of the key, whether or
    not it was there; the search order is kept, and the strict order
    too when the key is new. *)
Theorem Insert_keys st this t key val B fuel :
  holds st this t -> NoDup (ptrs t) ->
  heights_in 1 B t -> 0 <= B -> B + 4 * (Z.of_nat (depth t) + 1) < 2 ^ 31 ->
  (depth t < fuel)%nat ->
  exists st' t',
    Insert fuel this key val st = Ok (tt, st')
    /\ holds st' this t'
    /\ keys t' ≡ₚ key :: keys t
    /\ (ordered t -> ordered t')
    /\ (bst t -> key ∉ keys t -> bst t').
Proof.
  intros Hh Hnd Hin H0 Hfit Hf.
  destruct (Insert_run st this t key val B fuel Hh Hnd Hin H0 Hfit Hf)
    as (st' & t' & Hrun & Hh' & He & _).
  exists st', t'. split; [done|]. split; [done|].
  assert (Hk : keys t' = map entry_key (ins_elems (length (nodes st)) key val t)).
  { rewrite keys_elems, He. reflexivity. }
  split; [|split].
  - rewrite Hk. apply ins_elems_keys.
  - intros Ho. apply ordered_sorted. rewrite Hk. apply ins_sorted_le.
    by apply ordered_sorted.
  - intros Hb Hnot. apply bst_sorted. rewrite Hk. apply ins_sorted_lt; [|done].
    by apply bst_sorted.
Qed.

Lemma Insert_Get_run st this t key val B fuel :
  holds st this t -> bst t ->
  heights_in 1 B t -> 0 <= B -> B + 4 * (Z.of_nat (depth t) + 1) < 2 ^ 31 ->
  (S (length (keys t)) < fuel)%nat ->
  exists st' t' p n,
    Insert fuel this key val st = Ok (tt, st')
    /\ holds st' this t'
    /\ keys t' ≡ₚ key :: keys t
    /\ (key ∉ keys t -> bst t')
    /\ Get fuel this key st' = Ok (p, st')
    /\ nodes st' !! p = Some n
    /\ Node.key n = key
    /\ Node.value n = val
    /\ Contains fuel this key st' = Ok (true, st').
Proof.
  intros Hh Hb Hin H0 Hfit Hf. pose proof Hh as [Hv Ht].
  pose proof (depth_le_size t) as Hd.
  destruct (Insert_run st this t key val B fuel Hh
              (bst_NoDup_ptrs _ _ _ Ht Hb) Hin H0 Hfit ltac:(lia))
    as (st' & t' & Hrun & [Hv' Ht'] & He & _).
  assert (Hk : keys t' = map entry_key (ins_elems (length (nodes st)) key val t)).
  { rewrite keys_elems, He. reflexivity. }
  assert (Ho' : ordered t').
  { apply ordered_sorted. rewrite Hk. apply ins_sorted_le.
    apply ordered_sorted. by apply bst_ordered. }
  assert (Hkey : key ∈ keys t').
  { rewrite Hk. apply elem_of_ins_keys. by left. }
  assert (Hd' : (depth t' < fuel)%nat).
  { pose proof (depth_le_size t'). rewrite keys_length_elems, He, ins_elems_length in H.
    rewrite <- keys_length_elems in H. lia. }
  destruct (Get_rec_present st' None t' key fuel Ht' Ho' Hd' Hkey)
    as (p & n & Hget & Hp & Hn & Hkn).
  exists st', t', p, n. split; [done|]. split; [done|].
  split; [rewrite Hk; apply ins_elems_keys|].
  split.
  { intros Hnot. apply bst_sorted. rewrite Hk. apply ins_sorted_lt; [|done].
    by apply bst_sorted. }
  unfold Get, Contains. unfold AVLMap in *.
  rewrite !(bind_ok _ _ _ _ _ (get_var_ok _ _ _ Hv')).
  split; [done|]. split; [done|]. split; [done|]. split.
  - pose proof (elems_lookup _ _ _ _ _ Ht' Hp Hn) as Hin'.
    rewrite Hkn, He in Hin'. eapply ins_elems_value; eassumption.
  - rewrite (Contains_rec_ordered st' None t' key fuel Ht' Ho' Hd').
    by rewrite bool_decide_eq_true_2.
Qed.

(** X3.  Insert, then look the key up: under the strict order [Get] returns
    a node that holds the inserted value and [Contains] is true. *)
Theorem Insert_then_Get st this t key val B fuel :
  holds st this t -> bst t ->
  heights_in 1 B t -> 0 <= B -> B + 4 * (Z.of_nat (depth t) + 1) < 2 ^ 31 ->
  (S (length (keys t)) < fuel)%nat ->
  exists st' p n,
    Insert fuel this key val st = Ok (tt, st')
    /\ Get fuel this key st' = Ok (p, st')
    /\ nodes st' !! p = Some n
    /\ Node.key n = key
    /\ Node.value n = val
    /\ Contains fuel this key st' = Ok (true, st').
Proof.
  intros Hh Hb Hin H0 Hfit Hf.
  destruct (Insert_Get_run st this t key val B fuel Hh Hb Hin H0 Hfit Hf)
    as (st' & t' & p & n & H1 & _ & _ & _ & H2 & H3 & H4 & H5 & H6).
  exists st', p, n. done.
Qed.

(** * Lookup in any state, [TreeHeight] and the extreme nodes *)

Lemma Get_rec_Contains_rec fuel : forall node key st,
  match Contains_rec fuel node key st with
  | Ok (true, st') =>
      st' = st /\ exists p n, Get_rec fuel node key st = Ok (p, st)
                              /\ nodes st !! p = Some n /\ Node.key n = key
  | Ok (false, st') => st' = st /\ Get_rec fuel node key st = Err NotFound
  | Err e => Get_rec fuel node key st = Err e
  end.
Proof.
  induction fuel as [|fuel IH]; intros node key st; [reflexivity|].
  destruct node as [p|]; [|cbn; done].
  cbn [Contains_rec Get_rec].
  destruct (nodes st !! p) as [n|] eqn:Hp.
  - rewrite !(bind_ok _ _ _ _ _ (key_of_ok _ _ _ Hp)).
    destruct (Z.eqb_spec (Node.key n) key).
    { cbn. split; [done|]. exists p, n. done. }
    rewrite !(bind_ok _ _ _ _ _ (key_of_ok _ _ _ Hp)).
    destruct (Node.key n >? key).
    + rewrite !(bind_ok _ _ _ _ _ (get_left_ok _ _ _ Hp)). apply IH.
    + rewrite !(bind_ok _ _ _ _ _ (get_right_ok _ _ _ Hp)). apply IH.
  - rewrite !(bind_err _ _ _ NullDeref); [done| |];
      unfold key_of, bind, load; by rewrite Hp.
Qed.

(** X4.  In any state, whatever it holds: [Get] raises [NotFound] exactly
    where [Contains] returns false, returns a node of the key exactly
    where [Contains] returns true, and neither changes the state. *)
Theorem Get_raises_where_Contains_is_false fuel this key st :
  (Contains fuel this key st = Ok (false, st)
   <-> Get fuel this key st = Err NotFound)
  /\ (Contains fuel this key st = Ok (true, st)
      <-> exists p n, Get fuel this key st = Ok (p, st)
                      /\ nodes st !! p = Some n /\ Node.key n = key)
  /\ (forall b st', Contains fuel this key st = Ok (b, st') -> st' = st)
  /\ (forall p st', Get fuel this key st = Ok (p, st') -> st' = st).
Proof.
  unfold Contains, Get. unfold AVLMap in *.
  destruct (vars st !! this) as [r|] eqn:Hv.
  - rewrite !(bind_ok _ _ _ _ _ (get_var_ok _ _ _ Hv)).
    pose proof (Get_rec_Contains_rec fuel r key st) as H.
    pose proof (Contains_rec_never_throws fuel r key st) as [Hnf _].
    destruct (Contains_rec fuel r key st) as [[[|] st']|e].
    + destruct H as (-> & p & n & Hg & Hn & Hk). rewrite Hg.
      split; [split; discriminate|]. split; [split; [eauto|done]|].
      split; [congruence|congruence].
    + destruct H as (-> & Hg). rewrite Hg.
      split; [done|]. split; [split; [discriminate|intros (? & ? & ? & _); discriminate]|].
      split; [congruence|discriminate].
    + rewrite H. split; [split; [discriminate|]|].
      { intros [= ->]. done. }
      split; [split; [discriminate|intros (? & ? & ? & _); discriminate]|].
      split; discriminate.
  - assert (Hg : get (Var this) st = Err NullDeref) by (cbn; by rewrite Hv).
    rewrite !(bind_err _ _ _ _ Hg).
    split; [split; discriminate|].
    split; [split; [discriminate|intros (? & ? & ? & _); discriminate]|].
    split; discriminate.
Qed.

Lemma heights_ok_depth t : heights_ok t -> stored_height t = Z.of_nat (depth t).
Proof.
  induction t as [|l IHl p k v h r IHr]; [done|].
  cbn [heights_ok stored_height depth]. intros (-> & Hl & Hr).
  rewrite (IHl Hl), (IHr Hr). lia.
Qed.

(** X5.  [TreeHeight] returns the number of levels of the tree when every
    node stores the right height. *)
Theorem TreeHeight_is_the_depth st this t :
  holds st this t -> heights_ok t -> Z.of_nat (depth t) < 2 ^ 31 ->
  TreeHeight this st = Ok (Z.of_nat (depth t), st).
Proof.
  intros [Hv Ht] Hok Hd. unfold TreeHeight.
  rewrite (bind_ok _ _ _ _ _ (get_var_ok _ _ _ Hv)).
  rewrite (bind_ok _ _ _ _ _ (height_root_of _ _ _ Ht)).
  rewrite (heights_ok_depth _ Hok). cbn [ret].
  rewrite to_int_small by zlia.
  unfold to_size_t. rewrite Z.mod_small; [done|].
  split; [lia|]. apply Z.lt_trans with (2 ^ 31); [done|]. done.
Qed.

Lemma head_app_ne {A} (l l' : list A) : l <> [] -> head (l ++ l') = head l.
Proof. by destruct l. Qed.

Lemma ptrs_nil t : ptrs t = [] -> t = Leaf.
Proof. destruct t as [|l p k v h r]; [done|]. cbn. by destruct (ptrs l). Qed.

Lemma root_of_None t : root_of t = None -> t = Leaf.
Proof. by destruct t. Qed.

Lemma GetLeft_first st par t fuel :
  tree_at (nodes st) par t -> (depth t < fuel)%nat ->
  GetLeft fuel (root_of t) st = Ok (head (ptrs t), st).
Proof.
  revert par fuel. induction t as [|l IHl p k v h r _]; intros par fuel Ht Hf;
    (destruct fuel as [|fuel]; [lia|]); [reflexivity|].
  destruct Ht as (Hp & Hl & Hr). cbn [depth] in Hf.
  cbn [root_of GetLeft ptrs].
  rewrite (bind_ok _ _ _ _ _ (get_left_ok _ _ _ Hp)). cbn [Node.left].
  destruct l as [|ll lp lk lv lh lr]; [reflexivity|].
  cbn [root_of is_null].
  rewrite (bind_ok _ _ _ _ _ (get_left_ok _ _ _ Hp)). cbn [Node.left].
  rewrite (IHl (Some p) fuel Hl) by lia.
  rewrite head_app_ne; [done|]. cbn. by destruct (ptrs ll).
Qed.

Lemma last_app_cons {A} (l l' : list A) x : last (l ++ x :: l') = last (x :: l').
Proof. rewrite last_app. by destruct (last (x :: l')) eqn:E; [|apply last_None in E]. Qed.

Lemma GetRight_last st par t fuel :
  tree_at (nodes st) par t -> (depth t < fuel)%nat ->
  GetRight fuel (root_of t) st = Ok (last (ptrs t), st).
Proof.
  revert par fuel. induction t as [|l _ p k v h r IHr]; intros par fuel Ht Hf;
    (destruct fuel as [|fuel]; [lia|]); [reflexivity|].
  destruct Ht as (Hp & Hl & Hr). cbn [depth] in Hf.
  cbn [root_of GetRight ptrs].
  rewrite (bind_ok _ _ _ _ _ (get_right_ok _ _ _ Hp)). cbn [Node.right].
  rewrite last_app_cons.
  destruct r as [|rl rp rk rv rh rr]; [reflexivity|].
  cbn [root_of is_null].
  rewrite (bind_ok _ _ _ _ _ (get_right_ok _ _ _ Hp)). cbn [Node.right].
  rewrite (IHr (Some p) fuel Hr) by lia.
  cbn [ptrs]. rewrite last_cons. rewrite last_app_cons.
  by destruct (last (rp :: ptrs rr)) eqn:E; [|apply last_None in E].
Qed.

Lemma NextRight_first st par t fuel :
  tree_at (nodes st) par t -> t <> Leaf -> (depth t <= fuel)%nat ->
  NextRight fuel (root_of t) st = Ok (head (ptrs t), st).
Proof.
  revert par fuel. induction t as [|l IHl p k v h r _]; intros par fuel Ht Hne Hf;
    [done|]. cbn [depth] in Hf. destruct fuel as [|fuel]; [lia|].
  destruct Ht as (Hp & Hl & Hr).
  cbn [root_of NextRight ptrs deref]. change (bind (ret p) ?k ?s) with (k p s). cbn beta.
  rewrite (bind_ok _ _ _ _ _ (get_left_ok _ _ _ Hp)). cbn [Node.left].
  destruct l as [|ll lp lk lv lh lr]; [reflexivity|].
  cbn [root_of is_null].
  rewrite (bind_ok _ _ _ _ _ (get_left_ok _ _ _ Hp)). cbn [Node.left].
  rewrite (IHl (Some p) fuel Hl) by (done || lia).
  rewrite head_app_ne; [done|]. cbn. by destruct (ptrs ll).
Qed.

(** X6.  [begin()] is at the first node of the tree in order, [GetRight] of
    the root is the last one. *)
Theorem begin_is_the_first_node st this t fuel :
  holds st this t -> (depth t < fuel)%nat ->
  begin fuel this st = Ok (mkIterator (head (ptrs t)) (root_of t), st)
  /\ end_ this st = Ok (mkIterator None (root_of t), st)
  /\ GetRight fuel (root_of t) st = Ok (last (ptrs t), st).
Proof.
  intros [Hv Ht] Hf. unfold begin, end_.
  rewrite !(bind_ok _ _ _ _ _ (get_var_ok _ _ _ Hv)).
  rewrite (bind_ok _ _ _ _ _ (GetLeft_first _ _ _ _ Ht Hf)).
  split; [done|]. split; [done|]. eapply GetRight_last; eassumption.
Qed.

(** * The cursor *)

Lemma app_cons_split {A} (ps qs l r : list A) pa p :
  ps ++ pa :: qs = l ++ p :: r ->
  (exists qs', l = ps ++ pa :: qs' /\ qs = qs' ++ p :: r)
  \/ (ps = l /\ pa = p /\ qs = r)
  \/ (exists ps', ps = l ++ p :: ps' /\ r = ps' ++ pa :: qs).
Proof.
  revert l. induction ps as [|x ps IH]; intros [|y l]; cbn; intros [= E1 E2].
  - right. left. done.
  - left. exists l. by subst.
  - right. right. exists ps. by subst.
  - subst y. destruct (IH l E2) as [(qs' & -> & ->)|[(-> & -> & ->)|(ps' & -> & ->)]].
    + left. by exists qs'.
    + right. left. done.
    + right. right. by exists ps'.
Qed.

Lemma bind_ret {A B} (a : A) (k : A -> M B) st : bind (ret a) k st = k a st.
Proof. reflexivity. Qed.

Lemma next_of_app qs p r nxt : next_of (qs ++ p :: r) nxt = next_of qs (Some p).
Proof. by destruct qs. Qed.

Lemma next_of_ptrs t nxt :
  t <> Leaf -> next_of (ptrs t) nxt = head (ptrs t).
Proof.
  intros Hne. destruct (ptrs t) eqn:E; [|done]. by apply ptrs_nil in E.
Qed.

Lemma key_below st par t c :
  tree_at (nodes st) par t -> c ∈ ptrs t ->
  exists n, nodes st !! c = Some n /\ Node.key n ∈ keys t.
Proof.
  intros Ht Hc. destruct (ptr_has_node _ _ _ _ Ht Hc) as [n Hn].
  exists n. split; [done|]. eapply ptr_key_in; eassumption.
Qed.

Lemma operator_incr_in st rt fuel t : forall par nxt d,
  tree_at (nodes st) par t -> bst t -> exits_up st t par nxt d ->
  (1 <= d)%nat -> (d + depth t <= fuel)%nat ->
  forall ps pa qs, ptrs t = ps ++ pa :: qs ->
    operator_incr fuel (mkIterator (Some pa) rt) st
    = Ok (mkIterator (next_of qs nxt) rt, st).
Proof.
  induction t as [|l IHl p k v h r IHr]; intros par nxt d Ht Hb Hex Hd Hf ps pa qs E.
  { cbn in E. by destruct ps. }
  destruct Ht as (Hp & Hl & Hr). destruct Hb as (Hlt & Hgt & Hbl & Hbr).
  rewrite Forall_forall in Hlt, Hgt. cbn [depth] in Hf. cbn [ptrs] in E.
  symmetry in E.
  apply app_cons_split in E as [(qs' & El & ->)|[(-> & -> & ->)|(ps' & -> & Er)]].
  - rewrite next_of_app.
    apply (IHl (Some p) (Some p) 1%nat) with (ps := ps); [done|done| |lia|lia|done].
    intros it c f Hit Hc Hfl. destruct f as [|f]; [lia|].
    destruct (key_below _ _ _ _ Hl Hc) as (n & Hn & Hk). apply Hlt in Hk.
    cbn [NextTopPlus]. rewrite (bind_ok _ _ _ _ _ (key_of_ok _ _ _ Hp)).
    rewrite Hit. cbn [deref]. rewrite bind_ret.
    rewrite (bind_ok _ _ _ _ _ (key_of_ok _ _ _ Hn)). cbn [Node.key].
    destruct (Z.gtb_spec k (Node.key n)); [done|lia].
  - cbn [operator_incr node_].
    rewrite (bind_ok _ _ _ _ _ (get_right_ok _ _ _ Hp)). cbn [Node.right].
    destruct r as [|rl rp rk rv rh rr].
    + cbn [root_of is_null negb ptrs next_of tree_root_].
      rewrite (bind_ok _ _ _ _ _ (get_parent_ok _ _ _ Hp)). cbn [Node.parent].
      rewrite (bind_ok _ _ _ _ _ (Hex (mkIterator (Some p) rt) p fuel eq_refl
                 ltac:(cbn; apply elem_of_app; right; by left) ltac:(lia))).
      reflexivity.
    + cbn [root_of is_null negb tree_root_].
      rewrite (bind_ok _ _ _ _ _ (get_right_ok _ _ _ Hp)). cbn [Node.right].
      change (Some rp) with (root_of (T rl rp rk rv rh rr)).
      rewrite (bind_ok _ _ _ _ _ (NextRight_first _ _ _ fuel Hr ltac:(done) ltac:(lia))).
      rewrite next_of_ptrs; done.
  - apply (IHr (Some p) nxt (S d)) with (ps := ps'); [done|done| |lia|lia|done].
    intros it c f Hit Hc Hfl. destruct f as [|f]; [lia|].
    destruct (key_below _ _ _ _ Hr Hc) as (n & Hn & Hk). apply Hgt in Hk.
    cbn [NextTopPlus]. rewrite (bind_ok _ _ _ _ _ (key_of_ok _ _ _ Hp)).
    rewrite Hit. cbn [deref]. rewrite bind_ret.
    rewrite (bind_ok _ _ _ _ _ (key_of_ok _ _ _ Hn)). cbn [Node.key].
    destruct (Z.gtb_spec k (Node.key n)); [lia|].
    rewrite (bind_ok _ _ _ _ _ (get_parent_ok _ _ _ Hp)). cbn [Node.parent].
    apply (Hex it c f); [done| |lia].
    cbn. apply elem_of_app. right. by right.
Qed.

Lemma exits_up_root st t : exits_up st t None None 1.
Proof. intros it c f _ _ Hf. destruct f; [lia|reflexivity]. Qed.

Lemma next_of_None qs : next_of qs None = head qs.
Proof. by destruct qs. Qed.

(** X7.  [operator++] on a search tree moves the cursor to the next node in
    order, and from the last node to the end position. *)
Theorem operator_incr_is_the_successor st this t fuel rt ps pa qs :
  holds st this t -> bst t -> (depth t < fuel)%nat ->
  ptrs t = ps ++ pa :: qs ->
  operator_incr fuel (mkIterator (Some pa) rt) st
  = Ok (mkIterator (head qs) rt, st).
Proof.
  intros [_ Ht] Hb Hf E. rewrite <- next_of_None.
  apply (operator_incr_in st rt fuel t None None 1%nat Ht Hb (exits_up_root st t)
           ltac:(lia) ltac:(lia) ps pa qs E).
Qed.

(** * Traversals *)

Lemma elems_node h par t p k v :
  tree_at h par t -> (p, (k, v)) ∈ elems t ->
  exists n, h !! p = Some n /\ Node.key n = k /\ Node.value n = v.
Proof.
  revert par. induction t as [|l IHl q kq vq ht r IHr]; intros par; cbn [tree_at elems].
  - intros _ Hp. by apply not_elem_of_nil in Hp.
  - intros (Hq & Hl & Hr). rewrite elem_of_app, elem_of_cons.
    intros [Hin|[[= -> -> ->]|Hin]]; [eauto| |eauto].
    eexists. split; [exact Hq|done].
Qed.

Ltac norm := repeat (rewrite bind_assoc_at || rewrite bind_ret).

Lemma walk_from st rt fuel t :
  tree_at (nodes st) None t -> bst t -> (depth t < fuel)%nat ->
  forall es2 es1 e steps,
    elems t = es1 ++ e :: es2 -> (length es2 + 1 < steps)%nat ->
    walk fuel steps (mkIterator (Some (fst e)) rt) (mkIterator None rt) st
    = Ok (map entry_key (e :: es2), st).
Proof.
  intros Ht Hb Hf. induction es2 as [|e' es2 IH]; intros es1 e steps E Hs;
    (destruct steps as [|steps]; [lia|]).
  - cbn [walk operator_eq node_ ptr_eqb].
    destruct e as [p [k v]].
    destruct (elems_node _ _ _ p k v Ht) as (n & Hn & Hk & _).
    { rewrite E. apply elem_of_app. right. by left. }
    unfold operator_star. cbn [node_ deref fst]. rewrite bind_assoc_at, bind_ret.
    rewrite (bind_ok _ _ _ _ _ (key_of_ok _ _ _ Hn)).
    rewrite (bind_ok _ _ _ _ _ (operator_incr_in st rt fuel t None None 1%nat Ht Hb
               (exits_up_root st t) ltac:(lia) ltac:(lia) (map fst es1) p []
               ltac:(by rewrite ptrs_elems, E, map_app))).
    cbn [next_of]. destruct steps as [|steps]; [cbn in Hs; lia|].
    cbn. by rewrite Hk.
  - cbn [walk operator_eq node_ ptr_eqb].
    destruct e as [p [k v]].
    destruct (elems_node _ _ _ p k v Ht) as (n & Hn & Hk & _).
    { rewrite E. apply elem_of_app. right. by left. }
    unfold operator_star. cbn [node_ deref fst]. rewrite bind_assoc_at, bind_ret.
    rewrite (bind_ok _ _ _ _ _ (key_of_ok _ _ _ Hn)).
    rewrite (bind_ok _ _ _ _ _ (operator_incr_in st rt fuel t None None 1%nat Ht Hb
               (exits_up_root st t) ltac:(lia) ltac:(lia) (map fst es1) p
               (map fst (e' :: es2))
               ltac:(by rewrite ptrs_elems, E, map_app))).
    cbn [map next_of].
    rewrite (bind_ok _ _ _ _ _ (IH (es1 ++ [(p, (k, v))]) e' steps
               ltac:(by rewrite E, <- app_assoc) ltac:(cbn [length] in Hs; lia))).
    cbn. by rewrite Hk.
Qed.

Lemma forward_keys_run st this t fuel :
  holds st this t -> bst t -> (length (keys t) < fuel)%nat ->
  forward_keys fuel this st = Ok (keys t, st).
Proof.
  intros Hh Hb Hf.
  pose proof Hh as [Hv Ht]. pose proof (depth_le_size t) as Hd.
  unfold forward_keys, begin, end_. unfold AVLMap in *.
  norm. rewrite (bind_ok _ _ _ _ _ (get_var_ok _ _ _ Hv)).
  norm. rewrite (bind_ok _ _ _ _ _ (GetLeft_first _ _ _ fuel Ht ltac:(lia))).
  norm. rewrite (bind_ok _ _ _ _ _ (get_var_ok _ _ _ Hv)).
  norm.
  destruct (elems t) as [|e es] eqn:E.
  - assert (t = Leaf) as -> by (apply ptrs_nil; by rewrite ptrs_elems, E).
    destruct fuel; [cbn in Hf; lia|]. reflexivity.
  - rewrite ptrs_elems, E. cbn [map head].
    rewrite (walk_from st (root_of t) fuel t Ht Hb ltac:(lia) es [] e fuel E).
    + by rewrite keys_elems, E.
    + rewrite keys_length_elems, E in Hf. cbn [length] in Hf. lia.
Qed.

(** X10.  The forward loop from [begin()] to [end()] over a search tree
    visits the keys of the tree, each once, in ascending order, and
    leaves the state as it was. *)
Theorem forward_keys_are_the_keys st this t fuel :
  holds st this t -> bst t -> (length (keys t) < fuel)%nat ->
  forward_keys fuel this st = Ok (keys t, st)
  /\ StronglySorted Z.lt (keys t).
Proof.
  intros Hh Hb Hf. split; [by apply forward_keys_run|by apply bst_sorted].
Qed.

(** * [Delete] below the root *)

Lemma state_eta st : mkState (nodes st) (vars st) = st.
Proof. by destruct st. Qed.

Lemma FixHeight_same st par l p k v h r :
  tree_at (nodes st) par (T l p k v h r) -> fixh l r = h ->
  FixHeight (Some p) st = Ok (tt, st).
Proof.
  intros (Hp & Hl & Hr) E.
  erewrite FixHeight_ok; [|exact Hp| |].
  - cbn [Node.left Node.right].
    rewrite (hgt_tree _ _ _ Hl), (hgt_tree _ _ _ Hr). fold (fixh l r). rewrite E.
    unfold Node.set_height. cbn. rewrite list_insert_id by exact Hp.
    by rewrite state_eta.
  - cbn. intros c Hc. apply lookup_lt_is_Some. exact (root_lt _ _ _ _ Hl Hc).
  - cbn. intros c Hc. apply lookup_lt_is_Some. exact (root_lt _ _ _ _ Hr Hc).
Qed.

Lemma set_right_same st p n :
  nodes st !! p = Some n -> set (Right p) (Node.right n) st = Ok (tt, st).
Proof.
  intros Hp. rewrite (set_right_ok _ _ _ _ Hp).
  destruct n. unfold Node.set_right. cbn. rewrite list_insert_id by exact Hp.
  by rewrite state_eta.
Qed.

Lemma set_left_same st p n :
  nodes st !! p = Some n -> set (Left p) (Node.left n) st = Ok (tt, st).
Proof.
  intros Hp. rewrite (set_left_ok _ _ _ _ Hp).
  destruct n. unfold Node.set_left. cbn. rewrite list_insert_id by exact Hp.
  by rewrite state_eta.
Qed.

Lemma set_var_same st i o :
  vars st !! i = Some o -> set (Var i) o st = Ok (tt, st).
Proof.
  intros Hv. rewrite (set_var_ok _ _ _ _ Hv).
  rewrite list_insert_id by exact Hv. by rewrite state_eta.
Qed.

Lemma BalanceNode_same st s par t :
  slot_holds st s par t -> bfactor t <> 2 -> bfactor t <> -2 ->
  BalanceNode s st = Ok (tt, st).
Proof.
  intros [Hget Ht] H2 Hm2. unfold BalanceNode.
  rewrite (bind_ok _ _ _ _ _ Hget).
  rewrite (bind_ok _ _ _ _ _ (BFactor_tree _ _ _ Ht)).
  destruct (Z.eqb_spec (bfactor t) 2); [done|].
  rewrite (bind_ok _ _ _ _ _ Hget).
  rewrite (bind_ok _ _ _ _ _ (BFactor_tree _ _ _ Ht)).
  destruct (Z.eqb_spec (bfactor t) (-2)); [done|]. reflexivity.
Qed.

Lemma stored_height_depth_le l r :
  heights_ok l -> heights_ok r ->
  Z.of_nat (S (Nat.max (depth l) (depth r))) < 2 ^ 31 ->
  0 <= stored_height l < 2 ^ 31 - 1 /\ 0 <= stored_height r < 2 ^ 31 - 1.
Proof.
  intros Hl Hr Hd. rewrite (heights_ok_depth _ Hl), (heights_ok_depth _ Hr). zlia.
Qed.

Lemma fixh_heights_ok l p k v h r :
  heights_ok (T l p k v h r) -> Z.of_nat (depth (T l p k v h r)) < 2 ^ 31 ->
  fixh l r = h.
Proof.
  intros (-> & Hl & Hr) Hd. cbn [depth] in Hd.
  destruct (stored_height_depth_le l r Hl Hr Hd). unfold fixh.
  rewrite !to_int_small by zlia. rewrite to_uint32_small by zlia. done.
Qed.

Lemma bfactor_heights_ok l p k v h r :
  heights_ok (T l p k v h r) -> Z.of_nat (depth (T l p k v h r)) < 2 ^ 31 ->
  bfactor (T l p k v h r) = stored_height r - stored_height l.
Proof.
  intros (-> & Hl & Hr) Hd. cbn [depth] in Hd.
  destruct (stored_height_depth_le l r Hl Hr Hd). unfold bfactor.
  rewrite (to_int_small (stored_height r)) by zlia.
  rewrite (to_int_small (stored_height l)) by zlia.
  rewrite to_int_small by zlia. done.
Qed.

Lemma Delete_rec_misses key t : forall st s par fuel,
  slot_holds st s par t -> delete_misses key t ->
  heights_ok t -> balanced t -> Z.of_nat (depth t) < 2 ^ 31 ->
  (depth t < fuel)%nat ->
  Delete_rec fuel s key st = Ok (root_of t, st).
Proof.
  induction t as [|l IHl p k v h r IHr]; intros st s par fuel Hh Hm Hok Hbal Hd Hf;
    pose proof Hh as [Hget Ht];
    (destruct fuel as [|fuel]; [lia|]); cbn [Delete_rec].
  { rewrite (bind_ok _ _ _ _ _ Hget). reflexivity. }
  pose proof Ht as (Hp & Hl & Hr). destruct Hm as [Hne Hm].
  pose proof Hok as (_ & Hokl & Hokr). pose proof Hbal as (Hb & Hball & Hbalr).
  cbn [depth] in Hf.
  assert (Hdl : Z.of_nat (depth l) < 2 ^ 31) by (cbn [depth] in Hd; lia).
  assert (Hdr : Z.of_nat (depth r) < 2 ^ 31) by (cbn [depth] in Hd; lia).
  rewrite (bind_ok _ _ _ _ _ Hget). cbn [root_of is_null].
  rewrite (bind_ok _ _ _ _ _ (arrow_ok _ _ _ _ Hget eq_refl)).
  rewrite (bind_ok _ _ _ _ _ (key_of_ok _ _ _ Hp)). cbn [Node.key].
  destruct (Z.eqb_spec k key); [done|].
  rewrite (bind_ok _ _ _ _ _ (arrow_ok _ _ _ _ Hget eq_refl)).
  rewrite (bind_ok _ _ _ _ _ (key_of_ok _ _ _ Hp)). cbn [Node.key].
  assert (Hrest :
    (do rv <- get s; do_ FixHeight rv; do_ BalanceNode s; get s) st
    = Ok (Some p, st)).
  { rewrite (bind_ok _ _ _ _ _ Hget). cbn [root_of].
    rewrite (bind_ok _ _ _ _ _ (FixHeight_same _ _ _ _ _ _ _ _ Ht
               (fixh_heights_ok _ _ _ _ _ _ Hok Hd))).
    rewrite (bind_ok _ _ _ _ _ (BalanceNode_same _ _ _ _ Hh
               ltac:(rewrite (bfactor_heights_ok _ _ _ _ _ _ Hok Hd); lia)
               ltac:(rewrite (bfactor_heights_ok _ _ _ _ _ _ Hok Hd); lia))).
    exact Hget. }
  destruct (key <? k).
  - rewrite bind_assoc_at.
    rewrite (bind_ok _ _ _ _ _ (arrow_ok _ _ _ _ Hget eq_refl)).
    rewrite bind_assoc_at.
    rewrite (bind_ok _ _ _ _ _ (IHr st (Right p) (Some p) fuel
               ltac:(split; [by eapply get_right_eq|done]) Hm Hokr Hbalr Hdr ltac:(lia))).
    rewrite bind_assoc_at.
    rewrite (bind_ok _ _ _ _ _ (arrow_ok _ _ _ _ Hget eq_refl)).
    rewrite (bind_ok _ _ _ _ _ (set_right_same _ _ _ Hp)).
    exact Hrest.
  - rewrite bind_assoc_at.
    rewrite (bind_ok _ _ _ _ _ (arrow_ok _ _ _ _ Hget eq_refl)).
    rewrite bind_assoc_at.
    rewrite (bind_ok _ _ _ _ _ (IHl st (Left p) (Some p) fuel
               ltac:(split; [by eapply get_left_eq|done]) Hm Hokl Hball Hdl ltac:(lia))).
    rewrite bind_assoc_at.
    rewrite (bind_ok _ _ _ _ _ (arrow_ok _ _ _ _ Hget eq_refl)).
    rewrite (bind_ok _ _ _ _ _ (set_left_same _ _ _ Hp)).
    exact Hrest.
Qed.

Lemma delete_misses_above key t :
  bst t -> Forall (fun x => key < x) (keys t) -> delete_misses key t.
Proof.
  induction t as [|l IHl p k v h r IHr]; [done|].
  intros (Hlt & Hgt & Hbl & Hbr) Hall. cbn [keys] in Hall.
  apply Forall_app in Hall as [_ Hall]. apply Forall_cons in Hall as [Hk Hr].
  cbn [delete_misses]. split; [lia|].
  destruct (Z.ltb_spec key k); [|lia]. by apply IHr.
Qed.

Lemma delete_misses_below key t :
  bst t -> Forall (fun x => x < key) (keys t) -> delete_misses key t.
Proof.
  induction t as [|l IHl p k v h r IHr]; [done|].
  intros (Hlt & Hgt & Hbl & Hbr) Hall. cbn [keys] in Hall.
  apply Forall_app in Hall as [Hl Hall]. apply Forall_cons in Hall as [Hk _].
  cbn [delete_misses]. split; [lia|].
  destruct (Z.ltb_spec key k); [lia|]. by apply IHl.
Qed.

Lemma delete_misses_root key l p k v h r :
  bst (T l p k v h r) -> k <> key -> delete_misses key (T l p k v h r).
Proof.
  intros (Hlt & Hgt & Hbl & Hbr) Hne. cbn [delete_misses]. split; [done|].
  destruct (Z.ltb_spec key k).
  - apply delete_misses_above; [done|].
    eapply Forall_impl; [exact Hgt|]. cbn. intros; lia.
  - apply delete_misses_below; [done|].
    eapply Forall_impl; [exact Hlt|]. cbn. intros; lia.
Qed.

(** X12.  On a map that satisfies the invariants, [Delete] of any key other
    than the key of the root changes nothing, whether the key is in the
    map or not: the descent goes to the side where the key cannot be. *)
Theorem Delete_only_reaches_the_root st this l p k v h r key fuel :
  holds st this (T l p k v h r) -> invariants (T l p k v h r) ->
  Z.of_nat (depth (T l p k v h r)) < 2 ^ 31 ->
  (depth (T l p k v h r) < fuel)%nat ->
  k <> key ->
  Delete fuel this key st = Ok (tt, st).
Proof.
  intros [Hv Ht] (Hb & Hbal & Hok & _) Hd Hf Hne. unfold Delete.
  rewrite (bind_ok _ _ _ _ _ (Delete_rec_misses key _ st (Var this) None fuel
             ltac:(split; [by apply get_var_ok|done])
             (delete_misses_root _ _ _ _ _ _ _ Hb Hne) Hok Hbal Hd Hf)).
  by apply set_var_same.
Qed.

(** * [Delete] at the root *)

Lemma new_var_ok st :
  new_var st = Ok (length (vars st), mkState (nodes st) (vars st ++ [None])).
Proof. reflexivity. Qed.

(** X13.  [Delete] of the key of the only node: the right child, a null
    pointer, is moved into [result] and dereferenced. *)
Theorem Delete_of_the_only_node st this p k v h fuel :
  holds st this (T Leaf p k v h Leaf) -> (0 < fuel)%nat ->
  Delete fuel this k st = Err NullDeref.
Proof.
  intros [Hv (Hp & _)] Hf. destruct fuel as [|fuel]; [lia|].
  destruct st as [hh V]. cbn [nodes vars root_of] in *. unfold AVLMap in *.
  pose proof (lookup_lt_Some _ _ _ Hv) as Hm.
  pose proof (lookup_lt_Some _ _ _ Hp) as Hplt.
  unfold Delete. apply bind_err. cbn [Delete_rec]. unfold move_assign.
  step. step. step. rewrite Z.eqb_refl. 
  step. step. step. simp. 
  repeat step.
  apply bind_err. unfold arrow.
  erewrite bind_ok; [|prim]. reflexivity.
Qed.

Lemma fix_tree_in hi t :
  heights_in 1 hi t -> 0 <= hi -> hi < 2 ^ 31 - 1 ->
  heights_in 1 (hi + 1) (fix_tree t).
Proof.
  destruct t as [|l p k v h r]; [done|].
  intros (Hh & Hl & Hr) H0 Hhi. cbn [fix_tree].
  destruct (fixh_in hi l r Hl Hr H0 Hhi) as [_ ?].
  apply heights_in_node; [zlia| |]; eapply heights_in_mono; eauto; zlia.
Qed.

Lemma fix_balance_in hi t :
  heights_in 1 hi t -> 0 <= hi -> hi < 2 ^ 31 - 4 ->
  exists t', balance (fix_tree t) = Some t' /\ elems t' = elems t
             /\ ptrs t' = ptrs t.
Proof.
  intros Ht H0 Hhi.
  destruct (balance_in (hi + 1) (fix_tree t)) as (t' & Hb & _);
    [apply fix_tree_in; [done|done|zlia]|zlia|zlia|].
  exists t'. split; [done|]. split.
  - by rewrite (balance_elems _ _ Hb), fix_tree_elems.
  - by rewrite (balance_ptrs _ _ Hb), fix_tree_ptrs.
Qed.

Lemma ends_bind {A B} (m : M A) (k : A -> M B) st a st1 Q :
  m st = Ok (a, st1) -> ends (k a st1) Q -> ends (bind m k st) Q.
Proof. intros H. by rewrite (bind_ok _ _ _ _ _ H). Qed.

Lemma ends_assoc {A B C} (m : M A) (f : A -> M B) (g : B -> M C) st Q :
  ends (bind m (fun x => bind (f x) g) st) Q -> ends (bind (bind m f) g st) Q.
Proof. by rewrite bind_assoc_at. Qed.

Lemma ends_ok {A} (r : result (A * state)) Q :
  ends r Q -> exists a st', r = Ok (a, st') /\ Q a st'.
Proof. destruct r as [[a st']|]; [eauto|done]. Qed.

Ltac estep :=
  lazymatch goal with
  | |- ends (bind (bind _ _) _ _) _ => apply ends_assoc
  | |- ends (bind _ _ _) _ => eapply ends_bind; [prim|]
  end;
  simp; hgt_simp; simp.

Lemma Delete_tail st res this t0 t' o :
  slot_holds st (Var res) None t0 -> NoDup (ptrs t0) -> balance t0 = Some t' ->
  vars st !! this = Some o -> this <> res ->
  ends ((do_ BalanceNode (Var res); do d <- get (Var res); set (Var this) d) st)
       (fun _ st' => holds st' this t').
Proof.
  intros Hh Hnd Hbal Hthis Hne.
  assert (Hsep : separate (Var res) t0).
  { split; [done|]. split; [intros O [=]|intros ? [=]]. }
  destruct (BalanceNode_spec _ _ _ _ _ Hh Hsep Hbal)
    as (st3 & Hrun & [Hget3 Ht3] & (F1 & F2 & F3 & F4 & F5) & Hlen).
  eapply ends_bind; [exact Hrun|].
  eapply ends_bind; [exact Hget3|].
  assert (Hthis3 : vars st3 !! this = Some o).
  { rewrite F3 by congruence. done. }
  rewrite (set_var_ok _ _ _ _ Hthis3). cbn [ends]. split; [|done].
  cbn [vars]. apply list_lookup_insert_eq. eapply lookup_lt_Some; eassumption.
Qed.

(** X14.  [Delete] of the key of a root that has a right child and no left
    child: the right child is moved into [result], takes the parent
    link of the root, has its height recomputed and is rebalanced; the
    map then holds the right subtree, with the same entries in the same
    order, and the key of the root is gone. *)
Theorem Delete_of_a_root_without_left_child st this p k v h r B fuel :
  holds st this (T Leaf p k v h r) -> r <> Leaf ->
  NoDup (ptrs (T Leaf p k v h r)) -> heights_in 1 B r -> 0 <= B -> B < 2 ^ 31 - 4 ->
  (0 < fuel)%nat ->
  exists st' t',
    Delete fuel this k st = Ok (tt, st')
    /\ holds st' this t'
    /\ balance (fix_tree r) = Some t'
    /\ elems t' = elems r.
Proof.
  intros [Hv (Hp & _ & Hr)] Hne Hnd Hin H0 HB Hf.
  destruct (fix_balance_in B r Hin H0 HB) as (t' & Hbal & He & Hpt).
  destruct fuel as [|fuel]; [lia|].
  destruct r as [|rl q kq vq hq rr]; [done|].
  destruct st as [hh V]. cbn [nodes vars root_of] in *. unfold AVLMap in *.
  pose proof Hr as (Hq & Hrl & Hrr).
  pose proof (lookup_lt_Some _ _ _ Hv) as Hm.
  pose proof (lookup_lt_Some _ _ _ Hp) as Hplt.
  pose proof (lookup_lt_Some _ _ _ Hq) as Hqlt.
  apply NoDup_ptrs_node in Hnd as (_ & Hndr & _ & Hpr & _).
  pose proof Hndr as Hndr'.
  apply NoDup_ptrs_node in Hndr' as (Hndl & Hndrr & Hql & Hqr & Hdlr).
  assert (Hpq : p <> q) by (intros ->; apply Hpr; in_ptrs).
  assert (Hprl : p ∉ ptrs rl) by (intros Hx; apply Hpr; in_ptrs).
  assert (Hprr : p ∉ ptrs rr) by (intros Hx; apply Hpr; in_ptrs).
  cut (ends (Delete (S fuel) this k (mkState hh V))
         (fun _ st' => holds st' this t')).
  { intros H. apply ends_ok in H as ([] & st' & Hrun & Hh). eauto 10. }
  unfold Delete. cbn [Delete_rec]. unfold move_assign.
  repeat estep. rewrite Z.eqb_refl.
  repeat estep.
  eapply (Delete_tail _ _ _ (fix_tree (T rl q kq vq hq rr)) t' (Some p));
    [cbn [fix_tree]; finish_holds|done|done|lk|lia].
Qed.

(** X15.  [Delete] of the key of a root that has a left child and no right
    child: [GetMaxLeft] is handed the root, finds no right child and
    returns the root itself as the replacement, which is then spliced
    into its own place; the map still holds every entry, the one of
    the deleted key included. *)
Theorem Delete_of_a_root_with_a_left_child_only st this l p k v h B fuel :
  holds st this (T l p k v h Leaf) -> l <> Leaf ->
  NoDup (ptrs (T l p k v h Leaf)) -> heights_in 1 B (T l p k v h Leaf) ->
  0 <= B -> B < 2 ^ 31 - 4 -> (1 < fuel)%nat ->
  exists st' t',
    Delete fuel this k st = Ok (tt, st')
    /\ holds st' this t'
    /\ balance (fix_tree (T l p k v h Leaf)) = Some t'
    /\ elems t' = elems (T l p k v h Leaf).
Proof.
  intros [Hv (Hp & Hl & _)] Hne Hnd Hin H0 HB Hf.
  destruct (fix_balance_in B _ Hin H0 HB) as (t' & Hbal & He & Hpt).
  destruct fuel as [|[|fuel]]; [lia|lia|].
  destruct l as [|ll q kq vq hq lr]; [done|].
  destruct st as [hh V]. cbn [nodes vars root_of] in *. unfold AVLMap in *.
  pose proof Hl as (Hq & Hll & Hlr).
  pose proof (lookup_lt_Some _ _ _ Hv) as Hm.
  pose proof (lookup_lt_Some _ _ _ Hp) as Hplt.
  pose proof (lookup_lt_Some _ _ _ Hq) as Hqlt.
  pose proof Hnd as Hnd'.
  apply NoDup_ptrs_node in Hnd' as (Hndl & _ & Hpl & _ & _).
  pose proof Hndl as Hndl'.
  apply NoDup_ptrs_node in Hndl' as (Hndll & Hndlr & Hql & Hqr & Hdlr).
  assert (Hpq : p <> q) by (intros ->; apply Hpl; in_ptrs).
  assert (Hpll : p ∉ ptrs ll) by (intros Hx; apply Hpl; in_ptrs).
  assert (Hplr : p ∉ ptrs lr) by (intros Hx; apply Hpl; in_ptrs).
  cut (ends (Delete (S (S fuel)) this k (mkState hh V))
         (fun _ st' => holds st' this t')).
  { intros H. apply ends_ok in H as ([] & st' & Hrun & Hh). eauto 10. }
  unfold Delete. cbn [Delete_rec GetMaxLeft]. unfold move_assign.
  repeat estep. rewrite Z.eqb_refl.
  repeat estep.
  eapply (Delete_tail _ _ _ (fix_tree (T (T ll q kq vq hq lr) p k v h Leaf)) t' (Some p));
    [cbn [fix_tree]; finish_holds|done|done|lk|lia].
Qed.

Lemma GetMaxLeft_null st res t : forall par fuel,
  tree_at (nodes st) par t -> t <> Leaf -> max_left t = Leaf ->
  (depth t <= fuel)%nat ->
  GetMaxLeft fuel (root_of t) res st = Err NullDeref.
Proof.
  induction t as [|l _ p k v h r IHr]; intros par fuel Ht Hne Hmax Hf; [done|].
  cbn [depth] in Hf. destruct fuel as [|fuel]; [lia|].
  destruct Ht as (Hp & Hl & Hr). cbn [GetMaxLeft root_of deref].
  rewrite bind_ret. rewrite (bind_ok _ _ _ _ _ (get_right_ok _ _ _ Hp)).
  cbn [Node.right]. destruct r as [|rl q kq vq hq rr].
  - cbn [max_left] in Hmax. subst l. cbn [root_of is_null negb].
    rewrite bind_ret. rewrite (bind_ok _ _ _ _ _ (get_left_ok _ _ _ Hp)).
    cbn [Node.left root_of]. rewrite bind_ret. reflexivity.
  - cbn [root_of is_null negb]. rewrite bind_ret.
    rewrite (bind_ok _ _ _ _ _ (get_right_ok _ _ _ Hp)). cbn [Node.right].
    apply bind_err.
    apply (IHr (Some p) fuel Hr); [done|done|lia].
Qed.

(** X16.  [Delete] of the key of a root that has a left child, when the last
    node of the tree in order has no left child: [GetMaxLeft] is handed
    the root, walks to that last node and dereferences its left child.
    A root with two leaves as children is the smallest such tree. *)
Theorem Delete_goes_through_null_at_the_maximum st this l p k v h r fuel :
  holds st this (T l p k v h r) -> l <> Leaf ->
  max_left (T l p k v h r) = Leaf ->
  (depth (T l p k v h r) < fuel)%nat ->
  Delete fuel this k st = Err NullDeref.
Proof.
  intros [Hv Ht] Hne Hmax Hf. pose proof Ht as (Hp & Hl & Hr).
  destruct fuel as [|fuel]; [lia|].
  destruct l as [|ll q kq vq hq lr]; [done|].
  destruct st as [hh V]. cbn [nodes vars root_of] in *. unfold AVLMap in *.
  pose proof (lookup_lt_Some _ _ _ Hv) as Hm.
  pose proof (lookup_lt_Some _ _ _ Hp) as Hplt.
  unfold Delete. apply bind_err. cbn [Delete_rec].
  repeat step. rewrite Z.eqb_refl.
  repeat step.
  apply bind_err.
  apply (GetMaxLeft_null _ _ (T (T ll q kq vq hq lr) p k v h r) None fuel);
    [exact Ht|done|done|lia].
Qed.

Lemma gml_nonleaf t : t <> Leaf -> max_left t <> Leaf -> gml t <> Leaf.
Proof.
  destruct t as [|l q k v h [|rl x kx vx hx rr]]; [done| |]; cbn; done.
Qed.

Lemma max_left_node l q k v h r :
  r <> Leaf -> max_left (T l q k v h r) = max_left r.
Proof. by destruct r. Qed.

Lemma gml_node l q k v h r :
  r <> Leaf -> gml (T l q k v h r) = T l q k v h (fix_tree (gml r)).
Proof. by destruct r. Qed.

Lemma gml_in B t :
  heights_in 1 B t -> 0 <= B -> B + Z.of_nat (depth t) < 2 ^ 31 - 1 ->
  heights_in 1 (B + Z.of_nat (depth t)) (gml t).
Proof.
  induction t as [|l _ q k v h r IHr]; [done|].
  intros (Hh & Hl & Hr) H0 Hfit. cbn [depth] in *.
  destruct r as [|rl x kx vx hx rr].
  - cbn [gml]. eapply heights_in_mono; [exact Hl|]. lia.
  - rewrite gml_node by done.
    set (r := T rl x kx vx hx rr) in *.
    assert (Hg : heights_in 1 (B + Z.of_nat (depth r)) (gml r)) by (apply IHr; [done|done|lia]).
    apply heights_in_node; [lia| |].
    + eapply heights_in_mono; [exact Hl|]. lia.
    + eapply heights_in_mono; [apply fix_tree_in; [exact Hg|lia|lia]|]. lia.
Qed.

Lemma GetMaxLeft_spec res t : forall st par fuel,
  tree_at (nodes st) par t -> NoDup (ptrs t) ->
  t <> Leaf -> max_left t <> Leaf ->
  is_Some (vars st !! res) -> (depth t <= fuel)%nat ->
  exists st' M kM vM,
    GetMaxLeft fuel (root_of t) (Var res) st = Ok (root_of (gml t), st')
    /\ elems t = elems (gml t) ++ [(M, (kM, vM))]
    /\ tree_at (nodes st') par (gml t)
    /\ nodes st' !! M
       = Some (Node.mk kM vM (root_of (max_left t)) None None
                 (fixh (max_left t) Leaf))
    /\ vars st' = <[res:=Some M]> (vars st)
    /\ (forall q, q ∉ ptrs t -> nodes st' !! q = nodes st !! q)
    /\ length (nodes st') = length (nodes st).
Proof.
  induction t as [|l _ q k v h r IHr]; intros st par fuel Ht Hnd Hne Hml [o Hres] Hf;
    [done|].
  cbn [depth] in Hf. destruct fuel as [|fuel]; [lia|].
  destruct st as [hh V]. cbn [nodes vars] in *.
  pose proof Ht as (Hq & Hl & Hr).
  pose proof (lookup_lt_Some _ _ _ Hq) as Hqlt.
  pose proof (lookup_lt_Some _ _ _ Hres) as Hreslt.
  pose proof Hnd as Hnd'.
  apply NoDup_ptrs_node in Hnd' as (Hndl & Hndr & Hql & Hqr & Hdlr).
  cbn [GetMaxLeft root_of]. unfold move_assign.
  destruct r as [|rl x kx vx hx rr].
  - (* the node is the last one *)
    cbn [max_left] in Hml. cbn [gml max_left].
    destruct l as [|la y ky vy hy lb]; [done|].
    pose proof Hl as (Hy & Hla & Hlb).
    pose proof (lookup_lt_Some _ _ _ Hy) as Hylt.
    pose proof Hndl as Hndl'.
    apply NoDup_ptrs_node in Hndl' as (Hndla & Hndlb & Hyla & Hylb & Hdab).
    assert (Hqy : q <> y) by (intros ->; apply Hql; in_ptrs).
    assert (Hqla : q ∉ ptrs la) by (intros Hx; apply Hql; in_ptrs).
    assert (Hqlb : q ∉ ptrs lb) by (intros Hx; apply Hql; in_ptrs).
    cbn [root_of] in *.
    eexists _, q, k, v. split; [run_all|]. simp. hgt_simp. simp.
    split; [reflexivity|]. split.
    { cbn [tree_at]. split; [lk|]. split; sub_tree. }
    split; [lk|]. split; [reflexivity|]. split; [|by rewrite !length_insert].
    intros q0 Hq0. rewrite !list_lookup_insert_ne; [done| | |];
      intros ->; apply Hq0; in_ptrs.
  - (* the last node is further down the right spine *)
    assert (Hrne : T rl x kx vx hx rr <> Leaf) by done.
    rewrite (max_left_node l q k v h _ Hrne) in *.
    rewrite (gml_node l q k v h _ Hrne).
    destruct (IHr (mkState hh V) (Some q) fuel Hr Hndr Hrne Hml
                (ex_intro _ o Hres) ltac:(lia))
      as ([h1 V1] & M & kM & vM & Hrun & He & Ht1 & HM & HV & Hfr & Hlen).
    cbn [nodes vars] in *. subst V1.
    pose proof (gml_nonleaf _ Hrne Hml) as Hgne.
    assert (Hp : ptrs (T rl x kx vx hx rr) = ptrs (gml (T rl x kx vx hx rr)) ++ [M]).
    { rewrite !ptrs_elems, He, map_app. done. }
    assert (Hndg : NoDup (ptrs (gml (T rl x kx vx hx rr)) ++ [M])) by (by rewrite <- Hp).
    apply NoDup_app in Hndg as (Hndg & HMg & _).
    assert (Hsub : forall c, c ∈ ptrs (gml (T rl x kx vx hx rr)) ->
                             c ∈ ptrs (T rl x kx vx hx rr)).
    { intros c Hc. rewrite Hp. apply elem_of_app. by left. }
    assert (HMr : M ∈ ptrs (T rl x kx vx hx rr)).
    { rewrite Hp. apply elem_of_app. right. by left. }
    assert (HqM : q <> M) by (intros ->; done).
    assert (Hq1 : h1 !! q = Some (Node.mk k v (root_of l) (Some x) par h)).
    { rewrite Hfr by done. exact Hq. }
    assert (Hl1 : tree_at h1 (Some q) l).
    { eapply tree_at_ext; [|exact Hl]. intros c Hc. apply Hfr. by apply Hdlr. }
    clear Hl.
    destruct (gml (T rl x kx vx hx rr)) as [|a y ky vy hy b] eqn:Eg; [done|].
    pose proof Ht1 as (Hy & Ha & Hb).
    pose proof (lookup_lt_Some _ _ _ Hy) as Hylt.
    assert (Hq1lt : (q < length h1)%nat) by lia.
    apply NoDup_ptrs_node in Hndg as (Hnda & Hndb & Hya & Hyb & Hdab).
    assert (Hyr : y ∈ ptrs (T rl x kx vx hx rr)) by (apply Hsub; in_ptrs).
    assert (Hqy : q <> y) by (intros ->; done).
    assert (HMy : M <> y).
    { intros ->. apply (HMg y); [in_ptrs|]. by left. }
    assert (Hqa : q ∉ ptrs a) by (intros Hx; apply Hqr, Hsub; in_ptrs).
    assert (Hqb : q ∉ ptrs b) by (intros Hx; apply Hqr, Hsub; in_ptrs).
    assert (Hyl : y ∉ ptrs l) by (intros Hx; by apply (Hdlr y)).
    eexists _, M, kM, vM. split.
    { cbn [root_of]. repeat step. rewrite (bind_ok _ _ _ _ _ Hrun). simp. run_all. }
    simp. hgt_simp. simp.
    split.
    { change (elems l ++ (q, (k, v)) :: elems (T rl x kx vx hx rr)
              = (elems l ++ (q, (k, v)) :: elems (T a y ky vy hy b))
                ++ [(M, (kM, vM))]).
      rewrite He. by rewrite <- app_assoc. }
    split.
    { cbn [fix_tree tree_at root_of]. split; [lk|]. split; [sub_tree|].
      split; [lk|]. split; sub_tree. }
    split; [lk|]. split; [reflexivity|]. split; [|by rewrite !length_insert].
    intros q0 Hq0. rewrite !list_lookup_insert_ne.
    + apply Hfr. intros Hx. apply Hq0.
      change (q0 ∈ ptrs l ++ q :: ptrs (T rl x kx vx hx rr)).
      apply elem_of_app. right. by right.
    + intros E. apply Hq0. rewrite <- E. in_ptrs.
    + intros E. apply Hq0. rewrite <- E.
      change (y ∈ ptrs l ++ q :: ptrs (T rl x kx vx hx rr)).
      apply elem_of_app. right. by right.
Qed.

Lemma gml_elems_node l p k v h r es e :
  r <> Leaf -> elems r = es ++ [e] ->
  forall e', elems (T l p k v h r) = elems (gml (T l p k v h r)) ++ [e'] ->
  e' = e /\ elems (gml r) = es.
Proof.
  intros Hr Her e'. rewrite (gml_node l p k v h r Hr).
  cbn [elems]. rewrite fix_tree_elems, Her.
  rewrite <- app_assoc. cbn [app]. intros H.
  apply app_inv_head in H. injection H as H.
  apply app_inj_tail in H as [H1 H2]. done.
Qed.

(** X17.  [Delete] of the key of a root with two children, when the last
    node in order has a left child: [GetMaxLeft], started at the root
    instead of its left child, takes the last node of the whole tree
    out and returns the root, which becomes its own left child; the
    last node is then put above the root and takes over its right
    subtree.  The map is left with the root, which keeps its key, the
    former last node and what was under the right child, in this order;
    the left subtree is no longer reachable. *)
Theorem Delete_of_a_root_with_two_children
    st this l p k v h r B fuel M kM vM es :
  holds st this (T l p k v h r) -> l <> Leaf -> max_left r <> Leaf ->
  elems r = es ++ [(M, (kM, vM))] ->
  NoDup (ptrs (T l p k v h r)) -> heights_in 1 B (T l p k v h r) ->
  0 <= B -> B + Z.of_nat (depth (T l p k v h r)) < 2 ^ 31 - 8 ->
  (depth (T l p k v h r) < fuel)%nat ->
  exists st' t',
    Delete fuel this k st = Ok (tt, st')
    /\ holds st' this t'
    /\ elems t' = (p, (k, v)) :: (M, (kM, vM)) :: es.
Proof.
  intros [Hv Ht] Hlne Hml Her Hnd Hin H0 HB Hf.
  assert (Hrne : r <> Leaf) by (intros ->; done).
  destruct fuel as [|fuel]; [lia|].
  destruct st as [hh V]. cbn [nodes vars root_of] in *. unfold AVLMap in *.
  pose proof (lookup_lt_Some _ _ _ Hv) as Hm.
  destruct (GetMaxLeft_spec (length (V ++ [None])) (T l p k v h r)
              (mkState hh ((V ++ [None]) ++ [None])) None fuel Ht Hnd)
    as ([h3 V3] & M' & kM' & vM' & Hrun & He & Ht3 & HM & HV & Hfr & Hlen).
  { done. }
  { by rewrite (max_left_node l p k v h r Hrne). }
  { cbn [vars]. rewrite lookup_snoc. eauto. }
  { lia. }
  destruct (gml_elems_node l p k v h r es _ Hrne Her _ He) as [[= -> -> ->] Hes].
  cbn [nodes vars] in *. subst V3.
  rewrite (max_left_node l p k v h r Hrne) in HM.
  rewrite (gml_node l p k v h r Hrne) in *.
  (* what the right subtree has become *)
  pose proof (gml_nonleaf r Hrne Hml) as Hgne.
  assert (Hing : heights_in 1 (B + Z.of_nat (depth r) + 1) (fix_tree (gml r))).
  { destruct Hin as (_ & _ & Hinr). cbn [depth] in HB.
    apply fix_tree_in; [apply gml_in; [done|done|lia]|lia|lia]. }
  assert (Hesr : elems (fix_tree (gml r)) = es) by (by rewrite fix_tree_elems).
  assert (Hpg : ptrs (T l p k v h r) = ptrs (T l p k v h (fix_tree (gml r))) ++ [M]).
  { rewrite !ptrs_elems, He, map_app. done. }
  rewrite Hpg in Hnd. apply NoDup_app in Hnd as (Hndg & HMg & _).
  destruct (fix_tree (gml r)) as [|a y ky vy hy b] eqn:Eg.
  { destruct (gml r); [done|discriminate]. }
  destruct l as [|ll lp lk lv lh lr]; [done|].
  pose proof Ht3 as (Hp3 & Hl3 & Hy3 & Ha3 & Hb3).
  cbn [root_of] in Hp3.
  pose proof (lookup_lt_Some _ _ _ Hp3) as Hplt.
  pose proof (lookup_lt_Some _ _ _ Hy3) as Hylt.
  pose proof (lookup_lt_Some _ _ _ HM) as HMlt.
  apply NoDup_ptrs_node in Hndg as (Hndl & Hndr & Hpl & Hpr & Hdlr).
  pose proof Hndr as Hndr'.
  apply NoDup_ptrs_node in Hndr' as (Hnda & Hndb & Hya & Hyb & Hdab).
  assert (HMr : M ∉ ptrs (T a y ky vy hy b)).
  { intros Hx. apply (HMg M); [|by left].
    change (M ∈ ptrs (T ll lp lk lv lh lr) ++ p :: ptrs (T a y ky vy hy b)).
    apply elem_of_app. right. by right. }
  assert (HpM : p <> M) by (intros ->; apply (HMg M); [in_ptrs|by left]).
  assert (HyM : y <> M) by (intros ->; apply (HMg M); [in_ptrs|by left]).
  assert (Hpy : p <> y) by (intros ->; apply Hpr; in_ptrs).
  assert (Hpa : p ∉ ptrs a) by (intros Hx; apply Hpr; in_ptrs).
  assert (Hpb : p ∉ ptrs b) by (intros Hx; apply Hpr; in_ptrs).
  assert (HMa : M ∉ ptrs a) by (intros Hx; apply (HMg M); [in_ptrs|by left]).
  assert (HMb : M ∉ ptrs b) by (intros Hx; apply (HMg M); [in_ptrs|by left]).
  (* the tree that is left, before [BalanceNode] *)
  set (t0 := T (T Leaf p k v h Leaf) M kM vM
               (fixh (T Leaf p k v h Leaf) (T a y ky vy hy b))
               (T a y ky vy hy b)).
  destruct (balance_in (B + Z.of_nat (depth r) + 2) t0) as (t' & Hbal & _).
  { destruct Hin as (Hh & _ & _).
    destruct (fixh_in (B + Z.of_nat (depth r) + 1) (T Leaf p k v h Leaf)
                (T a y ky vy hy b)) as [_ Hfx].
    - cbn. split; [lia|done].
    - done.
    - lia.
    - cbn [depth] in HB. lia.
    - apply heights_in_node; [lia| |].
      + cbn. split; [lia|done].
      + eapply heights_in_mono; [exact Hing|lia]. }
  { lia. }
  { cbn [depth] in HB. lia. }
  pose proof Ht as (Hp & _ & _). cbn [root_of] in Hp.
  cut (ends (Delete (S fuel) this k (mkState hh V))
         (fun _ st' => holds st' this t')).
  { intros H. apply ends_ok in H as ([] & st' & Hrun' & Hh).
    exists st', t'. split; [done|]. split; [done|].
    rewrite (balance_elems _ _ Hbal).
    change (elems t0) with ((p, (k, v)) :: (M, (kM, vM)) :: elems (T a y ky vy hy b)).
    by rewrite Hesr. }
  unfold Delete. cbn [Delete_rec]. unfold move_assign.
  repeat estep. rewrite Z.eqb_refl. repeat estep.
  eapply ends_bind; [exact Hrun|]. simp.
  repeat estep.
  eapply (Delete_tail _ _ _ t0 t' (Some p)).
  - unfold t0. finish_holds.
  - unfold t0. cbn [ptrs app]. apply NoDup_cons. split.
    + intros Hx. apply elem_of_cons in Hx as [Hx|Hx]; [done|]. by apply Hpr.
    + apply NoDup_cons. done.
  - done.
  - lk.
  - lia.
Qed.

(** * Rotations, [BalanceNode] and [operator[]] *)

Lemma fixh_exact l r :
  0 <= stored_height l < 2 ^ 31 - 1 -> 0 <= stored_height r < 2 ^ 31 - 1 ->
  fixh l r = 1 + Z.max (stored_height l) (stored_height r).
Proof.
  intros Hl Hr. unfold fixh.
  rewrite !to_int_small by zlia. rewrite to_uint32_small by zlia. done.
Qed.

(** X18.  [RotateLeft] on a reference that holds a node [p] with right child
    [q]: it returns, the reference then holds [q] over [p], the
    subtrees hang in order, the back-links are right, and both nodes
    store the height of what is under them, [p] first. *)
Theorem RotateLeft_lifts_the_right_child st s par a p kp vp hp b q kq vq hq c :
  slot_holds st s par (T a p kp vp hp (T b q kq vq hq c)) ->
  separate s (T a p kp vp hp (T b q kq vq hq c)) ->
  exists st',
    RotateLeft s st = Ok (tt, st')
    /\ slot_holds st' s par
         (T (T a p kp vp (fixh a b) b) q kq vq
            (fixh (T a p kp vp (fixh a b) b) c) c)
    /\ frame st st' s (T a p kp vp hp (T b q kq vq hq c))
    /\ (heights_ok a -> heights_ok b -> heights_ok c ->
        Z.of_nat (depth (T a p kp vp hp (T b q kq vq hq c))) < 2 ^ 31 - 1 ->
        heights_ok (T (T a p kp vp (fixh a b) b) q kq vq
                      (fixh (T a p kp vp (fixh a b) b) c) c)).
Proof.
  intros Hh Hsep.
  destruct (RotateLeft_spec st s par _ _ Hh Hsep eq_refl) as (st' & Hrun & Hh' & Hfr & _).
  exists st'. split; [done|]. split; [done|]. split; [done|].
  intros Ha Hb Hc Hd. cbn [depth] in Hd.
  pose proof (heights_ok_depth _ Ha) as Ea. pose proof (heights_ok_depth _ Hb) as Eb.
  pose proof (heights_ok_depth _ Hc) as Ec.
  assert (E1 : fixh a b = 1 + Z.max (stored_height a) (stored_height b))
    by (apply fixh_exact; zlia).
  assert (E2 : fixh (T a p kp vp (fixh a b) b) c
               = 1 + Z.max (fixh a b) (stored_height c))
    by (apply fixh_exact; cbn [stored_height]; zlia).
  cbn [heights_ok stored_height]. rewrite E2, E1. done.
Qed.

(** X19.  [RotateRight] on a reference that holds a node [q] with left child
    [p]: it returns and the reference then holds [p] over [q], but the
    height is recomputed for [p] both times and [q] keeps the height it
    stored above [p]; where the heights were right and the left side
    was the higher one, as whenever [BalanceNode] calls it, they no
    longer are. *)
Theorem RotateRight_keeps_the_height_of_the_lowered_node
    st s par a p kp vp hp b q kq vq hq c :
  slot_holds st s par (T (T a p kp vp hp b) q kq vq hq c) ->
  separate s (T (T a p kp vp hp b) q kq vq hq c) ->
  exists st',
    RotateRight s st = Ok (tt, st')
    /\ slot_holds st' s par
         (T a p kp vp (fixh a (T b q kq vq hq c)) (T b q kq vq hq c))
    /\ frame st st' s (T (T a p kp vp hp b) q kq vq hq c)
    /\ (heights_ok (T (T a p kp vp hp b) q kq vq hq c) ->
        stored_height c < hp ->
        ~ heights_ok (T a p kp vp (fixh a (T b q kq vq hq c)) (T b q kq vq hq c))).
Proof.
  intros Hh Hsep.
  destruct (RotateRight_spec st s par _ _ Hh Hsep eq_refl) as (st' & Hrun & Hh' & Hfr & _).
  exists st'. split; [done|]. split; [done|]. split; [done|].
  cbn [heights_ok stored_height]. intros (Eq & (Ep & _) & _) Hlt (_ & _ & Eq' & _). lia.
Qed.

(** X20.  A rotation on a node that lacks the child to lift goes through the
    null pointer. *)
Theorem rotations_need_the_child_they_lift st s par a p k v h c :
  (slot_holds st s par (T a p k v h Leaf) -> RotateLeft s st = Err NullDeref)
  /\ (slot_holds st s par (T Leaf p k v h c) -> RotateRight s st = Err NullDeref).
Proof.
  split; intros [Hget (Hp & _)].
  - unfold RotateLeft.
    rewrite (bind_ok _ _ _ _ _ (arrow_ok _ _ _ _ Hget eq_refl)).
    rewrite (bind_ok _ _ _ _ _ (get_right_ok _ _ _ Hp)). reflexivity.
  - unfold RotateRight.
    rewrite (bind_ok _ _ _ _ _ (arrow_ok _ _ _ _ Hget eq_refl)).
    rewrite (bind_ok _ _ _ _ _ (get_left_ok _ _ _ Hp)). reflexivity.
Qed.

(** X21.  [BalanceNode] on a reference to a tree whose stored heights fit: it
    returns, the reference holds the tree [balance] computes, the
    entries are the same in the same order, and where the stored balance
    factor is neither 2 nor -2 the state is not touched. *)
Theorem BalanceNode_keeps_the_entries st s par t B :
  slot_holds st s par t -> separate s t ->
  heights_in 1 B t -> 0 <= B -> B < 2 ^ 31 - 3 ->
  exists st' t',
    BalanceNode s st = Ok (tt, st')
    /\ slot_holds st' s par t'
    /\ balance t = Some t'
    /\ elems t' = elems t
    /\ frame st st' s t
    /\ (bfactor t <> 2 -> bfactor t <> -2 -> st' = st).
Proof.
  intros Hh Hsep Hin H0 HB.
  destruct (balance_in B t Hin H0 HB) as (t' & Hbal & _).
  destruct (BalanceNode_spec st s par t t' Hh Hsep Hbal) as (st' & Hrun & Hh' & Hfr & _).
  exists st', t'. split; [done|]. split; [done|]. split; [done|].
  split; [by apply balance_elems|]. split; [done|].
  intros H2 Hm2. pose proof (BalanceNode_same _ _ _ _ Hh H2 Hm2) as Hsame.
  congruence.
Qed.

Lemma balance_left_rotation a p kp vp hp b q kq vq hq c :
  heights_ok (T a p kp vp hp (T b q kq vq hq c)) ->
  balanced a -> balanced b -> balanced c ->
  Z.of_nat (depth (T a p kp vp hp (T b q kq vq hq c))) < 2 ^ 31 - 1 ->
  hq - stored_height a = 2 ->
  0 <= stored_height c - stored_height b <= 1 ->
  exists t',
    balance (T a p kp vp hp (T b q kq vq hq c)) = Some t'
    /\ keys t' = keys (T a p kp vp hp (T b q kq vq hq c))
    /\ heights_ok t' /\ balanced t'.
Proof.
  intros (Ep & Ha & Eq & Hb & Hc) Hba Hbb Hbc Hd E2 E1. cbn [stored_height] in *.
  cbn [depth] in Hd.
  pose proof (heights_ok_depth _ Ha) as Ea. pose proof (heights_ok_depth _ Hb) as Eb.
  pose proof (heights_ok_depth _ Hc) as Ec.
  assert (F1 : fixh a b = 1 + Z.max (stored_height a) (stored_height b))
    by (apply fixh_exact; zlia).
  assert (F2 : fixh (T a p kp vp (fixh a b) b) c
               = 1 + Z.max (fixh a b) (stored_height c))
    by (apply fixh_exact; cbn [stored_height]; zlia).
  eexists. split; [|split; [|split]].
  - unfold balance. cbn [bfactor stored_height].
    rewrite (to_int_small hq), (to_int_small (stored_height a)) by zlia.
    rewrite (to_int_small (hq - stored_height a)) by zlia.
    rewrite E2. cbn [Z.eqb Pos.eqb].
    rewrite (to_int_small (stored_height c)), (to_int_small (stored_height b)) by zlia.
    rewrite (to_int_small (stored_height c - stored_height b)) by zlia.
    destruct (Z.eqb_spec (stored_height c - stored_height b) (-1)); [lia|].
    reflexivity.
  - cbn [keys]. by rewrite <- app_assoc.
  - cbn [heights_ok stored_height]. rewrite F2, F1. done.
  - cbn [balanced stored_height]. rewrite F1. repeat split; try done; lia.
Qed.

(** X22.  [BalanceNode] on a node whose right side is two higher, over a
    right child that does not lean left, where the stored heights are
    right: the single left rotation leaves a tree with the same keys
    in order that is balanced and stores the right heights. *)
Theorem BalanceNode_by_a_left_rotation st s par a p kp vp hp b q kq vq hq c :
  slot_holds st s par (T a p kp vp hp (T b q kq vq hq c)) ->
  separate s (T a p kp vp hp (T b q kq vq hq c)) ->
  heights_ok (T a p kp vp hp (T b q kq vq hq c)) ->
  balanced a -> balanced b -> balanced c ->
  Z.of_nat (depth (T a p kp vp hp (T b q kq vq hq c))) < 2 ^ 31 - 1 ->
  hq - stored_height a = 2 ->
  0 <= stored_height c - stored_height b <= 1 ->
  exists st' t',
    BalanceNode s st = Ok (tt, st')
    /\ slot_holds st' s par t'
    /\ keys t' = keys (T a p kp vp hp (T b q kq vq hq c))
    /\ heights_ok t' /\ balanced t'.
Proof.
  intros Hh Hsep Hok Hba Hbb Hbc Hd E2 E1.
  destruct (balance_left_rotation a p kp vp hp b q kq vq hq c Hok Hba Hbb Hbc Hd E2 E1)
    as (t' & Hbal & Hk & Hok' & Hbal').
  destruct (BalanceNode_spec st s par _ t' Hh Hsep Hbal) as (st' & Hrun & Hh' & _).
  exists st', t'. done.
Qed.

(** X23.  [operator[]]: on a key of the map it returns the node of the key
    and changes nothing; on a new key it inserts the key with the value
    0 and returns the new entry, and the strict order is kept. *)
Theorem operator_index_finds_or_inserts st this t key B fuel :
  holds st this t -> bst t ->
  heights_in 1 B t -> 0 <= B -> B + 4 * (Z.of_nat (depth t) + 1) < 2 ^ 31 ->
  (S (length (keys t)) < fuel)%nat ->
  (key ∈ keys t ->
   exists p n,
     operator_index fuel this key st = Ok (p, st)
     /\ p ∈ ptrs t /\ nodes st !! p = Some n /\ Node.key n = key)
  /\ (key ∉ keys t ->
      exists st' t' p n,
        operator_index fuel this key st = Ok (p, st')
        /\ holds st' this t' /\ bst t'
        /\ keys t' ≡ₚ key :: keys t
        /\ nodes st' !! p = Some n /\ Node.key n = key /\ Node.value n = 0).
Proof.
  intros Hh Hb Hin H0 Hfit Hf. pose proof Hh as [Hv Ht].
  pose proof (depth_le_size t) as Hd.
  assert (Hc : Contains fuel this key st = Ok (bool_decide (key ∈ keys t), st)).
  { unfold Contains. unfold AVLMap in *.
    rewrite (bind_ok _ _ _ _ _ (get_var_ok _ _ _ Hv)).
    apply (Contains_rec_ordered st None t key fuel Ht (bst_ordered _ Hb)). lia. }
  unfold operator_index. rewrite (bind_ok _ _ _ _ _ Hc). split.
  - intros Hkey. rewrite bool_decide_eq_true_2 by done. cbn [negb when].
    rewrite bind_ret. unfold Get. unfold AVLMap in *.
    rewrite (bind_ok _ _ _ _ _ (get_var_ok _ _ _ Hv)).
    apply (Get_rec_present st None t key fuel Ht (bst_ordered _ Hb)); [lia|done].
  - intros Hnot. rewrite bool_decide_eq_false_2 by done. cbn [negb when].
    destruct (Insert_Get_run st this t key 0 B fuel Hh Hb Hin H0 Hfit Hf)
      as (st' & t' & p & n & H1 & H2 & H3 & H4 & H5 & H6 & H7 & H8 & _).
    rewrite (bind_ok _ _ _ _ _ H1).
    exists st', t', p, n. split; [done|]. split; [done|]. split; [by apply H4|]. done.
Qed.

(** * A sequence of insertions *)

Lemma keys_entries t : keys t = map fst (entries t).
Proof. unfold entries. rewrite keys_elems, map_map. reflexivity. Qed.

Lemma ins_elems_entries a key val t :
  key ∉ keys t ->
  map snd (ins_elems a key val t) ≡ₚ (key, val) :: entries t.
Proof.
  unfold entries.
  induction t as [|l IHl p k v h r IHr]; cbn [ins_elems elems keys]; [done|].
  rewrite elem_of_keys_node. intros Hnot.
  destruct (Z.eqb_spec k key) as [->|Hne]; [exfalso; apply Hnot; auto|].
  destruct (k >? key); rewrite !map_app; cbn [map snd].
  - rewrite IHl by (intros Hx; apply Hnot; auto). reflexivity.
  - rewrite IHr by (intros Hx; apply Hnot; auto). apply perm_mid.
Qed.

Lemma entry_unique (es : list (KeyT * ValT)) k v v' :
  NoDup (map fst es) -> (k, v) ∈ es -> (k, v') ∈ es -> v = v'.
Proof.
  induction es as [|[k0 v0] es IH]; cbn [map fst].
  - intros _ H. by apply not_elem_of_nil in H.
  - rewrite NoDup_cons. intros [Hk Hnd]. rewrite !elem_of_cons.
    intros [E1|H1] [E2|H2].
    + congruence.
    + injection E1 as -> ->. exfalso. apply Hk. apply (list_elem_of_fmap_2 fst _ _ H2).
    + injection E2 as -> ->. exfalso. apply Hk. apply (list_elem_of_fmap_2 fst _ _ H1).
    + by apply IH.
Qed.

Lemma Get_entry st this t k v fuel :
  holds st this t -> bst t -> (depth t < fuel)%nat -> (k, v) ∈ entries t ->
  exists p n, Get fuel this k st = Ok (p, st)
              /\ nodes st !! p = Some n /\ Node.key n = k /\ Node.value n = v.
Proof.
  intros [Hv Ht] Hb Hf Hin.
  assert (Hk : k ∈ keys t).
  { rewrite keys_entries. apply (list_elem_of_fmap_2 fst _ _ Hin). }
  destruct (Get_rec_present st None t k fuel Ht (bst_ordered _ Hb) Hf Hk)
    as (p & n & Hget & Hp & Hn & Hkn).
  exists p, n. unfold Get. unfold AVLMap in *.
  rewrite (bind_ok _ _ _ _ _ (get_var_ok _ _ _ Hv)).
  split; [done|]. split; [done|]. split; [done|]. symmetry.
  pose proof (elems_lookup _ _ _ _ _ Ht Hp Hn) as He.
  apply (list_elem_of_fmap_2 snd) in He. cbn [snd] in He. rewrite Hkn in He.
  apply (entry_unique (entries t) k v (Node.value n)); [|exact Hin|exact He].
  rewrite <- keys_entries. apply sorted_lt_NoDup. by apply bst_sorted.
Qed.

Lemma run_inserts this fuel kvs : forall st t B,
  holds st this t -> bst t -> heights_in 1 B t -> 0 <= B ->
  NoDup (map fst kvs) -> (forall k, k ∈ map fst kvs -> k ∉ keys t) ->
  B + 4 * (Z.of_nat (length (keys t) + length kvs) + 1) * Z.of_nat (length kvs)
    < 2 ^ 31 ->
  (length (keys t) + length kvs + 1 < fuel)%nat ->
  exists st' t',
    run_ops fuel this (inserts kvs) st = Ok (tt, st')
    /\ holds st' this t'
    /\ bst t'
    /\ entries t' ≡ₚ kvs ++ entries t.
Proof.
  induction kvs as [|[k v] kvs IH]; intros st t B Hh Hb Hin H0 Hnd Hfresh Hfit Hf.
  { exists st, t. done. }
  cbn [map fst] in Hnd, Hfresh. apply NoDup_cons in Hnd as [Hk Hnd].
  cbn [length] in Hfit, Hf.
  pose proof (depth_le_size t) as Hd. pose proof Hh as [_ Ht].
  set (N := (length (keys t) + S (length kvs))%nat) in *.
  assert (HkT : k ∉ keys t) by (apply Hfresh; apply elem_of_cons; by left).
  destruct (Insert_run st this t k v B fuel Hh (bst_NoDup_ptrs _ _ _ Ht Hb) Hin H0)
    as (st1 & t1 & Hrun & Hh1 & He & Hin1 & _); [nia|lia|].
  assert (Hk1 : keys t1 = map entry_key (ins_elems (length (nodes st)) k v t)).
  { rewrite keys_elems, He. reflexivity. }
  assert (Hp1 : keys t1 ≡ₚ k :: keys t) by (rewrite Hk1; apply ins_elems_keys).
  assert (Hb1 : bst t1).
  { apply bst_sorted. rewrite Hk1. apply ins_sorted_lt; [|done]. by apply bst_sorted. }
  assert (Hl1 : length (keys t1) = S (length (keys t))) by (by rewrite Hp1).
  destruct (IH st1 t1 (B + 4 * (Z.of_nat N + 1))) as (st' & t' & Hrun' & Hh' & Hb' & Hent).
  - done.
  - done.
  - eapply heights_in_mono; [exact Hin1|]. unfold N. lia.
  - lia.
  - done.
  - intros x Hx. rewrite Hp1. intros Hx'. apply elem_of_cons in Hx' as [->|Hx']; [done|].
    apply (Hfresh x); [|done]. apply elem_of_cons. by right.
  - rewrite Hl1. replace (S (length (keys t)) + length kvs)%nat with N by (unfold N; lia).
    nia.
  - rewrite Hl1. unfold N in *. lia.
  - exists st', t'. cbn [inserts map run_ops run_op fst snd].
    rewrite (bind_ok _ _ _ _ _ Hrun). split; [exact Hrun'|]. split; [done|].
    split; [done|]. rewrite Hent. unfold entries at 1. rewrite He.
    rewrite ins_elems_entries by done. cbn [app].
    symmetry. apply Permutation_middle.
Qed.

(** X24.  A program that inserts pairwise different keys into a new map, as
    [main] does: the map then holds a search tree with exactly the
    inserted pairs, the forward loop gives the keys in ascending order,
    and [Get] finds for every key the value inserted with it. *)
Theorem inserted_pairs_are_found kvs fuel :
  NoDup (map fst kvs) -> Z.of_nat (length kvs) <= 20000 ->
  (length kvs + 1 < fuel)%nat ->
  exists m st t,
    build fuel (inserts kvs) empty_state = Ok (m, st)
    /\ holds st m t
    /\ bst t
    /\ entries t ≡ₚ kvs
    /\ forward_keys fuel m st = Ok (keys t, st)
    /\ StronglySorted Z.lt (keys t)
    /\ (forall k v, (k, v) ∈ kvs ->
        exists p n, Get fuel m k st = Ok (p, st)
                    /\ nodes st !! p = Some n
                    /\ Node.key n = k /\ Node.value n = v).
Proof.
  intros Hnd Hlen Hf.
  destruct (run_inserts 0%nat fuel kvs (mkState [] [None]) Leaf 0)
    as (st & t & Hrun & Hh & Hb & Hent).
  - done.
  - done.
  - done.
  - done.
  - done.
  - intros k _ Hk. by apply not_elem_of_nil in Hk.
  - cbn [keys length Nat.add]. change (2 ^ 31) with 2147483648.
    assert (Z.of_nat (length kvs) * Z.of_nat (length kvs) <= 400000000) by nia.
    lia.
  - cbn [keys length Nat.add]. lia.
  - rewrite app_nil_r in Hent.
    assert (Hsz : length (keys t) = length kvs).
    { rewrite keys_entries, length_map. by rewrite Hent. }
    exists 0%nat, st, t. split.
    { unfold build, AVLMap_new.
      rewrite (bind_ok _ _ _ _ _ (new_var_ok empty_state)).
      change (mkState (nodes empty_state) (vars empty_state ++ [None]))
        with (mkState [] [None]).
      change (length (vars empty_state)) with 0%nat.
      rewrite (bind_ok _ _ _ _ _ Hrun). reflexivity. }
    split; [done|]. split; [done|]. split; [done|].
    split; [apply forward_keys_run; [done|done|lia]|].
    split; [by apply bst_sorted|].
    intros k v Hin. apply (Get_entry st 0%nat t k v fuel Hh Hb).
    + pose proof (depth_le_size t). lia.
    + by rewrite Hent.
Qed.

(** * Observers on a copy *)

Lemma same_content_entries t t' : same_content t t' -> entries t' = entries t.
Proof.
  unfold entries. revert t'.
  induction t as [|l IHl p k v h r IHr]; intros [|l' p' k' v' h' r']; cbn [same_content];
    try done.
  intros (-> & -> & -> & Hl & Hr). cbn [elems]. rewrite !map_app. cbn [map snd].
  by rewrite (IHl _ Hl), (IHr _ Hr).
Qed.

Lemma same_content_height t t' :
  same_content t t' -> stored_height t' = stored_height t.
Proof. destruct t, t'; cbn; try done. by intros (_ & _ & -> & _). Qed.

(** X25.  The copy constructor, then the observers on the copy: the forward
    loop gives the keys of the original, [Contains], [Get] and
    [TreeHeight] answer as on the original, and the original still
    answers the same. *)
Theorem a_copy_is_observed_like_the_original st other t fuel :
  holds st other t -> bst t -> (length (keys t) < fuel)%nat ->
  exists st' this,
    AVLMap_copy fuel other st = Ok (this, st')
    /\ this <> other
    /\ forward_keys fuel this st' = Ok (keys t, st')
    /\ forward_keys fuel other st' = Ok (keys t, st')
    /\ (forall key,
          Contains fuel this key st' = Ok (bool_decide (key ∈ keys t), st'))
    /\ (forall k v, (k, v) ∈ entries t ->
          exists p n, Get fuel this k st' = Ok (p, st')
                      /\ nodes st' !! p = Some n
                      /\ Node.key n = k /\ Node.value n = v)
    /\ TreeHeight this st' = TreeHeight other st'.
Proof.
  intros Hh Hb Hf. pose proof Hh as [Hv Ht]. unfold AVLMap in *.
  pose proof (depth_le_size t) as Hd.
  pose proof (lookup_lt_Some _ _ _ Hv) as Hother.
  set (st1 := mkState (nodes st) (vars st ++ [None])).
  destruct (copy_into st1 (length (vars st)) other t fuel)
    as (st' & t' & Hrun & Horig & _ & Hcopy & Hsame & _).
  { split; cbn; [|done]. by rewrite lookup_app_l. }
  { lia. }
  { cbn. rewrite length_app. cbn. lia. }
  { lia. }
  pose proof (same_content_entries _ _ Hsame) as He.
  assert (Hk : keys t' = keys t) by (by rewrite !keys_entries, He).
  assert (Hb' : bst t') by (apply bst_sorted; rewrite Hk; by apply bst_sorted).
  pose proof (depth_le_size t') as Hd'. rewrite Hk in Hd'.
  exists st', (length (vars st)). split.
  { unfold AVLMap_copy.
    rewrite (bind_ok _ _ _ _ _ (new_var_ok st)). fold st1.
    unfold bind in Hrun |- *.
    destruct (get (Var other) st1) as [[r s1]|]; [|done].
    destruct (MakeCopy fuel r s1) as [[c s2]|]; [|done].
    rewrite Hrun. reflexivity. }
  split; [lia|].
  split; [rewrite <- Hk; apply forward_keys_run; [done|done|by rewrite Hk]|].
  split; [by apply forward_keys_run|].
  destruct Hcopy as [Hv' Ht']. destruct Horig as [Hvo Hto].
  split; [|split].
  - intros key. unfold Contains.
    rewrite (bind_ok _ _ _ _ _ (get_var_ok _ _ _ Hv')).
    rewrite (Contains_rec_ordered st' None t' key fuel Ht' (bst_ordered _ Hb'))
      by lia.
    by rewrite Hk.
  - intros k v Hin. apply (Get_entry st' (length (vars st)) t' k v fuel);
      [done|done|lia|by rewrite He].
  - unfold TreeHeight.
    rewrite (bind_ok _ _ _ _ _ (get_var_ok _ _ _ Hv')).
    rewrite (bind_ok _ _ _ _ _ (get_var_ok _ _ _ Hvo)).
    rewrite (bind_ok _ _ _ _ _ (height_root_of _ _ _ Ht')).
    rewrite (bind_ok _ _ _ _ _ (height_root_of _ _ _ Hto)).
    by rewrite (same_content_height _ _ Hsame).
Qed.

Lemma a_copy_of_three_nodes :
  exists st' this,
    AVLMap_copy 4 0%nat three_nodes = Ok (this, st')
    /\ this <> 0%nat
    /\ forward_keys 4 this st' = Ok (keys three_tree, st')
    /\ forward_keys 4 0%nat st' = Ok (keys three_tree, st')
    /\ (forall key,
          Contains 4 this key st' = Ok (bool_decide (key ∈ keys three_tree), st'))
    /\ (forall k v, (k, v) ∈ entries three_tree ->
          exists p n, Get 4 this k st' = Ok (p, st')
                      /\ nodes st' !! p = Some n
                      /\ Node.key n = k /\ Node.value n = v)
    /\ TreeHeight this st' = TreeHeight 0%nat st'.
Proof.
  apply (a_copy_is_observed_like_the_original three_nodes 0%nat three_tree 4).
  - repeat split; reflexivity.
  - cbn; repeat split; repeat constructor; lia.
  - cbn. lia.
Defined.

(** * Instances *)

Ltac holds_tac := repeat split; reflexivity.
Ltac notin_tac :=
  let H := fresh in
  intros H; repeat (apply elem_of_cons in H as [H|H]; [lia|]);
  exact (not_elem_of_nil _ H).
Ltac nodup_tac :=
  cbn; repeat (apply NoDup_cons; split; [notin_tac|]); apply NoDup_nil_2.
Ltac arith_tac := cbn; change (2 ^ 31) with 2147483648; lia.
Ltac bst_tac := cbn; repeat split; repeat constructor; lia.
Ltac sep_tac := split; [nodup_tac|split; [intros ? [=]|intros ? [=]]].

Lemma Insert_entries_on_three_nodes :
  exists st' t',
    Insert 3 0%nat 3 9 three_nodes = Ok (tt, st')
    /\ holds st' 0%nat t'
    /\ elems t' = ins_elems (length (nodes three_nodes)) 3 9 three_tree
    /\ NoDup (ptrs t')
    /\ heights_in 1 (2 + 4 * (Z.of_nat (depth three_tree) + 1)) t'
    /\ outside three_nodes st' 0%nat three_tree
    /\ length (nodes st') = S (length (nodes three_nodes)).
Proof.
  apply (Insert_entries three_nodes 0%nat three_tree 3 9 2 3).
  - holds_tac.
  - nodup_tac.
  - arith_tac.
  - lia.
  - arith_tac.
  - cbn. lia.
Defined.

Lemma Insert_keys_on_three_nodes :
  exists st' t',
    Insert 3 0%nat 1 9 three_nodes = Ok (tt, st')
    /\ holds st' 0%nat t'
    /\ keys t' ≡ₚ 1 :: keys three_tree
    /\ (ordered three_tree -> ordered t')
    /\ (bst three_tree -> 1 ∉ keys three_tree -> bst t').
Proof.
  apply (Insert_keys three_nodes 0%nat three_tree 1 9 2 3).
  - holds_tac.
  - nodup_tac.
  - arith_tac.
  - lia.
  - arith_tac.
  - cbn. lia.
Defined.

Lemma Insert_then_Get_on_three_nodes :
  exists st' p n,
    Insert 5 0%nat 3 9 three_nodes = Ok (tt, st')
    /\ Get 5 0%nat 3 st' = Ok (p, st')
    /\ nodes st' !! p = Some n
    /\ Node.key n = 3
    /\ Node.value n = 9
    /\ Contains 5 0%nat 3 st' = Ok (true, st').
Proof.
  apply (Insert_then_Get three_nodes 0%nat three_tree 3 9 2 5).
  - holds_tac.
  - bst_tac.
  - arith_tac.
  - lia.
  - arith_tac.
  - cbn. lia.
Defined.

Lemma TreeHeight_of_three_nodes :
  TreeHeight 0%nat three_nodes = Ok (Z.of_nat (depth three_tree), three_nodes).
Proof.
  apply (TreeHeight_is_the_depth three_nodes 0%nat three_tree).
  - holds_tac.
  - cbn. lia.
  - arith_tac.
Defined.

Lemma begin_of_three_nodes :
  begin 3 0%nat three_nodes
  = Ok (mkIterator (head (ptrs three_tree)) (root_of three_tree), three_nodes)
  /\ end_ 0%nat three_nodes = Ok (mkIterator None (root_of three_tree), three_nodes)
  /\ GetRight 3 (root_of three_tree) three_nodes
     = Ok (last (ptrs three_tree), three_nodes).
Proof.
  apply (begin_is_the_first_node three_nodes 0%nat three_tree 3).
  - holds_tac.
  - cbn. lia.
Defined.

Lemma operator_incr_on_three_nodes :
  operator_incr 3 (mkIterator (Some 0%nat) (Some 0%nat)) three_nodes
  = Ok (mkIterator (head [2%nat]) (Some 0%nat), three_nodes).
Proof.
  apply (operator_incr_is_the_successor three_nodes 0%nat three_tree 3
           (Some 0%nat) [1%nat] 0%nat [2%nat]).
  - holds_tac.
  - bst_tac.
  - cbn. lia.
  - reflexivity.
Defined.

Lemma forward_keys_of_three_nodes :
  forward_keys 4 0%nat three_nodes = Ok (keys three_tree, three_nodes)
  /\ StronglySorted Z.lt (keys three_tree).
Proof.
  apply (forward_keys_are_the_keys three_nodes 0%nat three_tree 4).
  - holds_tac.
  - bst_tac.
  - cbn. lia.
Defined.

Lemma Delete_of_a_child_key_of_three_nodes :
  Delete 3 0%nat 0 three_nodes = Ok (tt, three_nodes).
Proof.
  apply (Delete_only_reaches_the_root three_nodes 0%nat
           (T Leaf 1%nat 0 5 1 Leaf) 0%nat 1 10 2 (T Leaf 2%nat 2 7 1 Leaf) 0 3).
  - holds_tac.
  - split; [bst_tac|]. split; [cbn; lia|]. split; [cbn; lia|]. nodup_tac.
  - arith_tac.
  - cbn. lia.
  - lia.
Defined.

Lemma Delete_of_one_node :
  Delete 1 0%nat 1 one_node = Err NullDeref.
Proof.
  apply (Delete_of_the_only_node one_node 0%nat 0%nat 1 10 1 1).
  - holds_tac.
  - lia.
Defined.

Lemma Delete_of_the_root_of_right_chain :
  exists st' t',
    Delete 1 0%nat 1 right_chain = Ok (tt, st')
    /\ holds st' 0%nat t'
    /\ balance (fix_tree (T Leaf 1%nat 2 20 2 (T Leaf 2%nat 3 30 1 Leaf))) = Some t'
    /\ elems t' = elems (T Leaf 1%nat 2 20 2 (T Leaf 2%nat 3 30 1 Leaf)).
Proof.
  apply (Delete_of_a_root_without_left_child right_chain 0%nat 0%nat 1 10 3
           (T Leaf 1%nat 2 20 2 (T Leaf 2%nat 3 30 1 Leaf)) 2 1).
  - holds_tac.
  - discriminate.
  - nodup_tac.
  - arith_tac.
  - lia.
  - arith_tac.
  - lia.
Defined.

Lemma Delete_of_the_root_of_left_pair :
  exists st' t',
    Delete 2 0%nat 1 left_pair = Ok (tt, st')
    /\ holds st' 0%nat t'
    /\ balance (fix_tree left_pair_tree) = Some t'
    /\ elems t' = elems left_pair_tree.
Proof.
  apply (Delete_of_a_root_with_a_left_child_only left_pair 0%nat
           (T Leaf 1%nat 0 5 1 Leaf) 0%nat 1 10 2 2 2).
  - holds_tac.
  - discriminate.
  - nodup_tac.
  - arith_tac.
  - lia.
  - arith_tac.
  - lia.
Defined.

Lemma Delete_of_the_root_of_three_nodes :
  Delete 3 0%nat 1 three_nodes = Err NullDeref.
Proof.
  apply (Delete_goes_through_null_at_the_maximum three_nodes 0%nat
           (T Leaf 1%nat 0 5 1 Leaf) 0%nat 1 10 2 (T Leaf 2%nat 2 7 1 Leaf) 3).
  - holds_tac.
  - discriminate.
  - reflexivity.
  - cbn. lia.
Defined.

Lemma Delete_of_the_root_of_four_nodes :
  exists st' t',
    Delete 4 0%nat 1 four_nodes = Ok (tt, st')
    /\ holds st' 0%nat t'
    /\ elems t' = (0%nat, (1, 1)) :: (2%nat, (3, 3)) :: [(3%nat, (2, 2))].
Proof.
  apply (Delete_of_a_root_with_two_children four_nodes 0%nat
           (T Leaf 1%nat 0 0 1 Leaf) 0%nat 1 1 3
           (T (T Leaf 3%nat 2 2 1 Leaf) 2%nat 3 3 2 Leaf) 3 4 2%nat 3 3
           [(3%nat, (2, 2))]).
  - holds_tac.
  - discriminate.
  - discriminate.
  - reflexivity.
  - nodup_tac.
  - arith_tac.
  - lia.
  - arith_tac.
  - cbn. lia.
Defined.

Lemma RotateLeft_on_three_nodes :
  exists st',
    RotateLeft (Var 0%nat) three_nodes = Ok (tt, st')
    /\ slot_holds st' (Var 0%nat) None
         (T (T (T Leaf 1%nat 0 5 1 Leaf) 0%nat 1 10
               (fixh (T Leaf 1%nat 0 5 1 Leaf) Leaf) Leaf)
            2%nat 2 7
            (fixh (T (T Leaf 1%nat 0 5 1 Leaf) 0%nat 1 10
                     (fixh (T Leaf 1%nat 0 5 1 Leaf) Leaf) Leaf) Leaf)
            Leaf)
    /\ frame three_nodes st' (Var 0%nat) three_tree
    /\ (heights_ok (T Leaf 1%nat 0 5 1 Leaf) -> heights_ok Leaf -> heights_ok Leaf ->
        Z.of_nat (depth three_tree) < 2 ^ 31 - 1 ->
        heights_ok
          (T (T (T Leaf 1%nat 0 5 1 Leaf) 0%nat 1 10
                (fixh (T Leaf 1%nat 0 5 1 Leaf) Leaf) Leaf)
             2%nat 2 7
             (fixh (T (T Leaf 1%nat 0 5 1 Leaf) 0%nat 1 10
                      (fixh (T Leaf 1%nat 0 5 1 Leaf) Leaf) Leaf) Leaf)
             Leaf)).
Proof.
  apply (RotateLeft_lifts_the_right_child three_nodes (Var 0%nat) None
           (T Leaf 1%nat 0 5 1 Leaf) 0%nat 1 10 2 Leaf 2%nat 2 7 1 Leaf).
  - holds_tac.
  - sep_tac.
Defined.

Lemma RotateRight_on_left_pair :
  exists st',
    RotateRight (Var 0%nat) left_pair = Ok (tt, st')
    /\ slot_holds st' (Var 0%nat) None
         (T Leaf 1%nat 0 5 (fixh Leaf (T Leaf 0%nat 1 10 2 Leaf))
            (T Leaf 0%nat 1 10 2 Leaf))
    /\ frame left_pair st' (Var 0%nat) left_pair_tree
    /\ ~ heights_ok
          (T Leaf 1%nat 0 5 (fixh Leaf (T Leaf 0%nat 1 10 2 Leaf))
             (T Leaf 0%nat 1 10 2 Leaf)).
Proof.
  destruct (RotateRight_keeps_the_height_of_the_lowered_node left_pair (Var 0%nat) None
              Leaf 1%nat 0 5 1 Leaf 0%nat 1 10 2 Leaf)
    as (st' & Hrun & Hholds & Hframe & Hstale).
  - holds_tac.
  - sep_tac.
  - exists st'. split; [exact Hrun|]. split; [exact Hholds|]. split; [exact Hframe|].
    apply Hstale.
    + cbn. lia.
    + cbn. lia.
Defined.

Lemma BalanceNode_on_three_nodes :
  exists st' t',
    BalanceNode (Var 0%nat) three_nodes = Ok (tt, st')
    /\ slot_holds st' (Var 0%nat) None t'
    /\ balance three_tree = Some t'
    /\ elems t' = elems three_tree
    /\ frame three_nodes st' (Var 0%nat) three_tree
    /\ (bfactor three_tree <> 2 -> bfactor three_tree <> -2 -> st' = three_nodes).
Proof.
  apply (BalanceNode_keeps_the_entries three_nodes (Var 0%nat) None three_tree 2).
  - holds_tac.
  - sep_tac.
  - arith_tac.
  - lia.
  - arith_tac.
Defined.

Lemma BalanceNode_on_right_chain :
  exists st' t',
    BalanceNode (Var 0%nat) right_chain = Ok (tt, st')
    /\ slot_holds st' (Var 0%nat) None t'
    /\ keys t' = keys right_chain_tree
    /\ heights_ok t' /\ balanced t'.
Proof.
  apply (BalanceNode_by_a_left_rotation right_chain (Var 0%nat) None
           Leaf 0%nat 1 10 3 Leaf 1%nat 2 20 2 (T Leaf 2%nat 3 30 1 Leaf)).
  - holds_tac.
  - sep_tac.
  - cbn. lia.
  - exact I.
  - exact I.
  - cbn. lia.
  - arith_tac.
  - reflexivity.
  - cbn. lia.
Defined.

Lemma operator_index_on_three_nodes :
  (2 ∈ keys three_tree ->
   exists p n,
     operator_index 5 0%nat 2 three_nodes = Ok (p, three_nodes)
     /\ p ∈ ptrs three_tree /\ nodes three_nodes !! p = Some n /\ Node.key n = 2)
  /\ (2 ∉ keys three_tree ->
      exists st' t' p n,
        operator_index 5 0%nat 2 three_nodes = Ok (p, st')
        /\ holds st' 0%nat t' /\ bst t'
        /\ keys t' ≡ₚ 2 :: keys three_tree
        /\ nodes st' !! p = Some n /\ Node.key n = 2 /\ Node.value n = 0).
Proof.
  apply (operator_index_finds_or_inserts three_nodes 0%nat three_tree 2 2 5).
  - holds_tac.
  - bst_tac.
  - arith_tac.
  - lia.
  - arith_tac.
  - cbn. lia.
Defined.

Lemma inserted_pairs_of_main :
  exists m st t,
    build 10 (inserts [(0, 0); (1, -1); (2, -101)]) empty_state = Ok (m, st)
    /\ holds st m t
    /\ bst t
    /\ entries t ≡ₚ [(0, 0); (1, -1); (2, -101)]
    /\ forward_keys 10 m st = Ok (keys t, st)
    /\ StronglySorted Z.lt (keys t)
    /\ (forall k v, (k, v) ∈ [(0, 0); (1, -1); (2, -101)] ->
        exists p n, Get 10 m k st = Ok (p, st)
                    /\ nodes st !! p = Some n
                    /\ Node.key n = k /\ Node.value n = v).
Proof.
  apply (inserted_pairs_are_found [(0, 0); (1, -1); (2, -101)] 10).
  - nodup_tac.
  - cbn. lia.
  - cbn. lia.
Defined.
